(** * zap-ltsv: the LTSV encoder and the stack-trace flattener

    A shallow embedding of [ltsv_encoder.go] and [ltsv_stack.go] and the
    properties of the encoder's escaping, field accumulation, entry writing
    and of the one-line stack formatter.

    Go's [string] and [[]byte] are both sequences of bytes and are modelled
    as [list byte].  An encoder is reached through a pointer, and encoders are
    recycled through [ltsvPool]: the heap of encoders and the pool are
    explicit, so that aliasing between the source encoder and the pooled
    [final] encoder of [WriteEntry] is visible. *)

From Stdlib Require Import ZArith NArith Strings.Byte Strings.String Lia.
From Stdlib Require Import DecimalString.
From Stdlib Require DecimalPos DecimalFacts.
From stdpp Require Import base option list gmap.

Open Scope Z_scope.

(** ** Byte strings *)

Definition bstring := list byte.

(** A Go string literal (ASCII text without escapes). *)
Definition B (s : string) : bstring := list_byte_of_string s.

Definition u8 (b : byte) : Z := Z.of_N (Byte.to_N b).

Definition byteOf (z : Z) : byte :=
  match Byte.of_N (Z.to_N z) with
  | Some b => b
  | None => x00
  end.

Definition TAB : byte := x09.
Definition LF : byte := x0a.
Definition CR : byte := x0d.
Definition QUOTE : byte := x22.
Definition BACKSLASH : byte := x5c.
Definition LBRACE : byte := x7b.
Definition RBRACE : byte := x7d.
Definition COLON : byte := x3a.
Definition COMMA : byte := x2c.

(** [s[i]], for an index already checked against [len(s)]. *)
Definition byteAt (s : bstring) (i : nat) : byte := nth i s x00.

(** ** [unicode/utf8] *)

Module utf8.

Definition RuneError : Z := 0xFFFD.
Definition RuneSelf : Z := 0x80.

Definition locb : Z := 0x80.
Definition hicb : Z := 0xBF.

(** The classes of the [first] table: the low three bits are the length of
    the sequence, the high four bits index [acceptRanges]. *)
Definition xx : Z := 0xF1.
Definition as_ : Z := 0xF0.
Definition s1 : Z := 0x02.
Definition s2 : Z := 0x13.
Definition s3 : Z := 0x03.
Definition s4 : Z := 0x23.
Definition s5 : Z := 0x34.
Definition s6 : Z := 0x04.
Definition s7 : Z := 0x44.

(** The 256-entry table [first], by ranges of the first byte. *)
Definition first (b : byte) : Z :=
  let v := u8 b in
  if v <? 0x80 then as_
  else if v <? 0xC2 then xx
  else if v <? 0xE0 then s1
  else if v =? 0xE0 then s2
  else if v <? 0xED then s3
  else if v =? 0xED then s4
  else if v <? 0xF0 then s3
  else if v =? 0xF0 then s5
  else if v <? 0xF4 then s6
  else if v =? 0xF4 then s7
  else xx.

Definition acceptRanges (k : Z) : Z * Z :=
  match k with
  | 0 => (locb, hicb)
  | 1 => (0xA0, hicb)
  | 2 => (locb, 0x9F)
  | 3 => (0x90, hicb)
  | 4 => (locb, 0x8F)
  | _ => (0, 0)
  end.

Definition maskx : Z := 0x3F.
Definition mask2 : Z := 0x1F.
Definition mask3 : Z := 0x0F.
Definition mask4 : Z := 0x07.

(** [utf8.DecodeRuneInString]: the rune at the start of [s] and its width in
    bytes; [(RuneError, 0)] on the empty string and [(RuneError, 1)] when the
    encoding is invalid. *)
Definition DecodeRuneInString (s : bstring) : Z * nat :=
  match s with
  | [] => (RuneError, 0%nat)
  | b0 :: _ =>
    let x := first b0 in
    if as_ <=? x then
      (* mask := rune(x) << 31 >> 31 is all ones exactly when x is odd (xx) *)
      ((if Z.testbit x 0 then RuneError else u8 b0), 1%nat)
    else
      let sz := Z.to_nat (Z.land x 7) in
      let accept := acceptRanges (Z.shiftr x 4) in
      if (length s <? sz)%nat then (RuneError, 1%nat)
      else
        let c1 := u8 (byteAt s 1) in
        if (c1 <? fst accept) || (snd accept <? c1) then (RuneError, 1%nat)
        else if (sz <=? 2)%nat then
          (Z.lor (Z.shiftl (Z.land (u8 b0) mask2) 6) (Z.land c1 maskx), 2%nat)
        else
          let c2 := u8 (byteAt s 2) in
          if (c2 <? locb) || (hicb <? c2) then (RuneError, 1%nat)
          else if (sz <=? 3)%nat then
            (Z.lor (Z.lor (Z.shiftl (Z.land (u8 b0) mask3) 12)
                          (Z.shiftl (Z.land c1 maskx) 6))
                   (Z.land c2 maskx), 3%nat)
          else
            let c3 := u8 (byteAt s 3) in
            if (c3 <? locb) || (hicb <? c3) then (RuneError, 1%nat)
            else
              (Z.lor (Z.lor (Z.lor (Z.shiftl (Z.land (u8 b0) mask4) 18)
                                   (Z.shiftl (Z.land c1 maskx) 12))
                            (Z.shiftl (Z.land c2 maskx) 6))
                     (Z.land c3 maskx), 4%nat)
  end.

(** [utf8.AppendRune(nil, r)]: the UTF-8 encoding of a rune; surrogates and
    values out of range are encoded as [RuneError]. *)
Definition EncodeRune (r : Z) : bstring :=
  let three (r : Z) :=
    [byteOf (Z.lor 0xE0 (Z.shiftr r 12));
     byteOf (Z.lor 0x80 (Z.land (Z.shiftr r 6) maskx));
     byteOf (Z.lor 0x80 (Z.land r maskx))] in
  if (0 <=? r) && (r <=? 0x7F) then [byteOf r]
  else if (0 <=? r) && (r <=? 0x7FF) then
    [byteOf (Z.lor 0xC0 (Z.shiftr r 6)); byteOf (Z.lor 0x80 (Z.land r maskx))]
  else if (r <? 0) || (0x10FFFF <? r) || ((0xD800 <=? r) && (r <=? 0xDFFF)) then
    three RuneError
  else if r <=? 0xFFFF then three r
  else
    [byteOf (Z.lor 0xF0 (Z.shiftr r 18));
     byteOf (Z.lor 0x80 (Z.land (Z.shiftr r 12) maskx));
     byteOf (Z.lor 0x80 (Z.land (Z.shiftr r 6) maskx));
     byteOf (Z.lor 0x80 (Z.land r maskx))].

End utf8.

(** ** [strconv] and [strings] *)

(** [strconv.AppendInt(nil, v, 10)]: the decimal digits of [v], with a
    leading minus sign for a negative value and no other character. *)
Definition FormatInt10 (v : Z) : bstring :=
  B (NilZero.string_of_int (Z.to_int v)).

(** A [strings.Replacer] all of whose old strings are single bytes, the only
    kind this package builds: the (old byte, new string) pairs in argument
    order.  [Replace] substitutes byte by byte, and when an old byte is listed
    twice the first pair wins. *)
Definition Replacer := list (byte * bstring).

Fixpoint replacement (r : Replacer) (b : byte) : option bstring :=
  match r with
  | [] => None
  | (o, n) :: r' => if Byte.eqb o b then Some n else replacement r' b
  end.

Definition Replace (r : Replacer) (s : bstring) : bstring :=
  flat_map (fun b => match replacement r b with
                     | Some n => n
                     | None => [b]
                     end) s.

(** ** The encoder *)

Definition _hex : bstring := B "0123456789abcdef".

(** [nestedLevel] is a Go [int]; it moves by one around a nested object and
    stays far from the bounds of [int]. *)
Record ltsvEncoder := mkEncoder {
  bytes : bstring;
  timeLabel : bstring;
  timeFmt : bstring;
  levelLabel : bstring;
  messageLabel : bstring;
  nestedLevel : Z;
  replacer : Replacer
}.

Definition set_bytes (enc : ltsvEncoder) (b : bstring) : ltsvEncoder :=
  mkEncoder b (timeLabel enc) (timeFmt enc) (levelLabel enc)
            (messageLabel enc) (nestedLevel enc) (replacer enc).

Definition set_nestedLevel (enc : ltsvEncoder) (n : Z) : ltsvEncoder :=
  mkEncoder (bytes enc) (timeLabel enc) (timeFmt enc) (levelLabel enc)
            (messageLabel enc) n (replacer enc).

(** [enc.bytes = append(enc.bytes, bs...)] *)
Definition append (bs : bstring) (enc : ltsvEncoder) : ltsvEncoder :=
  set_bytes enc (bytes enc ++ bs).

(** The replacer every encoder made by [ltsvPool.New] carries. *)
Definition defaultReplacer : Replacer :=
  [(TAB, [BACKSLASH; "t"%byte]);
   (LF, [BACKSLASH; "n"%byte]);
   (CR, [BACKSLASH; "r"%byte])].

Definition truncate (enc : ltsvEncoder) : ltsvEncoder := set_bytes enc [].

Definition safeAddString (s : bstring) (enc : ltsvEncoder) : ltsvEncoder :=
  append (Replace (replacer enc) s) enc.

(** The loop of [safeAddJSONString].  [s] is the unread suffix [s[i:]] of the
    argument and [buf] is [enc.bytes]; every iteration consumes at least one
    byte, so [fuel = len(s)] iterations suffice. *)
Fixpoint jsonLoop (fuel : nat) (s : bstring) (buf : bstring) : bstring :=
  match fuel with
  | O => buf
  | S fuel' =>
    match s with
    | [] => buf
    | b :: rest =>
      if u8 b <? utf8.RuneSelf then
        if (0x20 <=? u8 b) && negb (Byte.eqb b BACKSLASH)
           && negb (Byte.eqb b QUOTE)
        then jsonLoop fuel' rest (buf ++ [b])
        else if Byte.eqb b BACKSLASH || Byte.eqb b QUOTE then
          jsonLoop fuel' rest (buf ++ [BACKSLASH; b])
        else if Byte.eqb b LF then
          jsonLoop fuel' rest (buf ++ [BACKSLASH; "n"%byte])
        else if Byte.eqb b CR then
          jsonLoop fuel' rest (buf ++ [BACKSLASH; "r"%byte])
        else if Byte.eqb b TAB then
          jsonLoop fuel' rest (buf ++ [BACKSLASH; "t"%byte])
        else
          jsonLoop fuel' rest
            ((buf ++ [BACKSLASH; "u"%byte; "0"%byte; "0"%byte])
                 ++ [byteAt _hex (Z.to_nat (Z.shiftr (u8 b) 4));
                     byteAt _hex (Z.to_nat (Z.land (u8 b) 0xF))])
      else
        let '(c, size) := utf8.DecodeRuneInString s in
        if (c =? utf8.RuneError) && (size =? 1)%nat then
          jsonLoop fuel' rest
            (buf ++ [BACKSLASH; "u"%byte; "f"%byte; "f"%byte; "f"%byte; "d"%byte])
        else
          jsonLoop fuel' (drop size s) (buf ++ take size s)
    end
  end.

Definition safeAddJSONString (s : bstring) (enc : ltsvEncoder) : ltsvEncoder :=
  set_bytes enc (jsonLoop (length s) s (bytes enc)).

Definition addKey (key : bstring) (enc : ltsvEncoder) : ltsvEncoder :=
  if 0 <? nestedLevel enc then
    let last := Z.of_nat (length (bytes enc)) - 1 in
    let enc :=
      if (0 <=? last) && negb (Byte.eqb (byteAt (bytes enc) (Z.to_nat last)) LBRACE)
      then append [COMMA] enc else enc in
    let enc := append [QUOTE] enc in
    let enc := safeAddJSONString key enc in
    append [QUOTE; COLON] enc
  else
    let enc := if (0 <? length (bytes enc))%nat then append [TAB] enc else enc in
    let enc := safeAddString key enc in
    append [COLON] enc.

Definition AddString (key val : bstring) (enc : ltsvEncoder) : ltsvEncoder :=
  let enc := addKey key enc in
  if 0 <? nestedLevel enc then
    let enc := append [QUOTE] enc in
    let enc := safeAddJSONString val enc in
    append [QUOTE] enc
  else safeAddString val enc.

(** [strconv.AppendBool] *)
Definition AddBool (key : bstring) (val : bool) (enc : ltsvEncoder) : ltsvEncoder :=
  append (if val then B "true" else B "false") (addKey key enc).

Definition AddInt64 (key : bstring) (val : Z) (enc : ltsvEncoder) : ltsvEncoder :=
  append (FormatInt10 val) (addKey key enc).

Definition AddInt (key : bstring) (val : Z) (enc : ltsvEncoder) : ltsvEncoder :=
  AddInt64 key val enc.

(** The error values of the package and of its collaborators. *)
Inductive error :=
| errNilSink
    (* errors.New("can't write encoded message a nil WriteSyncer") *)
| errIncompleteWrite (n expectedBytes : Z)
    (* fmt.Errorf("incomplete write: only wrote %v of %v bytes", ...) *)
| errForeign (msg : bstring)
    (* an error made by a sink or by a zap.LogMarshaler *).

(** [zap.LogMarshaler]: [MarshalLog] receives the encoder it is to add its
    fields to, may change it, and returns an error or nil. *)
Definition LogMarshaler := ltsvEncoder -> ltsvEncoder * option error.

Definition AddMarshaler (key : bstring) (obj : LogMarshaler) (enc : ltsvEncoder)
  : ltsvEncoder * option error :=
  let enc := addKey key enc in
  let enc := set_nestedLevel enc (nestedLevel enc + 1) in
  let enc := append [LBRACE] enc in
  let '(enc, err) := obj enc in
  let enc := append [RBRACE] enc in
  let enc := set_nestedLevel enc (nestedLevel enc - 1) in
  (enc, err).

Definition AddUint64 (key : bstring) (val : Z) (enc : ltsvEncoder) : ltsvEncoder :=
  append (FormatInt10 val) (addKey key enc).

(** [strconv.AppendUint(nil, v, 16)] for a 64-bit [v]: at most sixteen
    lowercase hexadecimal digits, without leading zeros. *)
Fixpoint hexDigits (fuel : nat) (v : Z) (acc : bstring) : bstring :=
  match fuel with
  | O => acc
  | S fuel' =>
    let acc' := byteAt _hex (Z.to_nat (v mod 16)) :: acc in
    if v / 16 =? 0 then acc' else hexDigits fuel' (v / 16) acc'
  end.

Definition AddUintptr (key : bstring) (val : Z) (enc : ltsvEncoder) : ltsvEncoder :=
  let enc := addKey key enc in
  let enc := append (B "0x") enc in
  append (hexDigits 16 val []) enc.

(** ** The heap of encoders and [ltsvPool] *)

Definition loc := positive.

Record World := mkWorld {
  heap : gmap loc ltsvEncoder;
  pool : list loc
}.

(** Code that follows pointers: [None] is the panic of a nil dereference. *)
Definition M (A : Type) : Type := World -> option (A * World).

Definition ret {A} (a : A) : M A := fun w => Some (a, w).

Definition bind {A C} (m : M A) (k : A -> M C) : M C :=
  fun w => match m w with
           | Some (a, w') => k a w'
           | None => None
           end.

Declare Scope go_scope.
Delimit Scope go_scope with go.
Notation "'do' x <- m ; k" := (bind m (fun x => k))
  (at level 10, x name, m at level 99, k at level 200) : go_scope.
Notation "m ;;; k" := (bind m (fun _ => k))
  (at level 100, k at level 200, right associativity) : go_scope.

(** [*l] *)
Definition load (l : loc) : M ltsvEncoder :=
  fun w => match heap w !! l with
           | Some e => Some (e, w)
           | None => None
           end.

(** [*l = e] *)
Definition store (l : loc) (e : ltsvEncoder) : M unit :=
  fun w => Some (tt, mkWorld (<[l := e]> (heap w)) (pool w)).

(** A method with a pointer receiver that only updates its receiver. *)
Definition call (l : loc) (f : ltsvEncoder -> ltsvEncoder) : M unit :=
  (do e <- load l; store l (f e))%go.

(** The [New] function of [ltsvPool].  The zero value of [timeFmt] is the
    empty string and that of [nestedLevel] is 0. *)
Definition ltsvPool_New : ltsvEncoder :=
  mkEncoder [] (B "time") [] (B "level") (B "msg") 0 defaultReplacer.

(** [ltsvPool.Get()].  A [sync.Pool] hands out any of the items put into it,
    or a new one: [pick] is that choice, an index into the pooled items, and
    an index out of range stands for the pool finding nothing to reuse. *)
Definition ltsvPool_Get (pick : nat) : M loc :=
  fun w =>
    match pool w !! pick with
    | Some l => Some (l, mkWorld (heap w) (delete pick (pool w)))
    | None =>
      let l := fresh (dom (heap w)) in
      Some (l, mkWorld (<[l := ltsvPool_New]> (heap w)) (pool w))
    end.

(** [ltsvPool.Put(enc)] *)
Definition ltsvPool_Put (l : loc) : M unit :=
  fun w => Some (tt, mkWorld (heap w) (l :: pool w)).

Definition Free (enc : loc) : M unit := ltsvPool_Put enc.

(** ** Options *)

Definition LTSVOption := ltsvEncoder -> ltsvEncoder.

Definition LTSVTimeFormat (layout : bstring) : LTSVOption :=
  fun enc => mkEncoder (bytes enc) (timeLabel enc) layout (levelLabel enc)
                       (messageLabel enc) (nestedLevel enc) (replacer enc).

Definition LTSVNoTime : LTSVOption := LTSVTimeFormat [].

Definition LTSVTimeLabel (label : bstring) : LTSVOption :=
  fun enc => mkEncoder (bytes enc) label (timeFmt enc) (levelLabel enc)
                       (messageLabel enc) (nestedLevel enc) (replacer enc).

Definition LTSVLevelLabel (label : bstring) : LTSVOption :=
  fun enc => mkEncoder (bytes enc) (timeLabel enc) (timeFmt enc) label
                       (messageLabel enc) (nestedLevel enc) (replacer enc).

Definition LTSVNoLevel : LTSVOption := LTSVLevelLabel [].

Definition LTSVMessageLabel (label : bstring) : LTSVOption :=
  fun enc => mkEncoder (bytes enc) (timeLabel enc) (timeFmt enc) (levelLabel enc)
                       label (nestedLevel enc) (replacer enc).

(** [time.RFC3339] *)
Definition RFC3339 : bstring := B "2006-01-02T15:04:05Z07:00".

Definition NewLTSVEncoder (options : list LTSVOption) (pick : nat) : M loc :=
  (do enc <- ltsvPool_Get pick;
   call enc truncate;;;
   call enc (LTSVTimeFormat RFC3339);;;
   call enc (fun e => fold_left (fun e opt => opt e) options e);;;
   ret enc)%go.

Definition Clone (enc : loc) (pick : nat) : M loc :=
  (do clone <- ltsvPool_Get pick;
   call clone truncate;;;
   do e <- load enc;
   call clone (append (bytes e));;;
   do e <- load enc;
   call clone (LTSVTimeLabel (timeLabel e));;;
   do e <- load enc;
   call clone (LTSVTimeFormat (timeFmt e));;;
   do e <- load enc;
   call clone (LTSVLevelLabel (levelLabel e));;;
   do e <- load enc;
   call clone (LTSVMessageLabel (messageLabel e));;;
   do e <- load enc;
   call clone (fun c => set_nestedLevel c (nestedLevel e));;;
   do e <- load enc;
   call clone (fun c => mkEncoder (bytes c) (timeLabel c) (timeFmt c) (levelLabel c)
                                  (messageLabel c) (nestedLevel c) (replacer e));;;
   ret clone)%go.

(** ** The sink *)

(** An [io.Writer]: [calls] records the byte strings it was handed, one per
    call of [Write], and [respond] is what a call returns, the count [n] and
    the error, given the earlier calls and the bytes written. *)
Record Sink := mkSink {
  calls : list bstring;
  respond : list bstring -> bstring -> Z * option error
}.

Definition sink_Write (sk : Sink) (p : bstring) : (Z * option error) * Sink :=
  (respond sk (calls sk) p, mkSink (calls sk ++ [p]) (respond sk)).

(** ** The host: [time] and the levels of [zap] *)

(** What the encoder takes from outside the package: the type [time.Time]
    with the text [t.Format(layout)], and the six level constants of [zap],
    which the Go compiler requires to be distinct for the [switch] of
    [addLevel].  A [zap.Level] is an [int32], here a [Z]. *)
Class Host := mkHost {
  Time : Type;
  Format : Time -> bstring -> bstring;
  DebugLevel : Z;
  InfoLevel : Z;
  WarnLevel : Z;
  ErrorLevel : Z;
  PanicLevel : Z;
  FatalLevel : Z;
  levels_distinct :
    NoDup [DebugLevel; InfoLevel; WarnLevel; ErrorLevel; PanicLevel; FatalLevel]
}.

Section Entry.
Context `{Host}.

(** [t.AppendFormat(b, layout)] *)
Definition AppendFormat (t : Time) (b layout : bstring) : bstring :=
  b ++ Format t layout.

Definition addLevel (enc final : loc) (lvl : Z) : M unit :=
  (do e <- load enc;
   call final (addKey (levelLabel e));;;
   if lvl =? DebugLevel then call final (append ["D"%byte])
   else if lvl =? InfoLevel then call final (append ["I"%byte])
   else if lvl =? WarnLevel then call final (append ["W"%byte])
   else if lvl =? ErrorLevel then call final (append ["E"%byte])
   else if lvl =? PanicLevel then call final (append ["P"%byte])
   else if lvl =? FatalLevel then call final (append ["F"%byte])
   else call final (append (FormatInt10 lvl)))%go.

Definition addTime (enc final : loc) (t : Time) : M unit :=
  (do e <- load enc;
   if (length (timeFmt e) =? 0)%nat then ret tt
   else
     do e <- load enc;
     call final (addKey (timeLabel e));;;
     do e <- load enc;
     call final (fun f => set_bytes f (AppendFormat t (bytes f) (timeFmt e))))%go.

Definition addMessage (enc final : loc) (msg : bstring) : M unit :=
  (do e <- load enc;
   call final (addKey (messageLabel e));;;
   call final (safeAddString msg))%go.

(** [WriteEntry] returns its error and leaves the sink as the call made it;
    the heap and the pool are threaded through [M]. *)
Definition WriteEntry (enc : loc) (sink : option Sink) (msg : bstring) (lvl : Z)
    (t : Time) (pick : nat) : M (option error * option Sink) :=
  match sink with
  | None => ret (Some errNilSink, None)
  | Some sk =>
    (do final <- ltsvPool_Get pick;
     call final truncate;;;
     addTime enc final t;;;
     addLevel enc final lvl;;;
     addMessage enc final msg;;;
     do e <- load enc;
     (if (0 <? length (bytes e))%nat then
        call final (append [TAB]);;;
        do e <- load enc;
        call final (append (bytes e))
      else ret tt);;;
     call final (append [LF]);;;
     do f <- load final;
     let expectedBytes := Z.of_nat (length (bytes f)) in
     let '((n, err), sk') := sink_Write sk (bytes f) in
     Free final;;;
     match err with
     | Some e => ret (Some e, Some sk')
     | None =>
       if negb (n =? expectedBytes)
       then ret (Some (errIncompleteWrite n expectedBytes), Some sk')
       else ret (None, Some sk')
     end)%go
  end.

End Entry.

(** ** The stack flattener *)

(** [bytes.IndexByte]: [None] is the result -1. *)
Fixpoint IndexByte (b : bstring) (c : byte) : option nat :=
  match b with
  | [] => None
  | x :: b' => if Byte.eqb x c then Some O else S <$> IndexByte b' c
  end.

(** Go's [int] is 64 bits wide here. *)
Definition wrapInt (z : Z) : Z := (z + 2 ^ 63) mod 2 ^ 64 - 2 ^ 63.

(** [formatStacktraceInOneLine] starts with [buf := []byte(s)] and
    [p := buf[:0]]: the output slice [p] begins at the start of the array
    that [buf] is read from, and an [append] to [p] that fits the capacity
    writes into that array.  [arr] holds the [len(s)] bytes of the array that
    [buf] can read, [buf] is [arr[off:]], and [p] holds the contents of the
    output slice; [shared] says that [p] is still backed by the array of
    [buf], which lasts until an [append] exceeds the capacity and moves [p]
    to an array of its own. *)
Record stackState := mkStack {
  arr : bstring;
  off : nat;
  p : bstring;
  shared : bool
}.

Definition buf (st : stackState) : bstring := drop (off st) (arr st).

(** [buf = buf[n:]] *)
Definition advance (n : nat) (st : stackState) : stackState :=
  mkStack (arr st) (off st + n) (p st) (shared st).

(** [p = append(p, xs...)], where [cap] is the capacity of [[]byte(s)].  The
    elements [xs] are read before they are copied, as [memmove] does. *)
Definition appendP (cap : nat) (xs : bstring) (st : stackState) : stackState :=
  if shared st && (length (p st) + length xs <=? cap)%nat then
    mkStack (list_inserts (length (p st)) xs (arr st)) (off st) (p st ++ xs) true
  else
    mkStack (arr st) (off st) (p st ++ xs) false.

(** The code after the label [buffer_too_small]. *)
Definition buffer_too_small (cap : nat) (st : stackState) : bstring :=
  let st := appendP cap (buf st) st in
  let st := appendP cap (B "...") st in
  p st.

(** The first loop, run [n] times; [inl] is the jump to [buffer_too_small]. *)
Fixpoint skipLines (n : nat) (st : stackState) : stackState + stackState :=
  match n with
  | O => inr st
  | S n' =>
    match IndexByte (buf st) LF with
    | None => inl st
    | Some i =>
      if (length (buf st) <? i + 1)%nat then inl st
      else skipLines n' (advance (i + 1) st)
    end
  end.

(** The second loop.  An iteration that does not leave the function takes at
    least three bytes off [buf]; [None] is the loop running out of [fuel]. *)
Fixpoint frames (cap : nat) (fuel : nat) (st : stackState) : option bstring :=
  match fuel with
  | O => None
  | S fuel' =>
    if (0 <? length (buf st))%nat then
      let st := appendP cap ["["%byte] st in
      match IndexByte (buf st) LF with
      | None => Some (buffer_too_small cap st)
      | Some i =>
        let st := appendP cap (take i (buf st)) st in
        let st := appendP cap [" "%byte] st in
        if (length (buf st) <? i + 2)%nat then Some (buffer_too_small cap st)
        else
          let st := advance (i + 2) st in
          match IndexByte (buf st) LF with
          | None => Some (buffer_too_small cap st)
          | Some i =>
            let st := appendP cap (take i (buf st)) st in
            let st := appendP cap ["]"%byte] st in
            if (length (buf st) <? i + 1)%nat then Some (buffer_too_small cap st)
            else
              let st := advance (i + 1) st in
              let st := if (0 <? length (buf st))%nat
                        then appendP cap [","%byte] st else st in
              frames cap fuel' st
          end
      end
    else Some (p st)
  end.

(** [formatStacktraceInOneLine(skip, s)], where the array allocated by
    [[]byte(s)] has room for [spare] bytes after the [len(s)] bytes of [s]. *)
Definition formatStacktraceInOneLine (spare : nat) (skip : Z) (s : bstring)
  : option bstring :=
  let cap := (length s + spare)%nat in
  let st := mkStack s 0 [] true in
  match skipLines (Z.to_nat (wrapInt (1 + wrapInt (2 * skip)))) st with
  | inl st => Some (buffer_too_small cap st)
  | inr st => frames cap (S (length s)) st
  end.

(** ** What the specification says, for comparison with the code *)

(** Simple-mode escaping as the specification words it: tab, newline and
    carriage return become two-character escapes, any other byte is kept. *)
Definition simpleEscapeByte (b : byte) : bstring :=
  match b with
  | x09 => [BACKSLASH; "t"%byte]
  | x0a => [BACKSLASH; "n"%byte]
  | x0d => [BACKSLASH; "r"%byte]
  | _ => [b]
  end.

Definition simpleEscape (s : bstring) : bstring := flat_map simpleEscapeByte s.

(** The value of a hexadecimal digit. *)
Definition hexVal (b : byte) : option Z :=
  let v := u8 b in
  if (0x30 <=? v) && (v <=? 0x39) then Some (v - 0x30)
  else if (0x61 <=? v) && (v <=? 0x66) then Some (v - 0x61 + 10)
  else if (0x41 <=? v) && (v <=? 0x46) then Some (v - 0x41 + 10)
  else None.

(** The code unit of an escape [\uXXXX] at the start of [s]. *)
Definition getu4 (s : bstring) : option Z :=
  match s with
  | x5c :: x75 :: h1 :: h2 :: h3 :: h4 :: _ =>
    match hexVal h1, hexVal h2, hexVal h3, hexVal h4 with
    | Some a, Some b, Some c, Some d => Some (((a * 16 + b) * 16 + c) * 16 + d)
    | _, _, _, _ => None
    end
  | _ => None
  end.

(** The character after a backslash in a two-character JSON escape. *)
Definition shortEscape (c : byte) : option byte :=
  match c with
  | x22 => Some x22
  | x5c => Some x5c
  | x2f => Some x2f
  | x62 => Some x08
  | x66 => Some x0c
  | x6e => Some x0a
  | x72 => Some x0d
  | x74 => Some x09
  | _ => None
  end.

(** Standard unescaping of the inside of a JSON string, as a JSON parser
    does it: two-character escapes, [\uXXXX] escapes (a surrogate pair gives
    one code point, a lone surrogate the replacement character) encoded as
    UTF-8, and everything else copied; a raw quote, a raw control character
    and a malformed escape are errors ([None]).  Invalid UTF-8 is replaced by
    the replacement character, as [encoding/json] does. *)
Fixpoint unquoteLoop (fuel : nat) (s : bstring) : option bstring :=
  match s with
  | [] => Some []
  | b :: rest =>
    match fuel with
    | O => None
    | S fuel' =>
      if Byte.eqb b BACKSLASH then
        match rest with
        | [] => None
        | c :: rest' =>
          if Byte.eqb c "u"%byte then
            match getu4 s with
            | None => None
            | Some rr =>
              let after := drop 6 s in
              if (0xD800 <=? rr) && (rr <? 0xE000) then
                match getu4 after with
                | Some rr1 =>
                  if (rr <? 0xDC00) && (0xDC00 <=? rr1) && (rr1 <? 0xE000) then
                    app (utf8.EncodeRune
                           (Z.shiftl (rr - 0xD800) 10 + (rr1 - 0xDC00) + 0x10000))
                      <$> unquoteLoop fuel' (drop 6 after)
                  else
                    app (utf8.EncodeRune utf8.RuneError) <$> unquoteLoop fuel' after
                | None =>
                  app (utf8.EncodeRune utf8.RuneError) <$> unquoteLoop fuel' after
                end
              else app (utf8.EncodeRune rr) <$> unquoteLoop fuel' after
            end
          else
            match shortEscape c with
            | Some d => cons d <$> unquoteLoop fuel' rest'
            | None => None
            end
        end
      else if Byte.eqb b QUOTE || (u8 b <? 0x20) then None
      else if u8 b <? utf8.RuneSelf then cons b <$> unquoteLoop fuel' rest
      else
        let '(c, size) := utf8.DecodeRuneInString s in
        if (c =? utf8.RuneError) && (size =? 1)%nat then
          app (utf8.EncodeRune utf8.RuneError) <$> unquoteLoop fuel' rest
        else app (take size s) <$> unquoteLoop fuel' (drop size s)
    end
  end.

Definition jsonUnquote (s : bstring) : option bstring := unquoteLoop (length s) s.

(** [s] with every byte at which UTF-8 decoding fails replaced by the
    encoding of the replacement character U+FFFD. *)
Fixpoint replaceInvalidLoop (fuel : nat) (s : bstring) : bstring :=
  match fuel with
  | O => []
  | S fuel' =>
    match s with
    | [] => []
    | _ :: rest =>
      let '(c, size) := utf8.DecodeRuneInString s in
      if (c =? utf8.RuneError) && (size =? 1)%nat then
        utf8.EncodeRune utf8.RuneError ++ replaceInvalidLoop fuel' rest
      else take size s ++ replaceInvalidLoop fuel' (drop size s)
    end
  end.

Definition replaceInvalid (s : bstring) : bstring := replaceInvalidLoop (length s) s.

(** [utf8.ValidString] *)
Fixpoint validLoop (fuel : nat) (s : bstring) : bool :=
  match fuel with
  | O => match s with [] => true | _ => false end
  | S fuel' =>
    match s with
    | [] => true
    | _ :: _ =>
      let '(c, size) := utf8.DecodeRuneInString s in
      if (c =? utf8.RuneError) && (size =? 1)%nat then false
      else validLoop fuel' (drop size s)
    end
  end.

Definition ValidString (s : bstring) : bool := validLoop (length s) s.

(** Occurrences of a byte, and the excess of opening over closing braces. *)
Fixpoint countByte (c : byte) (s : bstring) : Z :=
  match s with
  | [] => 0
  | b :: s' => (if Byte.eqb b c then 1 else 0) + countByte c s'
  end.

Definition braceDepth (s : bstring) : Z := countByte LBRACE s - countByte RBRACE s.

Definition braceFree (s : bstring) : Prop := (LBRACE ∉ s) /\ (RBRACE ∉ s).

(** A callback that, on an encoder with the replacer of [ltsvPool.New],
    leaves that replacer and adds as many opening as closing braces. *)
Definition keepsBraces (obj : LogMarshaler) : Prop :=
  forall enc, replacer enc = defaultReplacer ->
    braceDepth (bytes (fst (obj enc))) = braceDepth (bytes enc)
    /\ replacer (fst (obj enc)) = defaultReplacer.

(** The callbacks that make a sequence of nested-object additions and
    nothing else: one that returns at once, with an error or without, and one
    that adds a nested object under a key without braces and goes on, as it
    likes, from the error of that addition. *)
Inductive nestedAdditions : LogMarshaler -> Prop :=
| nested_return (err : option error) :
    nestedAdditions (fun enc => (enc, err))
| nested_add (key : bstring) (obj : LogMarshaler)
             (rest : option error -> LogMarshaler) :
    braceFree key -> nestedAdditions obj ->
    (forall err, nestedAdditions (rest err)) ->
    nestedAdditions (fun enc => let '(enc', err) := AddMarshaler key obj enc in
                                rest err enc').

(** The [MarshalLog] of the test type [loggable]. *)
Definition loggable (ok : bool) : LogMarshaler :=
  fun enc =>
    if ok then (AddString (B "loggable") (B "yes") enc, None)
    else (enc, Some (errForeign (B "can't marshal"))).

(** One iteration of [jsonLoop] on the unread input [s]: the bytes it
    appends and the number of bytes of [s] it consumes. *)
Definition asciiChunk (b : byte) : bstring :=
  if (0x20 <=? u8 b) && negb (Byte.eqb b BACKSLASH) && negb (Byte.eqb b QUOTE)
  then [b]
  else if Byte.eqb b BACKSLASH || Byte.eqb b QUOTE then [BACKSLASH; b]
  else if Byte.eqb b LF then [BACKSLASH; "n"%byte]
  else if Byte.eqb b CR then [BACKSLASH; "r"%byte]
  else if Byte.eqb b TAB then [BACKSLASH; "t"%byte]
  else [BACKSLASH; "u"%byte; "0"%byte; "0"%byte;
        byteAt _hex (Z.to_nat (Z.shiftr (u8 b) 4));
        byteAt _hex (Z.to_nat (Z.land (u8 b) 0xF))].

Definition jsonChunk (s : bstring) : bstring * nat :=
  match s with
  | [] => ([], O)
  | b :: _ =>
    if u8 b <? utf8.RuneSelf then (asciiChunk b, 1%nat)
    else
      let '(c, size) := utf8.DecodeRuneInString s in
      if (c =? utf8.RuneError) && (size =? 1)%nat
      then ([BACKSLASH; "u"%byte; "f"%byte; "f"%byte; "f"%byte; "d"%byte], 1%nat)
      else (take size s, size)
  end.

(** What [safeAddJSONString] appends for [s]. *)
Definition jsonEscape (s : bstring) : bstring := jsonLoop (length s) s [].

(** One step of [replaceInvalid]. *)
Definition validChunk (s : bstring) : bstring * nat :=
  let '(c, size) := utf8.DecodeRuneInString s in
  if (c =? utf8.RuneError) && (size =? 1)%nat
  then (utf8.EncodeRune utf8.RuneError, 1%nat)
  else (take size s, size).

(** The flattener as the specification describes it, reading the input and
    writing the output with no storage in common. *)
Definition tooSmallSpec (out rest : bstring) : bstring := out ++ rest ++ B "...".

Fixpoint skipSpec (n : nat) (s : bstring) : bstring + bstring :=
  match n with
  | O => inr s
  | S n' =>
    match IndexByte s LF with
    | None => inl s
    | Some i => skipSpec n' (drop (i + 1) s)
    end
  end.

Fixpoint framesSpec (fuel : nat) (s out : bstring) : bstring :=
  match fuel with
  | O => out
  | S fuel' =>
    match s with
    | [] => out
    | _ :: _ =>
      let out := out ++ ["["%byte] in
      match IndexByte s LF with
      | None => tooSmallSpec out s
      | Some i =>
        let out := out ++ take i s ++ [" "%byte] in
        if (length s <? i + 2)%nat then tooSmallSpec out s
        else
          let s := drop (i + 2) s in
          match IndexByte s LF with
          | None => tooSmallSpec out s
          | Some j =>
            let out := out ++ take j s ++ ["]"%byte] in
            let s := drop (j + 1) s in
            framesSpec fuel' s (match s with [] => out | _ => out ++ [","%byte] end)
          end
      end
    end
  end.

Definition flattenSpec (skip : Z) (s : bstring) : bstring :=
  match skipSpec (Z.to_nat (1 + 2 * skip)) s with
  | inl rest => tooSmallSpec [] rest
  | inr rest => framesSpec (length s) rest []
  end.

(** The line of an entry as the specification describes it. *)
Section EntryLine.
Context `{Host}.

Definition levelCode (lvl : Z) : bstring :=
  if decide (lvl = DebugLevel) then B "D"
  else if decide (lvl = InfoLevel) then B "I"
  else if decide (lvl = WarnLevel) then B "W"
  else if decide (lvl = ErrorLevel) then B "E"
  else if decide (lvl = PanicLevel) then B "P"
  else if decide (lvl = FatalLevel) then B "F"
  else FormatInt10 lvl.

Definition timeField (e : ltsvEncoder) (t : Time) : bstring :=
  match timeFmt e with
  | [] => []
  | _ :: _ => simpleEscape (timeLabel e) ++ [COLON] ++ Format t (timeFmt e) ++ [TAB]
  end.

Definition levelField (e : ltsvEncoder) (lvl : Z) : bstring :=
  simpleEscape (levelLabel e) ++ [COLON] ++ levelCode lvl.

Definition messageField (e : ltsvEncoder) (msg : bstring) : bstring :=
  simpleEscape (messageLabel e) ++ [COLON] ++ simpleEscape msg.

Definition callerFields (e : ltsvEncoder) : bstring :=
  match bytes e with
  | [] => []
  | _ :: _ => TAB :: bytes e
  end.

Definition entryLine (e : ltsvEncoder) (msg : bstring) (lvl : Z) (t : Time) : bstring :=
  timeField e t ++ levelField e lvl ++ [TAB] ++ messageField e msg
    ++ callerFields e ++ [LF].

(** The line in which a built-in field is left out, with its separator,
    whenever the configured label is empty. *)
Definition joinTabs (fields : list bstring) : bstring :=
  match fields with
  | [] => []
  | f :: fs => f ++ flat_map (fun g => TAB :: g) fs
  end.

Definition labelled (label value : bstring) : list bstring :=
  match label with
  | [] => []
  | _ :: _ => [simpleEscape label ++ [COLON] ++ value]
  end.

Definition lineOmittingEmptyLabels (e : ltsvEncoder) (msg : bstring) (lvl : Z)
    (t : Time) : bstring :=
  joinTabs (labelled (timeLabel e) (Format t (timeFmt e))
              ++ labelled (levelLabel e) (levelCode lvl)
              ++ labelled (messageLabel e) (simpleEscape msg)
              ++ match bytes e with [] => [] | _ :: _ => [bytes e] end)
    ++ [LF].

(** The encoder [final] after the composition of [WriteEntry], from the
    state [f] in which the pool handed it out. *)
Definition addTimeV (e : ltsvEncoder) (t : Time) (f : ltsvEncoder) : ltsvEncoder :=
  if (length (timeFmt e) =? 0)%nat then f
  else
    let f := addKey (timeLabel e) f in
    set_bytes f (AppendFormat t (bytes f) (timeFmt e)).

Definition addLevelV (e : ltsvEncoder) (lvl : Z) (f : ltsvEncoder) : ltsvEncoder :=
  append (levelCode lvl) (addKey (levelLabel e) f).

Definition addMessageV (e : ltsvEncoder) (msg : bstring) (f : ltsvEncoder) : ltsvEncoder :=
  safeAddString msg (addKey (messageLabel e) f).

Definition composed (e : ltsvEncoder) (msg : bstring) (lvl : Z) (t : Time)
    (f : ltsvEncoder) : ltsvEncoder :=
  let f := addMessageV e msg (addLevelV e lvl (addTimeV e t (truncate f))) in
  let f := if (0 <? length (bytes e))%nat then append (bytes e) (append [TAB] f) else f in
  append [LF] f.

(** What [WriteEntry] returns for the answer of the sink. *)
Definition writeResult (answer : Z * option error) (expectedBytes : Z) : option error :=
  match snd answer with
  | Some err => Some err
  | None =>
    if negb (fst answer =? expectedBytes)
    then Some (errIncompleteWrite (fst answer) expectedBytes)
    else None
  end.

End EntryLine.

(** Every pooled encoder is allocated. *)
Definition poolLive (w : World) : Prop :=
  forall l, l ∈ pool w -> is_Some (heap w !! l).

(** Every pooled encoder is allocated, is at nesting depth 0 and carries the
    replacer of [ltsvPool.New]. *)
Definition poolReady (w : World) : Prop :=
  forall l, l ∈ pool w ->
    exists f, heap w !! l = Some f /\ nestedLevel f = 0 /\ replacer f = defaultReplacer.

(** [*l = f] on a world. *)
Definition poke (l : loc) (f : ltsvEncoder) (w : World) : World :=
  mkWorld (<[l := f]> (heap w)) (pool w).

(** A host for examples: six distinct levels and a clock whose layouts hold
    no element of the reference time, which [Format] prints as they are. *)
#[export] Instance demoHost : Host :=
  {| Time := unit;
     Format := fun _ layout => layout;
     DebugLevel := -1;
     InfoLevel := 0;
     WarnLevel := 1;
     ErrorLevel := 2;
     PanicLevel := 3;
     FatalLevel := 4;
     levels_distinct := ltac:(compute_done) |}.

(** A sink that accepts everything, one that fails and one that accepts one
    byte less than it is given. *)
Definition okSink : Sink := mkSink [] (fun _ p => (Z.of_nat (length p), None)).
Definition failSink : Sink := mkSink [] (fun _ p => (0, Some (errForeign (B "failed")))).
Definition shortSink : Sink := mkSink [] (fun _ p => (Z.of_nat (length p) - 1, None)).

(** An encoder configured without time, holding the field user=alice, and
    the same without level label; a world in which the first is checked out
    at address 1 while the pool holds a used encoder at address 2. *)
Definition aliceEncoder : ltsvEncoder :=
  AddString (B "user") (B "alice") (LTSVNoTime ltsvPool_New).

Definition aliceNoLevelEncoder : ltsvEncoder :=
  AddString (B "user") (B "alice") (LTSVNoLevel (LTSVNoTime ltsvPool_New)).

Definition usedEncoder : ltsvEncoder :=
  AddString (B "stale") (B "line") ltsvPool_New.

Definition demoWorld (e : ltsvEncoder) : World :=
  mkWorld (<[1%positive := e]> (<[2%positive := usedEncoder]> ∅)) [2%positive].

(** Stack traces for the examples: a trace of two frames after an empty
    first line, and the trace of a goroutine [n] calls deep. *)
Definition tinyTrace : bstring :=
  [LF] ++ B "a" ++ [LF; TAB] ++ B "b" ++ [LF] ++ B "c" ++ [LF; TAB] ++ B "d" ++ [LF].

Definition traceHeader : bstring := B "goroutine 1 [running]:" ++ [LF].

Definition traceFrame : bstring :=
  B "main.f(0x1)" ++ [LF; TAB] ++ B "/a.go:7 +0x1d" ++ [LF].

Definition deepTrace (n : nat) : bstring := traceHeader ++ concat (replicate n traceFrame).

Definition flatFrame : bstring := B "[main.f(0x1) /a.go:7 +0x1d]".

Definition flatFrames (n : nat) : bstring :=
  flatFrame ++ concat (replicate (n - 1) (","%byte :: flatFrame)).

(** Complete traces.  A frame is a description line and a location line,
    whose first byte (the tab) is dropped; the text before the frames is made
    of whole lines. *)
Record frame := mkFrame {
  description : bstring;
  indent : byte;
  location : bstring
}.

Definition frameOK (f : frame) : Prop := (LF ∉ description f) /\ (LF ∉ location f).

Definition frameBytes (f : frame) : bstring :=
  description f ++ [LF] ++ [indent f] ++ location f ++ [LF].

Definition traceBody (fs : list frame) : bstring := concat (map frameBytes fs).

Definition linesBytes (ls : list bstring) : bstring :=
  concat (map (fun l => l ++ [LF]) ls).

Definition flatOne (f : frame) : bstring :=
  ["["%byte] ++ description f ++ [" "%byte] ++ location f ++ ["]"%byte].

Fixpoint flatAll (fs : list frame) : bstring :=
  match fs with
  | [] => []
  | f :: fs' =>
    flatOne f ++ match fs' with [] => [] | _ :: _ => ","%byte :: flatAll fs' end
  end.

(** For the tests of the package: the encoder holding foo=bar, and the
    lines a sink that accepts everything receives from [WriteEntry], on the
    host [demoHost], for the encoder [e] checked out at address 1. *)
Definition afterFooBar : ltsvEncoder := AddString (B "foo") (B "bar") ltsvPool_New.

Definition lineOf (e : ltsvEncoder) (msg : bstring) (lvl : Z) : option (list bstring) :=
  match WriteEntry (H := demoHost) 1%positive (Some okSink) msg lvl tt 0 (demoWorld e) with
  | Some ((None, Some sk), _) => Some (calls sk)
  | _ => None
  end.

(** ** Sequences of additions *)

(** A call of one of the adding methods, as data.  [FObject key fields err]
    is [AddMarshaler] with an object whose [MarshalLog] makes the calls
    [fields] in order and returns [err]. *)
#[local] Unset Elimination Schemes.
Inductive Field :=
| FString (key val : bstring)
| FBool (key : bstring) (val : bool)
| FInt64 (key : bstring) (val : Z)
| FUint64 (key : bstring) (val : Z)
| FUintptr (key : bstring) (val : Z)
| FObject (key : bstring) (fields : list Field) (err : option error).
#[local] Set Elimination Schemes.

Fixpoint addField (f : Field) (enc : ltsvEncoder) : ltsvEncoder :=
  match f with
  | FString key val => AddString key val enc
  | FBool key val => AddBool key val enc
  | FInt64 key val => AddInt64 key val enc
  | FUint64 key val => AddUint64 key val enc
  | FUintptr key val => AddUintptr key val enc
  | FObject key fields err =>
    fst (AddMarshaler key
           (fun enc => (fold_left (fun e g => addField g e) fields enc, err)) enc)
  end.

Definition addFields (fields : list Field) (enc : ltsvEncoder) : ltsvEncoder :=
  fold_left (fun e g => addField g e) fields enc.

(** The [MarshalLog] of [FObject]. *)
Definition marshalFields (fields : list Field) (err : option error) : LogMarshaler :=
  fun enc => (addFields fields enc, err).

Definition fieldName (f : Field) : bstring :=
  match f with
  | FString key _ | FBool key _ | FInt64 key _ | FUint64 key _ | FUintptr key _
  | FObject key _ _ => key
  end.

(** Parts joined by a separator byte. *)
Definition joinBy (sep : byte) (parts : list bstring) : bstring :=
  match parts with
  | [] => []
  | f :: fs => f ++ flat_map (fun g => sep :: g) fs
  end.

(** The text of a field: in a nested object a JSON member, at the top level
    an LTSV label and value. *)
Definition keyText (nested : bool) (key : bstring) : bstring :=
  if nested then [QUOTE] ++ jsonEscape key ++ [QUOTE; COLON]
  else simpleEscape key ++ [COLON].

Fixpoint valueText (nested : bool) (f : Field) : bstring :=
  match f with
  | FString _ val =>
    if nested then [QUOTE] ++ jsonEscape val ++ [QUOTE] else simpleEscape val
  | FBool _ val => if val then B "true" else B "false"
  | FInt64 _ val | FUint64 _ val => FormatInt10 val
  | FUintptr _ val => B "0x" ++ hexDigits 16 val []
  | FObject _ fields _ =>
    [LBRACE]
      ++ joinBy COMMA (map (fun g => keyText true (fieldName g) ++ valueText true g) fields)
      ++ [RBRACE]
  end.

Definition fieldText (nested : bool) (f : Field) : bstring :=
  keyText nested (fieldName f) ++ valueText nested f.

(** The separator [addKey] writes before a key. *)
Definition separator (nested : bool) (b : bstring) : bstring :=
  if nested then
    match last b with
    | Some c => if Byte.eqb c LBRACE then [] else [COMMA]
    | None => []
    end
  else match b with [] => [] | _ :: _ => [TAB] end.

(** Character classes of the texts the encoder writes. *)
Definition isDigit (b : byte) : bool := (0x30 <=? u8 b) && (u8 b <=? 0x39).

Definition isHexDigit (b : byte) : bool :=
  isDigit b || ((0x61 <=? u8 b) && (u8 b <=? 0x66)).

(** The three bytes the replacer of [ltsvPool.New] rewrites. *)
Definition reserved (b : byte) : bool :=
  Byte.eqb b TAB || Byte.eqb b LF || Byte.eqb b CR.

(** The byte between two fields. *)
Definition separatorByte (nested : bool) : byte := if nested then COMMA else TAB.

(** A line cut at a separator byte, as a reader of LTSV cuts it at tabs
    ([strings.Split] with a separator of one byte): [cut] gives the part
    before the first separator and the parts after it. *)
Fixpoint cut (sep : byte) (s : bstring) : bstring * list bstring :=
  match s with
  | [] => ([], [])
  | b :: s' =>
    let '(part, parts) := cut sep s' in
    if Byte.eqb b sep then ([], part :: parts) else (b :: part, parts)
  end.

Definition splitOn (sep : byte) (s : bstring) : list bstring :=
  fst (cut sep s) :: snd (cut sep s).

(** Fields for the examples: two plain fields and an object holding a
    string and an empty object. *)
Definition janeFields : list Field :=
  [FString (B "user") (B "jane@test.com"); FInt64 (B "visits") 42;
   FObject (B "auth") [FString (B "token") (B "---"); FObject (B "roles") [] None]
           (Some (errForeign (B "can't marshal")))].

(** ** The options of the package, as data *)

Inductive optionSpec :=
| OTimeFormat (layout : bstring)
| ONoTime
| OTimeLabel (label : bstring)
| OLevelLabel (label : bstring)
| ONoLevel
| OMessageLabel (label : bstring).

Definition optionOf (o : optionSpec) : LTSVOption :=
  match o with
  | OTimeFormat layout => LTSVTimeFormat layout
  | ONoTime => LTSVNoTime
  | OTimeLabel label => LTSVTimeLabel label
  | OLevelLabel label => LTSVLevelLabel label
  | ONoLevel => LTSVNoLevel
  | OMessageLabel label => LTSVMessageLabel label
  end.

(** What an option sets, per field of the encoder. *)
Definition timeFmtOf (o : optionSpec) : option bstring :=
  match o with
  | OTimeFormat layout => Some layout
  | ONoTime => Some []
  | _ => None
  end.

Definition timeLabelOf (o : optionSpec) : option bstring :=
  match o with OTimeLabel label => Some label | _ => None end.

Definition levelLabelOf (o : optionSpec) : option bstring :=
  match o with
  | OLevelLabel label => Some label
  | ONoLevel => Some []
  | _ => None
  end.

Definition messageLabelOf (o : optionSpec) : option bstring :=
  match o with OMessageLabel label => Some label | _ => None end.

(** The value the last option that sets a field gives it, [d] when no
    option sets it. *)
Definition lastSet (sel : optionSpec -> option bstring) (os : list optionSpec)
    (d : bstring) : bstring :=
  fold_left (fun d o => match sel o with Some x => x | None => d end) os d.

(** ** Reading numerals back *)

Definition digitVal (b : byte) : option Z :=
  if isDigit b then Some (u8 b - 0x30) else None.

(** The number a string of digits in base [base] stands for, continuing
    from [acc]; [None] when a byte is not a digit. *)
Fixpoint parseFrom (digit : byte -> option Z) (base : Z) (acc : Z) (s : bstring)
  : option Z :=
  match s with
  | [] => Some acc
  | b :: s' =>
    match digit b with
    | Some d => parseFrom digit base (base * acc + d) s'
    | None => None
    end
  end.

(** A hexadecimal numeral of at least one lowercase digit. *)
Definition parseHex (s : bstring) : option Z :=
  match s with
  | [] => None
  | _ :: _ => if forallb isHexDigit s then parseFrom hexVal 16 0 s else None
  end.

(** A decimal numeral: an optional minus sign and at least one digit. *)
Definition parseDecimal (s : bstring) : option Z :=
  match s with
  | [] => None
  | x2d :: ds =>
    match ds with
    | [] => None
    | _ :: _ => Z.opp <$> parseFrom digitVal 10 0 ds
    end
  | _ :: _ => parseFrom digitVal 10 0 s
  end.

(** ** The objects of [cmd/example] *)

(** [Auth] and [User] with their [MarshalLog]; [ExpiresAt] stands for the
    [int64] that [a.ExpiresAt.UnixNano()] returns. *)
Record Auth := mkAuth {
  ExpiresAt : Z;
  Token : bstring
}.

Record User := mkUser {
  Name : bstring;
  Age : Z;
  UserAuth : Auth
}.

Definition Auth_MarshalLog (a : Auth) : LogMarshaler :=
  fun kv =>
    let kv := AddInt64 (B "expires_at") (ExpiresAt a) kv in
    let kv := AddString (B "token") (B "---") kv in
    (kv, None).

Definition User_MarshalLog (u : User) : LogMarshaler :=
  fun kv =>
    let kv := AddString (B "name") (Name u) kv in
    let kv := AddInt (B "age") (Age u) kv in
    AddMarshaler (B "auth") (Auth_MarshalLog (UserAuth u)) kv.

(** The additions [User.MarshalLog] makes. *)
Definition userFields (u : User) : list Field :=
  [FString (B "name") (Name u); FInt64 (B "age") (Age u);
   FObject (B "auth")
     [FInt64 (B "expires_at") (ExpiresAt (UserAuth u)); FString (B "token") (B "---")]
     None].

Definition jane : User :=
  mkUser (B "Jane Doe") 42 (mkAuth 100 (B "super secret")).

(** A sink that reports one byte more than it is given. *)
Definition longSink : Sink := mkSink [] (fun _ p => (Z.of_nat (length p) + 1, None)).

(** * Properties *)

(** ** Small facts on the encoder's fields *)

Lemma bytes_append bs e : bytes (append bs e) = bytes e ++ bs.
Proof. reflexivity. Qed.

Lemma nestedLevel_append bs e : nestedLevel (append bs e) = nestedLevel e.
Proof. reflexivity. Qed.

Lemma replacer_append bs e : replacer (append bs e) = replacer e.
Proof. reflexivity. Qed.

Lemma Byte_eqb_eq (a b : byte) : Byte.eqb a b = true <-> a = b.
Proof.
  split; [apply Byte.byte_dec_bl | apply Byte.byte_dec_lb].
Qed.

Lemma Byte_eqb_neq (a b : byte) : Byte.eqb a b = false <-> a <> b.
Proof.
  rewrite <- Byte_eqb_eq. destruct (Byte.eqb a b); split; congruence.
Qed.

(** ** Simple-mode escaping *)

Lemma replacement_default b :
  match replacement defaultReplacer b with
  | Some n => n
  | None => [b]
  end = simpleEscapeByte b.
Proof. destruct b; reflexivity. Qed.

Lemma Replace_default s : Replace defaultReplacer s = simpleEscape s.
Proof.
  induction s as [|b s IH]; [reflexivity|].
  change (Replace defaultReplacer (b :: s))
    with (match replacement defaultReplacer b with
          | Some n => n
          | None => [b]
          end ++ Replace defaultReplacer s).
  rewrite replacement_default, IH. reflexivity.
Qed.

Lemma simpleEscape_app s1 s2 :
  simpleEscape (s1 ++ s2) = simpleEscape s1 ++ simpleEscape s2.
Proof. unfold simpleEscape. apply flat_map_app. Qed.

Lemma simpleEscapeByte_fixed b :
  simpleEscape (simpleEscapeByte b) = simpleEscapeByte b.
Proof. destruct b; reflexivity. Qed.

Lemma simpleEscape_idempotent s : simpleEscape (simpleEscape s) = simpleEscape s.
Proof.
  induction s as [|b s IH]; [reflexivity|].
  change (simpleEscape (b :: s)) with (simpleEscapeByte b ++ simpleEscape s).
  rewrite simpleEscape_app, IH, simpleEscapeByte_fixed. reflexivity.
Qed.

Lemma simpleEscapeByte_other b :
  b <> TAB -> b <> LF -> b <> CR -> simpleEscapeByte b = [b].
Proof. destruct b; unfold TAB, LF, CR; simpl; congruence. Qed.

(** C2.  With the replacer of [ltsvPool.New], [safeAddString] appends its
    argument with every tab replaced by backslash-t, every newline by
    backslash-n, every carriage return by backslash-r and every other byte
    kept as it is; escaping the result once more changes nothing. *)
Theorem simple_mode_escaping (s : bstring) (enc : ltsvEncoder) :
  let esc := Replace defaultReplacer in
  bytes (safeAddString s (mkEncoder (bytes enc) (timeLabel enc) (timeFmt enc)
           (levelLabel enc) (messageLabel enc) (nestedLevel enc) defaultReplacer))
    = bytes enc ++ esc s
  /\ esc [] = []
  /\ (forall b rest, esc (b :: rest) = simpleEscapeByte b ++ esc rest)
  /\ simpleEscapeByte TAB = [BACKSLASH; "t"%byte]
  /\ simpleEscapeByte LF = [BACKSLASH; "n"%byte]
  /\ simpleEscapeByte CR = [BACKSLASH; "r"%byte]
  /\ (forall b, b <> TAB -> b <> LF -> b <> CR -> simpleEscapeByte b = [b])
  /\ esc (esc s) = esc s.
Proof.
  cbv zeta. repeat split.
  - intros b rest. rewrite !Replace_default. reflexivity.
  - apply simpleEscapeByte_other.
  - rewrite !Replace_default. apply simpleEscape_idempotent.
Qed.

(** ** Running code on the heap *)

Lemma load_run l e w : heap w !! l = Some e -> load l w = Some (e, w).
Proof. unfold load. intros ->. reflexivity. Qed.

Lemma call_run l f e w :
  heap w !! l = Some e -> call l f w = Some (tt, poke l (f e) w).
Proof. unfold call, bind, load, store, poke. intros ->. reflexivity. Qed.

Lemma heap_poke_eq l f w : heap (poke l f w) !! l = Some f.
Proof. unfold poke; simpl. apply lookup_insert_eq. Qed.

Lemma heap_poke_ne l l' f w : l <> l' -> heap (poke l f w) !! l' = heap w !! l'.
Proof. unfold poke; simpl. intros. by apply lookup_insert_ne. Qed.

Lemma poke_poke l f g w : poke l g (poke l f w) = poke l g w.
Proof. unfold poke; simpl. by rewrite insert_insert_eq. Qed.

Lemma pool_poke l f w : pool (poke l f w) = pool w.
Proof. reflexivity. Qed.

Lemma bind_run {A C} (m : M A) (k : A -> M C) w a w' :
  m w = Some (a, w') -> bind m k w = k a w'.
Proof. unfold bind. intros ->. reflexivity. Qed.

(** [ltsvPool.Get] hands out an allocated encoder, which is not any encoder
    that is allocated and outside the pool, and touches no other encoder. *)
Lemma ltsvPool_Get_run pick w :
  poolLive w ->
  exists final f w1,
    ltsvPool_Get pick w = Some (final, w1)
    /\ heap w1 !! final = Some f
    /\ (forall l, l <> final -> heap w1 !! l = heap w !! l)
    /\ (forall l, is_Some (heap w !! l) -> l ∉ pool w -> l <> final)
    /\ (forall l, l ∈ pool w1 -> l ∈ pool w)
    /\ (final ∈ pool w /\ heap w !! final = Some f \/ f = ltsvPool_New).
Proof.
  intros Hlive. unfold ltsvPool_Get.
  destruct (pool w !! pick) as [l|] eqn:Hpick.
  - assert (Hin : l ∈ pool w) by (apply list_elem_of_lookup; eauto).
    destruct (Hlive l Hin) as [f Hf].
    exists l, f, (mkWorld (heap w) (delete pick (pool w))).
    repeat split; simpl; auto.
    + intros l' _ Hout ->. contradiction.
    + intros l' Hl'. eapply list_elem_of_delete_inv, Hl'.
  - set (l := fresh (dom (heap w))).
    assert (Hfresh : heap w !! l = None).
    { apply not_elem_of_dom. apply is_fresh. }
    exists l, ltsvPool_New, (mkWorld (<[l := ltsvPool_New]> (heap w)) (pool w)).
    repeat split; simpl; auto.
    + apply lookup_insert_eq.
    + intros l' Hne. by apply lookup_insert_ne.
    + intros l' [x Hx] _ ->. congruence.
Qed.

Section EntryFacts.
Context `{Host}.

Lemma levelCode_letters :
  levelCode DebugLevel = B "D" /\ levelCode InfoLevel = B "I"
  /\ levelCode WarnLevel = B "W" /\ levelCode ErrorLevel = B "E"
  /\ levelCode PanicLevel = B "P" /\ levelCode FatalLevel = B "F".
Proof.
  pose proof levels_distinct as Hd.
  repeat match type of Hd with
         | NoDup (_ :: _) => apply NoDup_cons in Hd; destruct Hd as [? Hd]
         end.
  unfold levelCode.
  repeat split; repeat case_decide; try reflexivity; set_solver.
Qed.

Lemma levelCode_other lvl :
  lvl ∉ [DebugLevel; InfoLevel; WarnLevel; ErrorLevel; PanicLevel; FatalLevel] ->
  levelCode lvl = FormatInt10 lvl.
Proof.
  intros Hout. unfold levelCode.
  repeat case_decide; try reflexivity; set_solver.
Qed.

Lemma Zeqb_decide {A} (a b : Z) (x y : A) :
  (if a =? b then x else y) = (if decide (a = b) then x else y).
Proof. destruct (Z.eqb_spec a b); case_decide; congruence. Qed.

Lemma addLevel_run enc final lvl e f w :
  heap w !! enc = Some e -> heap w !! final = Some f ->
  addLevel enc final lvl w = Some (tt, poke final (addLevelV e lvl f) w).
Proof.
  intros He Hf. unfold addLevel.
  rewrite (bind_run _ _ _ _ _ (load_run _ _ _ He)).
  rewrite (bind_run _ _ _ _ _ (call_run _ _ _ _ Hf)).
  rewrite !Zeqb_decide.
  assert (Hgoal : call final (append (levelCode lvl))
                    (poke final (addKey (levelLabel e) f) w)
                  = Some (tt, poke final (addLevelV e lvl f) w)).
  { rewrite (call_run _ _ _ _ (heap_poke_eq _ _ _)), poke_poke. reflexivity. }
  unfold levelCode in Hgoal at 1.
  repeat case_decide; exact Hgoal.
Qed.

Lemma addTime_run enc final t e f w :
  heap w !! enc = Some e -> heap w !! final = Some f -> final <> enc ->
  addTime enc final t w = Some (tt, poke final (addTimeV e t f) w).
Proof.
  intros He Hf Hne. unfold addTime, addTimeV.
  rewrite (bind_run _ _ _ _ _ (load_run _ _ _ He)).
  destruct (length (timeFmt e) =? 0)%nat.
  - unfold ret, poke. rewrite insert_id by done. by destruct w.
  - rewrite (bind_run _ _ _ _ _ (load_run _ _ _ He)).
    rewrite (bind_run _ _ _ _ _ (call_run _ _ _ _ Hf)).
    assert (He' : heap (poke final (addKey (timeLabel e) f) w) !! enc = Some e)
      by (rewrite heap_poke_ne; done).
    rewrite (bind_run _ _ _ _ _ (load_run _ _ _ He')).
    rewrite (call_run _ _ _ _ (heap_poke_eq _ _ _)), poke_poke. reflexivity.
Qed.

Lemma addMessage_run enc final msg e f w :
  heap w !! enc = Some e -> heap w !! final = Some f ->
  addMessage enc final msg w = Some (tt, poke final (addMessageV e msg f) w).
Proof.
  intros He Hf. unfold addMessage, addMessageV.
  rewrite (bind_run _ _ _ _ _ (load_run _ _ _ He)).
  rewrite (bind_run _ _ _ _ _ (call_run _ _ _ _ Hf)).
  rewrite (call_run _ _ _ _ (heap_poke_eq _ _ _)), poke_poke. reflexivity.
Qed.

(** [WriteEntry] on a sink that is not nil, once the pool has handed out
    [final]: one call of [Write] with the bytes composed in [final], [final]
    back in the pool, and the error decided by the answer of the sink. *)
Lemma WriteEntry_run enc sk msg lvl t pick e w final f w1 :
  ltsvPool_Get pick w = Some (final, w1) ->
  heap w1 !! enc = Some e -> heap w1 !! final = Some f -> final <> enc ->
  let g := composed e msg lvl t f in
  WriteEntry enc (Some sk) msg lvl t pick w
  = Some ((writeResult (respond sk (calls sk) (bytes g)) (Z.of_nat (length (bytes g))),
           Some (mkSink (calls sk ++ [bytes g]) (respond sk))),
          mkWorld (<[final := g]> (heap w1)) (final :: pool w1)).
Proof.
  intros Hget He Hf Hne g. unfold WriteEntry.
  rewrite (bind_run _ _ _ _ _ Hget).
  rewrite (bind_run _ _ _ _ _ (call_run _ _ _ _ Hf)).
  assert (Hen : forall x w', heap (poke final x w') !! enc = heap w' !! enc)
    by (intros; by apply heap_poke_ne).
  erewrite bind_run;
    [|apply addTime_run; [rewrite Hen; exact He | apply heap_poke_eq | exact Hne]].
  rewrite poke_poke.
  erewrite bind_run;
    [|apply addLevel_run; [rewrite Hen; exact He | apply heap_poke_eq]].
  rewrite poke_poke.
  erewrite bind_run;
    [|apply addMessage_run; [rewrite Hen; exact He | apply heap_poke_eq]].
  rewrite poke_poke.
  erewrite bind_run; [|apply load_run; rewrite Hen; exact He].
  set (f3 := addMessageV e msg (addLevelV e lvl (addTimeV e t (truncate f)))).
  assert (Hfields :
    (if (0 <? length (bytes e))%nat
     then (call final (append [TAB]);;;
           do e0 <- load enc; call final (append (bytes e0)))%go
     else ret tt) (poke final f3 w1)
    = Some (tt, poke final
                  (if (0 <? length (bytes e))%nat
                   then append (bytes e) (append [TAB] f3) else f3) w1)).
  { destruct (0 <? length (bytes e))%nat.
    - rewrite (bind_run _ _ _ _ _ (call_run _ _ _ _ (heap_poke_eq _ _ _))).
      rewrite poke_poke.
      erewrite bind_run; [|apply load_run; rewrite Hen; exact He].
      rewrite (call_run _ _ _ _ (heap_poke_eq _ _ _)), poke_poke. reflexivity.
    - reflexivity. }
  rewrite (bind_run _ _ _ _ _ Hfields).
  rewrite (bind_run _ _ _ _ _ (call_run _ _ _ _ (heap_poke_eq _ _ _))).
  rewrite poke_poke.
  assert (Hg : append [LF] (if (0 <? length (bytes e))%nat
                           then append (bytes e) (append [TAB] f3) else f3) = g)
    by reflexivity.
  rewrite Hg.
  rewrite (bind_run _ _ _ _ _ (load_run _ _ _ (heap_poke_eq _ _ _))).
  unfold sink_Write, writeResult.
  destruct (respond sk (calls sk) (bytes g)) as [n [err|]]; cbn [fst snd].
  - reflexivity.
  - destruct (n =? Z.of_nat (length (bytes g))); reflexivity.
Qed.

End EntryFacts.

(** ** The composed line *)

Lemma nestedLevel_safeAddJSONString s f :
  nestedLevel (safeAddJSONString s f) = nestedLevel f.
Proof. reflexivity. Qed.

Lemma replacer_safeAddJSONString s f : replacer (safeAddJSONString s f) = replacer f.
Proof. reflexivity. Qed.

Lemma nestedLevel_addKey key f : nestedLevel (addKey key f) = nestedLevel f.
Proof.
  unfold addKey. destruct (0 <? nestedLevel f).
  - destruct (_ && _); reflexivity.
  - destruct (0 <? length (bytes f))%nat; reflexivity.
Qed.

Lemma replacer_addKey key f : replacer (addKey key f) = replacer f.
Proof.
  unfold addKey. destruct (0 <? nestedLevel f).
  - destruct (_ && _); reflexivity.
  - destruct (0 <? length (bytes f))%nat; reflexivity.
Qed.

(** At the top level a key is written after a tab, unless it is the first,
    escaped by the replacer and followed by a colon. *)
Lemma bytes_addKey_top key f :
  nestedLevel f = 0 ->
  bytes (addKey key f)
  = bytes f ++ match bytes f with [] => [] | _ :: _ => [TAB] end
      ++ Replace (replacer f) key ++ [COLON].
Proof.
  intros Hn. unfold addKey. rewrite Hn. simpl.
  destruct (bytes f) as [|b bs] eqn:Hb; simpl.
  - unfold safeAddString, append; simpl. rewrite Hb. reflexivity.
  - unfold safeAddString, append; simpl. rewrite Hb. simpl.
    rewrite <- !app_assoc. reflexivity.
Qed.

Section ComposedFacts.
Context `{Host}.

Lemma nestedLevel_composed e msg lvl t f :
  nestedLevel (composed e msg lvl t f) = nestedLevel f.
Proof.
  unfold composed, addMessageV, addLevelV, addTimeV.
  destruct (0 <? length (bytes e))%nat, (length (timeFmt e) =? 0)%nat;
    cbn [append set_bytes safeAddString nestedLevel];
    rewrite ?nestedLevel_addKey; cbn [append set_bytes safeAddString nestedLevel];
    rewrite ?nestedLevel_addKey; cbn [append set_bytes safeAddString nestedLevel];
    rewrite ?nestedLevel_addKey; reflexivity.
Qed.

Lemma replacer_composed e msg lvl t f :
  replacer (composed e msg lvl t f) = replacer f.
Proof.
  unfold composed, addMessageV, addLevelV, addTimeV.
  destruct (0 <? length (bytes e))%nat, (length (timeFmt e) =? 0)%nat;
    cbn [append set_bytes safeAddString replacer];
    rewrite ?replacer_addKey; cbn [append set_bytes safeAddString replacer];
    rewrite ?replacer_addKey; cbn [append set_bytes safeAddString replacer];
    rewrite ?replacer_addKey; reflexivity.
Qed.

Lemma bytes_addTimeV e t f :
  nestedLevel f = 0 -> replacer f = defaultReplacer ->
  bytes (addTimeV e t (truncate f))
  = match timeFmt e with
    | [] => []
    | _ :: _ => simpleEscape (timeLabel e) ++ [COLON] ++ Format t (timeFmt e)
    end
  /\ nestedLevel (addTimeV e t (truncate f)) = 0
  /\ replacer (addTimeV e t (truncate f)) = defaultReplacer.
Proof.
  intros Hn Hr. unfold addTimeV.
  destruct (timeFmt e) as [|c l] eqn:Hfmt; simpl.
  - auto.
  - rewrite nestedLevel_addKey, replacer_addKey. simpl. repeat split; auto.
    unfold AppendFormat. rewrite bytes_addKey_top by exact Hn. simpl.
    rewrite Hr, Replace_default, <- !app_assoc. reflexivity.
Qed.

(** The bytes composed in a pooled encoder at the top level are the line of
    the entry. *)
Lemma bytes_composed e msg lvl t f :
  nestedLevel f = 0 -> replacer f = defaultReplacer ->
  bytes (composed e msg lvl t f) = entryLine e msg lvl t.
Proof.
  intros Hn Hr.
  destruct (bytes_addTimeV e t f Hn Hr) as (Ht & Hn1 & Hr1).
  set (f1 := addTimeV e t (truncate f)) in *.
  assert (Hl : bytes (addLevelV e lvl f1) = timeField e t ++ levelField e lvl).
  { unfold addLevelV, levelField, timeField.
    rewrite bytes_append, bytes_addKey_top by exact Hn1.
    rewrite Hr1, Replace_default, Ht.
    destruct (timeFmt e) as [|c l]; simpl.
    - rewrite <- !app_assoc. reflexivity.
    - destruct (simpleEscape (timeLabel e) ++ COLON :: Format t (c :: l)) eqn:Ha;
        [by destruct (simpleEscape (timeLabel e))|].
      rewrite <- Ha, <- !app_assoc. simpl. rewrite <- !app_assoc. reflexivity. }
  set (f2 := addLevelV e lvl f1) in *.
  assert (Hn2 : nestedLevel f2 = 0)
    by (unfold f2, addLevelV; rewrite nestedLevel_append, nestedLevel_addKey; exact Hn1).
  assert (Hr2 : replacer f2 = defaultReplacer)
    by (unfold f2, addLevelV; rewrite replacer_append, replacer_addKey; exact Hr1).
  assert (Hm : bytes (addMessageV e msg f2)
               = timeField e t ++ levelField e lvl ++ [TAB] ++ messageField e msg).
  { unfold addMessageV, messageField, safeAddString.
    rewrite bytes_append, replacer_addKey, bytes_addKey_top by exact Hn2.
    rewrite Hr2, !Replace_default, Hl.
    destruct (timeField e t ++ levelField e lvl) eqn:Hnil.
    - exfalso. apply app_eq_nil in Hnil as [_ Hnil].
      unfold levelField in Hnil. by destruct (simpleEscape (levelLabel e)).
    - rewrite <- Hnil, <- !app_assoc. reflexivity. }
  unfold composed. fold f1. fold f2.
  remember (addMessageV e msg f2) as f3 eqn:Hf3.
  unfold entryLine, callerFields.
  destruct (bytes e) as [|c l] eqn:Hb; simpl.
  - rewrite Hm, <- !app_assoc. reflexivity.
  - rewrite Hm, <- !app_assoc. reflexivity.
Qed.

End ComposedFacts.

(** ** [WriteEntry] *)

Lemma poolReady_live w : poolReady w -> poolLive w.
Proof. intros Hr l Hl. destruct (Hr l Hl) as (f & -> & _). eauto. Qed.

Section WriteEntryFacts.
Context `{Host}.

(** [WriteEntry] with a sink, from a source encoder that is checked out of
    the pool. *)
Lemma WriteEntry_checked_out enc e sk msg lvl t pick w :
  heap w !! enc = Some e -> enc ∉ pool w -> poolLive w ->
  exists final f w1,
    (final ∈ pool w /\ heap w !! final = Some f \/ f = ltsvPool_New)
    /\ final <> enc
    /\ (forall l, l <> final -> heap w1 !! l = heap w !! l)
    /\ (forall l, l ∈ pool w1 -> l ∈ pool w)
    /\ let g := composed e msg lvl t f in
       WriteEntry enc (Some sk) msg lvl t pick w
       = Some ((writeResult (respond sk (calls sk) (bytes g))
                            (Z.of_nat (length (bytes g))),
                Some (mkSink (calls sk ++ [bytes g]) (respond sk))),
               mkWorld (<[final := g]> (heap w1)) (final :: pool w1)).
Proof.
  intros He Hout Hlive.
  destruct (ltsvPool_Get_run pick w Hlive)
    as (final & f & w1 & Hget & Hf & Hframe & Hfresh & Hpool & Horigin).
  assert (Hne : final <> enc).
  { intros <-. by apply (Hfresh final). }
  exists final, f, w1. repeat split; auto.
  apply WriteEntry_run; auto.
  rewrite Hframe by done. exact He.
Qed.

(** The line handed to the sink, and the pool afterwards. *)
Lemma WriteEntry_hands_over_entryLine enc e sk msg lvl t pick w :
  heap w !! enc = Some e -> enc ∉ pool w -> poolReady w ->
  exists err w',
    WriteEntry enc (Some sk) msg lvl t pick w
    = Some ((err, Some (mkSink (calls sk ++ [entryLine e msg lvl t]) (respond sk))), w')
    /\ poolReady w' /\ heap w' !! enc = Some e /\ enc ∉ pool w'.
Proof.
  intros He Hout Hready.
  destruct (WriteEntry_checked_out enc e sk msg lvl t pick w He Hout
              (poolReady_live w Hready))
    as (final & f & w1 & Horigin & Hne & Hframe & Hpool & Hrun).
  assert (Hf : nestedLevel f = 0 /\ replacer f = defaultReplacer).
  { destruct Horigin as [[Hin Hf] | ->]; [|by split].
    destruct (Hready final Hin) as (f' & Hf' & ? & ?). by simplify_eq. }
  destruct Hf as [Hn Hr].
  cbv zeta in Hrun. rewrite (bytes_composed e msg lvl t f Hn Hr) in Hrun.
  eexists _, _. split; [exact Hrun|]. split_and!.
  - intros l Hl. simpl in Hl |- *. apply elem_of_cons in Hl as [-> | Hl].
    + exists (composed e msg lvl t f). rewrite lookup_insert_eq.
      by rewrite nestedLevel_composed, replacer_composed.
    + destruct (decide (l = final)) as [-> | Hlf].
      * exists (composed e msg lvl t f). rewrite lookup_insert_eq.
        by rewrite nestedLevel_composed, replacer_composed.
      * rewrite lookup_insert_ne by done. rewrite Hframe by done.
        apply Hready, Hpool, Hl.
  - simpl. rewrite lookup_insert_ne by done. rewrite Hframe by done. exact He.
  - simpl. intros Hin. apply elem_of_cons in Hin as [-> | Hin]; [done|].
    apply Hout, Hpool, Hin.
Qed.

(** C1.  With a sink that is not nil, [WriteEntry] hands the sink one line:
    the time field and a tab, left out altogether when the time layout is
    empty; the level field, whose value is the letter D, I, W, E, P or F of
    the level, or its decimal value for any other level; a tab and the message
    field with the message simple-mode escaped; a tab and the bytes of the
    source encoder as they are, exactly when it has any; and one newline.
    The source encoder is checked out of the pool, whose encoders are as
    [ltsvPool.New] and a completed [AddMarshaler] leave them. *)
Theorem WriteEntry_writes_the_entry_line enc e sk msg lvl t pick w :
  heap w !! enc = Some e -> enc ∉ pool w -> poolReady w ->
  let time := match timeFmt e with
              | [] => []
              | _ :: _ =>
                simpleEscape (timeLabel e) ++ [COLON] ++ Format t (timeFmt e) ++ [TAB]
              end in
  let fields := match bytes e with
                | [] => []
                | _ :: _ => TAB :: bytes e
                end in
  let line := time ++ (simpleEscape (levelLabel e) ++ [COLON] ++ levelCode lvl)
                ++ [TAB]
                ++ (simpleEscape (messageLabel e) ++ [COLON] ++ simpleEscape msg)
                ++ fields ++ [LF] in
  (exists err w',
      WriteEntry enc (Some sk) msg lvl t pick w
      = Some ((err, Some (mkSink (calls sk ++ [line]) (respond sk))), w')
      /\ poolReady w')
  /\ levelCode DebugLevel = B "D" /\ levelCode InfoLevel = B "I"
  /\ levelCode WarnLevel = B "W" /\ levelCode ErrorLevel = B "E"
  /\ levelCode PanicLevel = B "P" /\ levelCode FatalLevel = B "F"
  /\ (lvl ∉ [DebugLevel; InfoLevel; WarnLevel; ErrorLevel; PanicLevel; FatalLevel] ->
      levelCode lvl = FormatInt10 lvl).
Proof.
  intros He Hout Hready time fields line.
  split; [|split_and!; try apply levelCode_letters; apply levelCode_other].
  destruct (WriteEntry_hands_over_entryLine enc e sk msg lvl t pick w He Hout Hready)
    as (err & w' & Hrun & Hready' & _).
  exists err, w'. split; [|exact Hready'].
  rewrite Hrun. unfold entryLine, timeField, levelField, messageField, callerFields.
  subst line time fields. reflexivity.
Qed.

(** C6.  With a nil sink [WriteEntry] returns [errNilSink] at once: there is
    no sink to call, no encoder is taken from the pool and the heap is as it
    was, whatever the source encoder, the message, the level and the time. *)
Theorem WriteEntry_nil_sink enc msg lvl t pick w :
  WriteEntry enc None msg lvl t pick w = Some ((Some errNilSink, None), w).
Proof. reflexivity. Qed.

(** C7.  With a sink, [WriteEntry] calls [Write] once, with the bytes
    composed in the encoder [final] taken from the pool.  When the sink
    returns an error, [WriteEntry] returns that error; when it returns none
    but a count below the length of the line, [WriteEntry] returns the error
    of an incomplete write, which is neither [errNilSink] nor an error of the
    sink; when the count is the length, it returns nil.  In each case
    [final] is in the pool afterwards. *)
Theorem WriteEntry_one_write_and_its_errors enc e sk msg lvl t pick w :
  heap w !! enc = Some e -> enc ∉ pool w -> poolLive w ->
  exists final g err w',
    WriteEntry enc (Some sk) msg lvl t pick w
    = Some ((err, Some (mkSink (calls sk ++ [bytes g]) (respond sk))), w')
    /\ heap w' !! final = Some g
    /\ final ∈ pool w'
    /\ (forall n sinkErr,
          respond sk (calls sk) (bytes g) = (n, Some sinkErr) -> err = Some sinkErr)
    /\ (forall n,
          respond sk (calls sk) (bytes g) = (n, None) ->
          n < Z.of_nat (length (bytes g)) ->
          err = Some (errIncompleteWrite n (Z.of_nat (length (bytes g)))))
    /\ (forall n,
          respond sk (calls sk) (bytes g) = (n, None) ->
          n = Z.of_nat (length (bytes g)) -> err = None)
    /\ (forall n m msg', errIncompleteWrite n m <> errNilSink
                         /\ errIncompleteWrite n m <> errForeign msg').
Proof.
  intros He Hout Hlive.
  destruct (WriteEntry_checked_out enc e sk msg lvl t pick w He Hout Hlive)
    as (final & f & w1 & _ & Hne & Hframe & Hpool & Hrun).
  cbv zeta in Hrun. remember (composed e msg lvl t f) as g eqn:Hg.
  exists final, g. eexists _, _.
  split; [exact Hrun|]. simpl.
  split; [apply lookup_insert_eq|].
  split; [apply elem_of_cons; by left|].
  unfold writeResult. split_and!.
  - intros n sinkErr ->. reflexivity.
  - intros n -> Hlt. simpl.
    destruct (Z.eqb_spec n (Z.of_nat (length (bytes g))));
      [exfalso; lia | reflexivity].
  - intros n -> ->. simpl. rewrite Z.eqb_refl. reflexivity.
  - intros n m msg'. split; discriminate.
Qed.

(** C10.  [WriteEntry] leaves the source encoder as it was: after the call,
    with a sink or with a nil sink, the encoder at [enc] has the same bytes,
    labels, time layout, nesting depth and replacer as before.  The source
    encoder is checked out of the pool, so that the encoder the line is
    composed in is another one. *)
Theorem WriteEntry_keeps_the_source enc e sink msg lvl t pick w :
  heap w !! enc = Some e -> enc ∉ pool w -> poolLive w ->
  exists r w',
    WriteEntry enc sink msg lvl t pick w = Some (r, w')
    /\ heap w' !! enc = Some e.
Proof.
  intros He Hout Hlive. destruct sink as [sk|].
  - destruct (WriteEntry_checked_out enc e sk msg lvl t pick w He Hout Hlive)
      as (final & f & w1 & _ & Hne & Hframe & Hpool & Hrun).
    cbv zeta in Hrun. eexists _, _. split; [exact Hrun|]. simpl.
    rewrite lookup_insert_ne by done. rewrite Hframe by done. exact He.
  - eexists _, _. split; [reflexivity | exact He].
Qed.

(** The same fields can be written again: two entries in a row from the
    same source encoder carry its fields both times. *)
Lemma WriteEntry_twice enc e sk msg1 lvl1 t1 pick1 msg2 lvl2 t2 pick2 w :
  heap w !! enc = Some e -> enc ∉ pool w -> poolReady w ->
  exists err1 sk1 w1 err2 w2,
    WriteEntry enc (Some sk) msg1 lvl1 t1 pick1 w = Some ((err1, Some sk1), w1)
    /\ WriteEntry enc (Some sk1) msg2 lvl2 t2 pick2 w1
       = Some ((err2, Some (mkSink (calls sk ++ [entryLine e msg1 lvl1 t1;
                                                 entryLine e msg2 lvl2 t2])
                                   (respond sk))), w2).
Proof.
  intros He Hout Hready.
  destruct (WriteEntry_hands_over_entryLine enc e sk msg1 lvl1 t1 pick1 w He Hout Hready)
    as (err1 & w1 & Hrun1 & Hready1 & He1 & Hout1).
  destruct (WriteEntry_hands_over_entryLine enc e
              (mkSink (calls sk ++ [entryLine e msg1 lvl1 t1]) (respond sk))
              msg2 lvl2 t2 pick2 w1 He1 Hout1 Hready1)
    as (err2 & w2 & Hrun2 & _).
  eexists _, _, _, _, _. split; [exact Hrun1|].
  rewrite Hrun2. cbn [calls respond]. by rewrite <- app_assoc.
Qed.

End WriteEntryFacts.

(** ** Empty labels *)

Lemma demoWorld_ready e : poolReady (demoWorld e).
Proof.
  intros l Hl. apply list_elem_of_singleton in Hl as ->.
  exists usedEncoder. split_and!; reflexivity.
Defined.

Lemma demoWorld_checked_out e : 1%positive ∉ pool (demoWorld e).
Proof. intros Hin. apply list_elem_of_singleton in Hin. discriminate. Defined.

Lemma demoWorld_source e : heap (demoWorld e) !! 1%positive = Some e.
Proof. reflexivity. Defined.

(** C5, as the specification states it, fails.  With time and level
    suppressed by [LTSVNoTime] and [LTSVNoLevel] and the one field
    user=alice, the line written is not user:alice and a newline: the message
    field is there, and so is the level.  And with an empty message label
    the message field is written all the same, where the line that leaves out
    the fields with an empty label has none. *)
Lemma empty_labels_are_not_omitted :
  let claimed := B "user:alice" ++ [LF] in
  let written := B ":I" ++ [TAB] ++ B "msg:" ++ [TAB] ++ B "user:alice" ++ [LF] in
  let e := LTSVMessageLabel [] (LTSVTimeLabel [] (LTSVNoTime ltsvPool_New)) in
  let written' := B "level:I" ++ [TAB] ++ B ":hello" ++ [LF] in
  (fst <$> WriteEntry 1%positive (Some okSink) [] InfoLevel tt 0
             (demoWorld aliceNoLevelEncoder)
   = Some (None, Some (mkSink [written] (respond okSink))))
  /\ written <> claimed
  /\ (fst <$> WriteEntry 1%positive (Some okSink) (B "hello") InfoLevel tt 0
                (demoWorld e)
      = Some (None, Some (mkSink [written'] (respond okSink))))
  /\ lineOmittingEmptyLabels e (B "hello") InfoLevel tt = B "level:I" ++ [LF]
  /\ written' <> lineOmittingEmptyLabels e (B "hello") InfoLevel tt.
Proof.
  cbv zeta. split_and!; try (vm_compute; reflexivity); vm_compute; discriminate.
Qed.

Section EmptyLabels.
Context `{Host}.

(** C5, amended.  The time field is left out of the line, with its
    separator, exactly when the time layout is empty; with a layout it is
    written, also under an empty label.  The message field is always written,
    as its escaped label, a colon and the escaped message, also under an
    empty label.  With an empty layout, the labels level and msg, level Info,
    an empty message and the one field user=alice, the line is
    level:I, msg: and user:alice separated by tabs, and a newline.  (For a
    level label that is not empty.) *)
Theorem WriteEntry_omits_time_by_layout enc e sk msg lvl t pick w :
  heap w !! enc = Some e -> enc ∉ pool w -> poolReady w -> levelLabel e <> [] ->
  exists line err w',
    WriteEntry enc (Some sk) msg lvl t pick w
    = Some ((err, Some (mkSink (calls sk ++ [line]) (respond sk))), w')
    /\ let rest := (simpleEscape (levelLabel e) ++ [COLON] ++ levelCode lvl)
                     ++ [TAB]
                     ++ (simpleEscape (messageLabel e) ++ [COLON] ++ simpleEscape msg)
                     ++ callerFields e ++ [LF] in
       (timeFmt e = [] -> line = rest)
       /\ (timeFmt e <> [] ->
           line = simpleEscape (timeLabel e) ++ [COLON] ++ Format t (timeFmt e)
                    ++ [TAB] ++ rest)
       /\ (timeFmt e = [] -> levelLabel e = B "level" -> messageLabel e = B "msg" ->
           lvl = InfoLevel -> msg = [] -> bytes e = B "user:alice" ->
           line = B "level:I" ++ [TAB] ++ B "msg:" ++ [TAB] ++ B "user:alice" ++ [LF]).
Proof.
  intros He Hout Hready _.
  destruct (WriteEntry_hands_over_entryLine enc e sk msg lvl t pick w He Hout Hready)
    as (err & w' & Hrun & _).
  exists (entryLine e msg lvl t), err, w'. split; [exact Hrun|].
  unfold entryLine, timeField, levelField, messageField.
  split_and!.
  - intros ->. reflexivity.
  - intros Hfmt. destruct (timeFmt e); [done|]. rewrite <- !app_assoc. reflexivity.
  - intros -> -> -> -> -> Hb. unfold callerFields. rewrite Hb.
    destruct levelCode_letters as (_ & -> & _). reflexivity.
Qed.

End EmptyLabels.

(** The theorems on [WriteEntry] at work: the encoder with user=alice is
    checked out at address 1, the pool holds a used encoder, and the host is
    [demoHost], where 42 is none of the six levels. *)
Lemma WriteEntry_writes_the_entry_line_witness :
  heap (demoWorld aliceEncoder) !! 1%positive = Some aliceEncoder
  /\ (1%positive ∉ pool (demoWorld aliceEncoder))
  /\ poolReady (demoWorld aliceEncoder)
  /\ exists err w',
      WriteEntry (H := demoHost) 1%positive (Some okSink) (B "hello") 42 tt 0 (demoWorld aliceEncoder)
      = Some ((err, Some (mkSink [B "level:42" ++ [TAB] ++ B "msg:hello" ++ [TAB]
                                    ++ B "user:alice" ++ [LF]]
                                 (respond okSink))), w').
Proof.
  split_and!;
    [apply demoWorld_source | apply demoWorld_checked_out | apply demoWorld_ready |].
  destruct (WriteEntry_writes_the_entry_line (H := demoHost) 1%positive aliceEncoder okSink (B "hello")
              42 tt 0 (demoWorld aliceEncoder) (demoWorld_source _)
              (demoWorld_checked_out _) (demoWorld_ready _))
    as [(err & w' & Hrun & _) _].
  exists err, w'. exact Hrun.
Defined.

Lemma WriteEntry_omits_time_by_layout_witness :
  heap (demoWorld aliceEncoder) !! 1%positive = Some aliceEncoder
  /\ (1%positive ∉ pool (demoWorld aliceEncoder))
  /\ poolReady (demoWorld aliceEncoder)
  /\ levelLabel aliceEncoder <> []
  /\ exists err w',
      WriteEntry (H := demoHost) 1%positive (Some okSink) [] InfoLevel tt 0 (demoWorld aliceEncoder)
      = Some ((err, Some (mkSink [B "level:I" ++ [TAB] ++ B "msg:" ++ [TAB]
                                    ++ B "user:alice" ++ [LF]]
                                 (respond okSink))), w').
Proof.
  assert (Hlabel : levelLabel aliceEncoder <> []) by discriminate.
  split_and!;
    [apply demoWorld_source | apply demoWorld_checked_out | apply demoWorld_ready
    | exact Hlabel |].
  destruct (WriteEntry_omits_time_by_layout (H := demoHost) 1%positive aliceEncoder okSink []
              InfoLevel tt 0 (demoWorld aliceEncoder) (demoWorld_source _)
              (demoWorld_checked_out _) (demoWorld_ready _) Hlabel)
    as (line & err & w' & Hrun & _ & _ & Hline).
  exists err, w'.
  rewrite (Hline eq_refl eq_refl eq_refl eq_refl eq_refl eq_refl) in Hrun.
  exact Hrun.
Defined.

Lemma WriteEntry_one_write_and_its_errors_witness :
  heap (demoWorld aliceEncoder) !! 1%positive = Some aliceEncoder
  /\ (1%positive ∉ pool (demoWorld aliceEncoder))
  /\ poolLive (demoWorld aliceEncoder)
  /\ exists final g w',
      WriteEntry (H := demoHost) 1%positive (Some shortSink) (B "hello") InfoLevel tt 0
        (demoWorld aliceEncoder)
      = Some ((Some (errIncompleteWrite (Z.of_nat (length (bytes g)) - 1)
                                        (Z.of_nat (length (bytes g)))),
               Some (mkSink [bytes g] (respond shortSink))), w')
      /\ heap w' !! final = Some g
      /\ final ∈ pool w'.
Proof.
  pose proof (poolReady_live _ (demoWorld_ready aliceEncoder)) as Hlive.
  split_and!;
    [apply demoWorld_source | apply demoWorld_checked_out | exact Hlive |].
  destruct (WriteEntry_one_write_and_its_errors (H := demoHost) 1%positive
              aliceEncoder shortSink
              (B "hello") InfoLevel tt 0 (demoWorld aliceEncoder) (demoWorld_source _)
              (demoWorld_checked_out _) Hlive)
    as (final & g & err & w' & Hrun & Hg & Hin & _ & Hshort & _).
  exists final, g, w'. split_and!; [|exact Hg|exact Hin].
  rewrite Hrun.
  rewrite (Hshort (Z.of_nat (length (bytes g)) - 1) eq_refl); [reflexivity|lia].
Defined.

Lemma WriteEntry_keeps_the_source_witness :
  heap (demoWorld aliceEncoder) !! 1%positive = Some aliceEncoder
  /\ (1%positive ∉ pool (demoWorld aliceEncoder))
  /\ poolLive (demoWorld aliceEncoder)
  /\ exists r w',
      WriteEntry (H := demoHost) 1%positive (Some failSink) (B "hello") InfoLevel tt 0
        (demoWorld aliceEncoder) = Some (r, w')
      /\ heap w' !! 1%positive = Some aliceEncoder.
Proof.
  pose proof (poolReady_live _ (demoWorld_ready aliceEncoder)) as Hlive.
  split_and!;
    [apply demoWorld_source | apply demoWorld_checked_out | exact Hlive |].
  exact (WriteEntry_keeps_the_source (H := demoHost) 1%positive aliceEncoder (Some failSink)
           (B "hello") InfoLevel tt 0 (demoWorld aliceEncoder) (demoWorld_source _)
           (demoWorld_checked_out _) Hlive).
Defined.

(** ** [unicode/utf8] *)

Lemma first_cases b :
  utf8.first b ∈ [utf8.as_; utf8.xx; utf8.s1; utf8.s2; utf8.s3; utf8.s4;
                  utf8.s5; utf8.s6; utf8.s7].
Proof.
  unfold utf8.first. cbv zeta. repeat case_match; set_solver.
Qed.

(** The cases of the first byte of [b0 :: _] in a hypothesis [H] on
    [DecodeRuneInString]. *)
Ltac first_byte_cases b0 H :=
  let Hx := fresh "Hx" in
  pose proof (first_cases b0) as Hx;
  repeat (apply elem_of_cons in Hx as [Hx | Hx]); [..|by apply elem_of_nil in Hx];
  unfold utf8.as_, utf8.xx, utf8.s1, utf8.s2, utf8.s3, utf8.s4, utf8.s5,
         utf8.s6, utf8.s7 in Hx;
  rewrite Hx in H; cbn in H.

(** A rune is at least one byte wide and lies within the string. *)
Lemma DecodeRuneInString_size s c size :
  utf8.DecodeRuneInString s = (c, size) -> s <> [] ->
  (1 <= size <= length s)%nat.
Proof.
  intros Hd Hs. destruct s as [|b0 rest]; [done|].
  unfold utf8.DecodeRuneInString in Hd.
  first_byte_cases b0 Hd.
  all: repeat case_match; simplify_eq; simpl in *; try lia.
  all: repeat match goal with
              | H : (_ <=? _)%nat = false |- _ => apply Nat.leb_gt in H
              end; simpl in *; try lia.
Qed.

(** A rune that decodes is decoded from its own bytes alone. *)
Lemma DecodeRuneInString_prefix s t c size :
  utf8.DecodeRuneInString s = (c, size) ->
  ((c =? utf8.RuneError) && (size =? 1)%nat) = false ->
  s <> [] ->
  utf8.DecodeRuneInString (take size s ++ t) = (c, size).
Proof.
  intros Hd Hv Hs. destruct s as [|b0 rest]; [done|].
  unfold utf8.DecodeRuneInString in Hd.
  first_byte_cases b0 Hd.
  all: destruct rest as [|b1 [|b2 [|b3 rest]]]; cbn in Hd.
  all: repeat case_match; simplify_eq; try done.
  all: cbn [firstn app]; unfold utf8.DecodeRuneInString; rewrite Hx; cbn.
  all: repeat match goal with H : _ = false |- _ => rewrite H end; try reflexivity.
Qed.

(** ** JSON-mode escaping, chunk by chunk *)

Lemma jsonLoop_step fuel b rest buf :
  jsonLoop (S fuel) (b :: rest) buf
  = jsonLoop fuel (drop (snd (jsonChunk (b :: rest))) (b :: rest))
             (buf ++ fst (jsonChunk (b :: rest))).
Proof.
  unfold jsonChunk, asciiChunk. cbn [jsonLoop].
  destruct (u8 b <? utf8.RuneSelf).
  - repeat case_match; cbn [fst snd drop]; rewrite <- ?app_assoc; reflexivity.
  - destruct (utf8.DecodeRuneInString (b :: rest)) as [c size].
    destruct ((c =? utf8.RuneError) && (size =? 1)%nat); reflexivity.
Qed.

Lemma jsonChunk_size s :
  s <> [] -> (1 <= snd (jsonChunk s) <= length s)%nat.
Proof.
  intros Hs. destruct s as [|b rest]; [done|]. unfold jsonChunk.
  destruct (u8 b <? utf8.RuneSelf); [simpl; lia|].
  destruct (utf8.DecodeRuneInString (b :: rest)) as [c size] eqn:Hd.
  destruct ((c =? utf8.RuneError) && (size =? 1)%nat); [simpl; lia|].
  apply (DecodeRuneInString_size _ _ _ Hd). done.
Qed.

Lemma jsonLoop_nil fuel buf : jsonLoop fuel [] buf = buf.
Proof. destruct fuel; reflexivity. Qed.

(** With fuel for every byte, the loop appends [jsonEscape s]. *)
Lemma jsonLoop_app s : forall fuel buf,
  (length s <= fuel)%nat -> jsonLoop fuel s buf = buf ++ jsonEscape s.
Proof.
  induction s as [s IH] using (induction_ltof1 _ (@length byte)).
  unfold ltof in IH. intros fuel buf Hfuel.
  destruct s as [|b rest].
  - rewrite jsonLoop_nil. unfold jsonEscape. simpl. by rewrite app_nil_r.
  - destruct fuel as [|fuel]; [simpl in Hfuel; lia|].
    pose proof (jsonChunk_size (b :: rest) ltac:(done)) as Hk.
    unfold jsonEscape. cbn [length]. rewrite !jsonLoop_step.
    set (k := snd (jsonChunk (b :: rest))) in *.
    assert (Hlen : (length (drop k (b :: rest)) < length (b :: rest))%nat)
      by (rewrite length_drop; lia).
    rewrite (IH _ Hlen fuel) by (simpl in *; lia).
    rewrite (IH _ Hlen (length rest)) by (simpl in *; lia).
    rewrite app_nil_l, app_assoc. reflexivity.
Qed.

Lemma bytes_safeAddJSONString s enc :
  bytes (safeAddJSONString s enc) = bytes enc ++ jsonEscape s.
Proof. unfold safeAddJSONString. simpl. by apply jsonLoop_app. Qed.

Lemma jsonEscape_nil : jsonEscape [] = [].
Proof. reflexivity. Qed.

Lemma jsonEscape_step s :
  s <> [] ->
  jsonEscape s = fst (jsonChunk s) ++ jsonEscape (drop (snd (jsonChunk s)) s).
Proof.
  intros Hs. destruct s as [|b rest]; [done|].
  pose proof (jsonChunk_size (b :: rest) Hs) as Hk.
  unfold jsonEscape at 1. cbn [length]. rewrite jsonLoop_step.
  rewrite jsonLoop_app by (rewrite length_drop; simpl in *; lia).
  reflexivity.
Qed.

(** ** Braces *)

Lemma countByte_app c s1 s2 : countByte c (s1 ++ s2) = countByte c s1 + countByte c s2.
Proof. induction s1 as [|b s1 IH]; simpl; [reflexivity | rewrite IH; lia]. Qed.

Lemma countByte_cons c b s :
  countByte c (b :: s) = (if Byte.eqb b c then 1 else 0) + countByte c s.
Proof. reflexivity. Qed.

Lemma countByte_notin c s : c ∉ s -> countByte c s = 0.
Proof.
  induction s as [|b s IH]; [reflexivity|]. intros Hc.
  apply not_elem_of_cons in Hc as [Hne Hc]. rewrite countByte_cons, IH by done.
  destruct (Byte.eqb b c) eqn:Hb; [|reflexivity].
  apply Byte_eqb_eq in Hb. congruence.
Qed.

Lemma braceDepth_app s1 s2 : braceDepth (s1 ++ s2) = braceDepth s1 + braceDepth s2.
Proof. unfold braceDepth. rewrite !countByte_app. lia. Qed.

Lemma braceDepth_free s : braceFree s -> braceDepth s = 0.
Proof. intros [Hl Hr]. unfold braceDepth. by rewrite !countByte_notin. Qed.

Lemma braceDepth_simpleEscapeByte b : braceDepth (simpleEscapeByte b) = braceDepth [b].
Proof. destruct b; reflexivity. Qed.

Lemma braceDepth_simpleEscape s : braceDepth (simpleEscape s) = braceDepth s.
Proof.
  induction s as [|b s IH]; [reflexivity|].
  change (simpleEscape (b :: s)) with (simpleEscapeByte b ++ simpleEscape s).
  change (b :: s) with ([b] ++ s).
  rewrite !braceDepth_app, IH, braceDepth_simpleEscapeByte. reflexivity.
Qed.

Lemma braceDepth_asciiChunk b :
  (u8 b <? utf8.RuneSelf) = true -> braceDepth (asciiChunk b) = braceDepth [b].
Proof. destruct b; intros Hb; try discriminate Hb; reflexivity. Qed.

Lemma braceDepth_high b :
  (u8 b <? utf8.RuneSelf) = false -> braceDepth [b] = 0.
Proof. destruct b; intros Hb; try discriminate Hb; reflexivity. Qed.

(** A chunk of the JSON escaper has the braces of the bytes it stands for. *)
Lemma braceDepth_jsonChunk s :
  braceDepth (fst (jsonChunk s)) = braceDepth (take (snd (jsonChunk s)) s).
Proof.
  destruct s as [|b rest]; [reflexivity|]. unfold jsonChunk.
  destruct (u8 b <? utf8.RuneSelf) eqn:Hb.
  - simpl. rewrite take_0. by apply braceDepth_asciiChunk.
  - destruct (utf8.DecodeRuneInString (b :: rest)) as [c size].
    destruct ((c =? utf8.RuneError) && (size =? 1)%nat); [|reflexivity].
    simpl. rewrite take_0. symmetry. by apply braceDepth_high.
Qed.

Lemma braceDepth_jsonEscape s : braceDepth (jsonEscape s) = braceDepth s.
Proof.
  induction s as [s IH] using (induction_ltof1 _ (@length byte)).
  unfold ltof in IH. destruct s as [|b rest]; [reflexivity|].
  pose proof (jsonChunk_size (b :: rest) ltac:(done)) as Hk.
  rewrite jsonEscape_step by done.
  rewrite braceDepth_app, braceDepth_jsonChunk, IH
    by (rewrite length_drop; simpl in *; lia).
  rewrite <- braceDepth_app, take_drop. reflexivity.
Qed.

(** A key adds the braces it holds itself, at the top level and nested. *)
Lemma braceDepth_addKey key enc :
  replacer enc = defaultReplacer ->
  braceDepth (bytes (addKey key enc)) = braceDepth (bytes enc) + braceDepth key.
Proof.
  intros Hr. unfold addKey. destruct (0 <? nestedLevel enc).
  - rewrite bytes_append, bytes_safeAddJSONString, bytes_append.
    rewrite !braceDepth_app, braceDepth_jsonEscape.
    destruct (_ && _); rewrite ?bytes_append, ?braceDepth_app;
      change (braceDepth [COMMA]) with 0; change (braceDepth [QUOTE]) with 0;
      change (braceDepth [QUOTE; COLON]) with 0; lia.
  - rewrite bytes_append. unfold safeAddString. rewrite bytes_append.
    rewrite !braceDepth_app.
    destruct (0 <? length (bytes enc))%nat;
      rewrite ?replacer_append, ?bytes_append, ?braceDepth_app, Hr,
        Replace_default, braceDepth_simpleEscape;
      change (braceDepth [TAB]) with 0; change (braceDepth [COLON]) with 0; lia.
Qed.

(** [AddMarshaler] step by step, for any key and any callback. *)
Lemma AddMarshaler_steps key obj enc :
  let opened := append [LBRACE]
                  (set_nestedLevel (addKey key enc) (nestedLevel (addKey key enc) + 1)) in
  let after := obj opened in
  AddMarshaler key obj enc
  = (set_nestedLevel (append [RBRACE] (fst after))
                     (nestedLevel (append [RBRACE] (fst after)) - 1),
     snd after).
Proof.
  cbv zeta. unfold AddMarshaler.
  destruct (obj _) as [body err]. reflexivity.
Qed.

(** The braces [AddMarshaler] writes itself are a pair: around a callback
    that keeps the braces, the excess of opening braces grows by that of the
    key, whatever the key and whether or not the callback returns an error. *)
Lemma AddMarshaler_braces key obj enc :
  replacer enc = defaultReplacer -> keepsBraces obj ->
  braceDepth (bytes (fst (AddMarshaler key obj enc)))
  = braceDepth (bytes enc) + braceDepth key
  /\ replacer (fst (AddMarshaler key obj enc)) = defaultReplacer.
Proof.
  intros Hr Hobj. rewrite AddMarshaler_steps. cbv zeta. cbn [fst].
  set (opened := append [LBRACE] _).
  assert (Hro : replacer opened = defaultReplacer).
  { unfold opened. rewrite replacer_append. cbn [set_nestedLevel replacer].
    by rewrite replacer_addKey. }
  destruct (Hobj opened Hro) as [Hdepth Hrepl].
  split; [|exact Hrepl].
  cbn [set_nestedLevel bytes]. rewrite bytes_append, braceDepth_app, Hdepth.
  unfold opened. rewrite bytes_append. cbn [set_nestedLevel bytes].
  rewrite braceDepth_app, (braceDepth_addKey _ _ Hr).
  change (braceDepth [LBRACE]) with 1. change (braceDepth [RBRACE]) with (-1). lia.
Qed.

Lemma AddMarshaler_keeps_braces key obj :
  braceFree key -> keepsBraces obj -> keepsBraces (AddMarshaler key obj).
Proof.
  intros Hkey Hobj enc Hr.
  destruct (AddMarshaler_braces key obj enc Hr Hobj) as [Hd Hrepl].
  split; [|exact Hrepl]. rewrite Hd, (braceDepth_free _ Hkey). lia.
Qed.

Lemma nestedAdditions_keep_braces obj : nestedAdditions obj -> keepsBraces obj.
Proof.
  induction 1 as [err | key obj rest Hkey Hobj IHobj Hrest IHrest].
  - intros enc Hr. by split.
  - intros enc Hr.
    destruct (AddMarshaler_keeps_braces key obj Hkey IHobj enc Hr) as [Hd Hrepl].
    destruct (AddMarshaler key obj enc) as [enc' err]. cbn [fst] in *.
    destruct (IHrest err enc' Hrepl) as [Hd' Hrepl'].
    split; [lia | exact Hrepl'].
Qed.

(** C4, as the specification states it, fails: a key may hold a brace, and
    keys are not escaped for braces.  Adding an empty nested object under the
    key made of an opening brace leaves two opening braces and one closing
    brace in the buffer. *)
Lemma brace_in_key_unbalances :
  let r := AddMarshaler [LBRACE] (fun enc => (enc, None)) ltsvPool_New in
  bytes (fst r) = [LBRACE; COLON; LBRACE; RBRACE]
  /\ countByte LBRACE (bytes (fst r)) = 2
  /\ countByte RBRACE (bytes (fst r)) = 1
  /\ braceDepth (bytes (fst r)) <> braceDepth (bytes ltsvPool_New).
Proof. cbv zeta. split_and!; try reflexivity. vm_compute. discriminate. Qed.

(** C4, amended.  For every key and every callback, [AddMarshaler] writes
    the key, raises the nesting depth by one, appends an opening brace, runs
    the callback on that encoder, appends a closing brace to what the callback
    left, lowers the nesting depth by one and returns the error of the
    callback; the closing brace is appended whether or not the callback
    returns an error.  When the key holds no brace, the encoder has the
    replacer of [ltsvPool.New] and the callback is any sequence of
    nested-object additions under keys without braces, the buffer has as many
    more opening than closing braces afterwards as it had before.  In
    general, around a callback that keeps the braces, the excess changes by
    that of the key. *)
Theorem AddMarshaler_closes_its_brace key obj enc :
  let keyed := addKey key enc in
  let opened := append [LBRACE] (set_nestedLevel keyed (nestedLevel keyed + 1)) in
  let body := fst (obj opened) in
  let result := AddMarshaler key obj enc in
  bytes opened = bytes keyed ++ [LBRACE]
  /\ nestedLevel opened = nestedLevel enc + 1
  /\ bytes (fst result) = bytes body ++ [RBRACE]
  /\ nestedLevel (fst result) = nestedLevel body - 1
  /\ snd result = snd (obj opened)
  /\ (braceFree key -> replacer enc = defaultReplacer -> nestedAdditions obj ->
      braceDepth (bytes (fst result)) = braceDepth (bytes enc))
  /\ (replacer enc = defaultReplacer -> keepsBraces obj ->
      braceDepth (bytes (fst result)) = braceDepth (bytes enc) + braceDepth key).
Proof.
  cbv zeta. rewrite AddMarshaler_steps. cbv zeta. cbn [fst snd].
  split_and!; try reflexivity.
  - cbn [append set_bytes set_nestedLevel nestedLevel].
    by rewrite nestedLevel_addKey.
  - intros Hkey Hr Hobj.
    pose proof (AddMarshaler_keeps_braces key obj Hkey
                  (nestedAdditions_keep_braces obj Hobj) enc Hr) as [Hd _].
    rewrite AddMarshaler_steps in Hd. exact Hd.
  - intros Hr Hobj.
    pose proof (AddMarshaler_braces key obj enc Hr Hobj) as [Hd _].
    rewrite AddMarshaler_steps in Hd. exact Hd.
Qed.

(** The amended C4 on the failing callback of the tests: under the key k
    the buffer reads k:{} and the error of the callback is returned. *)
Lemma AddMarshaler_closes_its_brace_witness :
  braceFree (B "k")
  /\ replacer ltsvPool_New = defaultReplacer
  /\ nestedAdditions (loggable false)
  /\ bytes (fst (AddMarshaler (B "k") (loggable false) ltsvPool_New))
     = B "k:" ++ [LBRACE; RBRACE]
  /\ snd (AddMarshaler (B "k") (loggable false) ltsvPool_New)
     = Some (errForeign (B "can't marshal"))
  /\ braceDepth (bytes (fst (AddMarshaler (B "k") (loggable false) ltsvPool_New)))
     = braceDepth (bytes ltsvPool_New).
Proof.
  assert (Hkey : braceFree (B "k")).
  { split; intros Hin; apply list_elem_of_singleton in Hin; discriminate. }
  assert (Hobj : nestedAdditions (loggable false))
    by exact (nested_return (Some (errForeign (B "can't marshal")))).
  split_and!; [exact Hkey | reflexivity | exact Hobj | reflexivity | reflexivity |].
  exact (proj1 (proj2 (proj2 (proj2 (proj2 (proj2
           (AddMarshaler_closes_its_brace (B "k") (loggable false) ltsvPool_New))))))
           Hkey eq_refl Hobj).
Defined.

(** ** Unescaping what the JSON escaper wrote *)

Lemma unquoteLoop_fuel s : forall f1 f2,
  (length s <= f1)%nat -> (length s <= f2)%nat ->
  unquoteLoop f1 s = unquoteLoop f2 s.
Proof.
  induction s as [s IH] using (induction_ltof1 _ (@length byte)).
  unfold ltof in IH. intros f1 f2 H1 H2.
  destruct s as [|b rest]; [destruct f1, f2; reflexivity|].
  destruct f1 as [|f1]; [simpl in H1; lia|].
  destruct f2 as [|f2]; [simpl in H2; lia|].
  cbn [unquoteLoop].
  assert (Hrec : forall x, (length x <= length rest)%nat ->
                           unquoteLoop f1 x = unquoteLoop f2 x).
  { intros x Hx. apply IH; simpl in *; lia. }
  assert (Hdrop : forall k (x : bstring), (length (drop k x) <= length x)%nat)
    by (intros; rewrite length_drop; lia).
  destruct (Byte.eqb b BACKSLASH).
  - destruct rest as [|c rest']; [reflexivity|].
    destruct (Byte.eqb c "u"%byte).
    + destruct (getu4 (b :: c :: rest')); [|reflexivity].
      assert (H6 : (length (drop 6 (b :: c :: rest')) <= length (c :: rest'))%nat)
        by (rewrite length_drop; simpl; lia).
      repeat case_match; try reflexivity; f_equal; apply Hrec; try exact H6.
      etransitivity; [apply Hdrop | exact H6].
    + destruct (shortEscape c); [|reflexivity].
      f_equal. apply Hrec. simpl. lia.
  - destruct (_ || _); [reflexivity|].
    destruct (u8 b <? utf8.RuneSelf); [f_equal; by apply Hrec|].
    destruct (utf8.DecodeRuneInString (b :: rest)) as [c size] eqn:Hd.
    pose proof (DecodeRuneInString_size _ _ _ Hd ltac:(done)) as Hsize.
    destruct (_ && _); f_equal; apply Hrec; [lia|].
    rewrite length_drop. simpl in *. lia.
Qed.

Lemma replaceInvalidLoop_fuel s : forall f1 f2,
  (length s <= f1)%nat -> (length s <= f2)%nat ->
  replaceInvalidLoop f1 s = replaceInvalidLoop f2 s.
Proof.
  induction s as [s IH] using (induction_ltof1 _ (@length byte)).
  unfold ltof in IH. intros f1 f2 H1 H2.
  destruct s as [|b rest]; [destruct f1, f2; reflexivity|].
  destruct f1 as [|f1]; [simpl in H1; lia|].
  destruct f2 as [|f2]; [simpl in H2; lia|].
  cbn [replaceInvalidLoop].
  destruct (utf8.DecodeRuneInString (b :: rest)) as [c size] eqn:Hd.
  pose proof (DecodeRuneInString_size _ _ _ Hd ltac:(done)) as Hsize.
  destruct (_ && _); f_equal; apply IH; try (simpl in *; lia);
    rewrite length_drop; simpl in *; lia.
Qed.

Lemma validChunk_size s :
  s <> [] -> (1 <= snd (validChunk s) <= length s)%nat.
Proof.
  intros Hs. unfold validChunk.
  destruct (utf8.DecodeRuneInString s) as [c size] eqn:Hd.
  pose proof (DecodeRuneInString_size _ _ _ Hd Hs) as Hsize.
  destruct (_ && _); simpl; [destruct s; simpl in *; [done | lia] | exact Hsize].
Qed.

Lemma replaceInvalid_step s :
  s <> [] ->
  replaceInvalid s
  = fst (validChunk s) ++ replaceInvalid (drop (snd (validChunk s)) s).
Proof.
  intros Hs. pose proof (validChunk_size s Hs) as Hk.
  destruct s as [|b rest]; [done|].
  unfold validChunk in *. unfold replaceInvalid at 1. cbn [length replaceInvalidLoop].
  destruct (utf8.DecodeRuneInString (b :: rest)) as [c size].
  destruct (_ && _); cbn [fst snd] in *; f_equal; unfold replaceInvalid;
    apply replaceInvalidLoop_fuel; rewrite ?length_drop; simpl in *; lia.
Qed.

Lemma DecodeRuneInString_ascii b rest :
  (u8 b <? utf8.RuneSelf) = true ->
  utf8.DecodeRuneInString (b :: rest) = (u8 b, 1%nat)
  /\ (u8 b =? utf8.RuneError) = false.
Proof. destruct b; intros Hb; try discriminate Hb; split; reflexivity. Qed.

(** The steps of the escaper and of the replacement of invalid bytes consume
    the same bytes. *)
Lemma validChunk_jsonChunk s : snd (validChunk s) = snd (jsonChunk s) \/ s = [].
Proof.
  destruct s as [|b rest]; [by right|left]. unfold validChunk, jsonChunk.
  destruct (u8 b <? utf8.RuneSelf) eqn:Hb.
  - destruct (DecodeRuneInString_ascii b rest Hb) as [-> ->]. reflexivity.
  - destruct (utf8.DecodeRuneInString (b :: rest)) as [c size].
    destruct (_ && _); reflexivity.
Qed.

Lemma high_byte_tests b :
  (u8 b <? utf8.RuneSelf) = false ->
  Byte.eqb b BACKSLASH = false /\ Byte.eqb b QUOTE = false
  /\ (u8 b <? 0x20) = false.
Proof. destruct b; intros Hb; try discriminate Hb; split_and!; reflexivity. Qed.

(** One step of [unquoteLoop], by the shape of the input. *)
Lemma unquoteLoop_plain fuel fuel' b t :
  Byte.eqb b BACKSLASH = false -> Byte.eqb b QUOTE = false ->
  (u8 b <? 0x20) = false -> (u8 b <? utf8.RuneSelf) = true ->
  (length t <= fuel)%nat -> (length t <= fuel')%nat ->
  unquoteLoop (S fuel) (b :: t) = cons b <$> unquoteLoop fuel' t.
Proof.
  intros Hbs Hq Hc Ha Hf Hf'. cbn [unquoteLoop]. rewrite Hbs, Hq, Hc, Ha.
  cbn [orb]. f_equal. by apply unquoteLoop_fuel.
Qed.

Lemma unquoteLoop_short fuel fuel' c d t :
  Byte.eqb c "u"%byte = false -> shortEscape c = Some d ->
  (length t <= fuel)%nat -> (length t <= fuel')%nat ->
  unquoteLoop (S fuel) (BACKSLASH :: c :: t) = cons d <$> unquoteLoop fuel' t.
Proof.
  intros Hu Hd Hf Hf'. cbn [unquoteLoop].
  change (Byte.eqb BACKSLASH BACKSLASH) with true. cbv iota.
  rewrite Hu, Hd. f_equal. by apply unquoteLoop_fuel.
Qed.

Lemma unquoteLoop_u4 fuel fuel' h1 h2 h3 h4 rr t :
  getu4 [BACKSLASH; "u"%byte; h1; h2; h3; h4] = Some rr ->
  ((0xD800 <=? rr) && (rr <? 0xE000)) = false ->
  (length t <= fuel)%nat -> (length t <= fuel')%nat ->
  unquoteLoop (S fuel) ([BACKSLASH; "u"%byte; h1; h2; h3; h4] ++ t)
  = app (utf8.EncodeRune rr) <$> unquoteLoop fuel' t.
Proof.
  intros Hg Hs Hf Hf'. cbn [unquoteLoop app].
  change (Byte.eqb BACKSLASH BACKSLASH) with true.
  change (Byte.eqb "u"%byte "u"%byte) with true. cbv iota.
  change (getu4 (BACKSLASH :: "u"%byte :: h1 :: h2 :: h3 :: h4 :: t))
    with (getu4 [BACKSLASH; "u"%byte; h1; h2; h3; h4]).
  rewrite Hg, Hs. cbn [drop]. f_equal. by apply unquoteLoop_fuel.
Qed.

(** Unescaping the chunk of an ASCII byte gives the byte back. *)
Lemma unquoteLoop_asciiChunk b t n :
  (u8 b <? utf8.RuneSelf) = true -> (length t <= n)%nat ->
  unquoteLoop (6 + n) (asciiChunk b ++ t) = cons b <$> unquoteLoop n t.
Proof.
  intros Hb Hn. change (6 + n)%nat with (S (5 + n)).
  destruct b; try discriminate Hb;
    match goal with
    | |- context [asciiChunk ?x] =>
      let c := eval vm_compute in (asciiChunk x) in change (asciiChunk x) with c
    end;
    first
      [ apply unquoteLoop_plain; first [reflexivity | lia]
      | apply unquoteLoop_short; first [reflexivity | lia]
      | match goal with
        | |- _ = cons ?x <$> _ =>
          apply (unquoteLoop_u4 (5 + n) n _ _ _ _ (u8 x) t);
          first [reflexivity | lia]
        end ].
Qed.

(** Unescaping a chunk of the escaper gives the bytes the chunk stands for,
    with the replacement character for a byte that does not decode. *)
Lemma jsonUnquote_chunk s t :
  s <> [] ->
  jsonUnquote (fst (jsonChunk s) ++ t) = app (fst (validChunk s)) <$> jsonUnquote t.
Proof.
  intros Hs. destruct s as [|b rest]; [done|].
  unfold jsonUnquote, jsonChunk, validChunk.
  destruct (u8 b <? utf8.RuneSelf) eqn:Hb.
  - destruct (DecodeRuneInString_ascii b rest Hb) as [-> ->]. cbn [andb fst take].
    rewrite take_0.
    rewrite (unquoteLoop_fuel _ _ (6 + length t))
      by (rewrite ?length_app; destruct b; try discriminate Hb; simpl; lia).
    by apply unquoteLoop_asciiChunk.
  - destruct (utf8.DecodeRuneInString (b :: rest)) as [c size] eqn:Hd.
    pose proof (DecodeRuneInString_size _ _ _ Hd ltac:(done)) as Hsize.
    destruct ((c =? utf8.RuneError) && (size =? 1)%nat) eqn:Hv; cbn [fst].
    + rewrite (unquoteLoop_fuel _ _ (S (5 + length t)))
        by (rewrite ?length_app; simpl; lia).
      apply (unquoteLoop_u4 _ _ _ _ _ _ utf8.RuneError t); first [reflexivity | lia].
    + pose proof (DecodeRuneInString_prefix _ t _ _ Hd Hv ltac:(done)) as Hp.
      destruct (high_byte_tests b Hb) as (Hbs & Hq & Hc).
      assert (Hlen : length (take size (b :: rest)) = size)
        by (rewrite length_take; lia).
      destruct size as [|size]; [lia|].
      rewrite length_app. cbn [firstn app length Nat.add] in *.
      cbn [unquoteLoop]. rewrite Hbs, Hq, Hc, Hb, Hp, Hv. cbn [orb].
      assert (Hl : length (take size rest) = size) by lia.
      cbn [firstn drop skipn].
      rewrite (take_app_length' _ _ _ (eq_sym Hl)), (drop_app_length' _ _ _ (eq_sym Hl)).
      rewrite (unquoteLoop_fuel t _ (length t)) by lia.
      reflexivity.
Qed.

Lemma EncodeRune_RuneError : utf8.EncodeRune utf8.RuneError = [xef; xbf; xbd].
Proof. reflexivity. Qed.

(** The round trip: unescaping the escaped form of [s] gives [s] with the
    bytes that do not decode replaced. *)
Lemma jsonUnquote_jsonEscape s : jsonUnquote (jsonEscape s) = Some (replaceInvalid s).
Proof.
  induction s as [s IH] using (induction_ltof1 _ (@length byte)).
  unfold ltof in IH. destruct s as [|b rest]; [reflexivity|].
  pose proof (jsonChunk_size (b :: rest) ltac:(done)) as Hk.
  rewrite jsonEscape_step, jsonUnquote_chunk by done.
  rewrite IH by (rewrite length_drop; simpl in *; lia).
  rewrite (replaceInvalid_step (b :: rest)) by done.
  destruct (validChunk_jsonChunk (b :: rest)) as [-> | ?]; [reflexivity | done].
Qed.

Lemma replaceInvalidLoop_valid fuel : forall s,
  validLoop fuel s = true -> replaceInvalidLoop fuel s = s.
Proof.
  induction fuel as [|fuel IH]; intros s Hv.
  - destruct s; [reflexivity | discriminate].
  - destruct s as [|b rest]; [reflexivity|]. cbn [validLoop replaceInvalidLoop] in *.
    destruct (utf8.DecodeRuneInString (b :: rest)) as [c size].
    destruct (_ && _); [discriminate|].
    rewrite (IH _ Hv). apply take_drop.
Qed.

(** C3.  Escaping [s] in JSON mode and unescaping the result as a JSON
    string gives [s] back, except that every byte at which UTF-8 decoding
    fails has become the replacement character U+FFFD; in particular a string
    of valid UTF-8 comes back unchanged.  At a byte that does not decode the
    escaper writes backslash-ufffd and goes on with the next byte. *)
Theorem json_escape_round_trip (s : bstring) (enc : ltsvEncoder) :
  bytes (safeAddJSONString s enc) = bytes enc ++ jsonEscape s
  /\ jsonUnquote (jsonEscape s) = Some (replaceInvalid s)
  /\ (ValidString s = true -> jsonUnquote (jsonEscape s) = Some s)
  /\ (forall b rest,
        (u8 b <? utf8.RuneSelf) = false ->
        utf8.DecodeRuneInString (b :: rest) = (utf8.RuneError, 1%nat) ->
        jsonEscape (b :: rest)
        = [BACKSLASH; "u"%byte; "f"%byte; "f"%byte; "f"%byte; "d"%byte]
            ++ jsonEscape rest
        /\ replaceInvalid (b :: rest)
           = utf8.EncodeRune utf8.RuneError ++ replaceInvalid rest)
  /\ (forall b rest size c,
        utf8.DecodeRuneInString (b :: rest) = (c, size) ->
        ((c =? utf8.RuneError) && (size =? 1)%nat) = false ->
        replaceInvalid (b :: rest)
        = take size (b :: rest) ++ replaceInvalid (drop size (b :: rest))).
Proof.
  split_and!.
  - apply bytes_safeAddJSONString.
  - apply jsonUnquote_jsonEscape.
  - intros Hv. rewrite jsonUnquote_jsonEscape. f_equal.
    by apply replaceInvalidLoop_valid.
  - intros b rest Hb Hd. split.
    + rewrite jsonEscape_step by done. unfold jsonChunk. rewrite Hb, Hd. reflexivity.
    + rewrite replaceInvalid_step by done. unfold validChunk. rewrite Hd. reflexivity.
  - intros b rest size c Hd Hv.
    rewrite replaceInvalid_step by done. unfold validChunk. rewrite Hd, Hv.
    reflexivity.
Qed.

(** A string of valid UTF-8 with a control character, a three-byte rune, a
    quote, a backslash and a newline comes back from the round trip. *)
Lemma json_escape_round_trip_witness :
  let s := [x01; xe3; x81; x82; QUOTE; BACKSLASH; LF; "z"%byte] in
  ValidString s = true /\ jsonUnquote (jsonEscape s) = Some s.
Proof.
  cbv zeta. split; [reflexivity|].
  apply (json_escape_round_trip _ ltsvPool_New). reflexivity.
Defined.

(** ** The stack flattener *)

Lemma length_buf st : length (buf st) = (length (arr st) - off st)%nat.
Proof. unfold buf. apply length_drop. Qed.

Lemma length_arr_appendP cap xs st : length (arr (appendP cap xs st)) = length (arr st).
Proof.
  unfold appendP. destruct (_ && _); [|reflexivity]. simpl.
  apply length_inserts.
Qed.

Lemma off_appendP cap xs st : off (appendP cap xs st) = off st.
Proof. unfold appendP. destruct (_ && _); reflexivity. Qed.

Lemma length_buf_appendP cap xs st : length (buf (appendP cap xs st)) = length (buf st).
Proof. by rewrite !length_buf, length_arr_appendP, off_appendP. Qed.

Lemma length_buf_advance n st :
  length (buf (advance n st)) = (length (buf st) - n)%nat.
Proof. rewrite !length_buf. simpl. lia. Qed.

(** The second loop ends before its fuel does: [formatStacktraceInOneLine]
    returns on every input. *)
Lemma frames_returns cap fuel : forall st,
  (length (buf st) < fuel)%nat -> is_Some (frames cap fuel st).
Proof.
  induction fuel as [|fuel IH]; intros st Hfuel; [lia|].
  cbn [frames]. destruct (0 <? length (buf st))%nat eqn:Hlen; [|eauto].
  destruct (IndexByte _ _) as [i|]; [|eauto].
  destruct (length _ <? i + 2)%nat eqn:Hi; [eauto|].
  destruct (IndexByte _ _) as [j|]; [|eauto].
  destruct (length _ <? j + 1)%nat eqn:Hj; [eauto|].
  apply IH.
  apply Nat.ltb_ge in Hi, Hj. apply Nat.ltb_lt in Hlen.
  repeat (rewrite ?length_buf_appendP, ?length_buf_advance in Hi, Hj).
  destruct (0 <? length _)%nat;
    repeat (rewrite ?length_buf_appendP, ?length_buf_advance); lia.
Qed.

Lemma length_buf_skipLines n : forall st st',
  skipLines n st = inr st' -> (length (buf st') <= length (buf st))%nat.
Proof.
  induction n as [|n IH]; intros st st' Hskip; simpl in Hskip.
  - by simplify_eq.
  - destruct (IndexByte _ _) as [i|]; [|done].
    destruct (_ <? _)%nat; [done|].
    apply IH in Hskip. rewrite length_buf_advance in Hskip. lia.
Qed.

Lemma formatStacktraceInOneLine_returns spare skip s :
  is_Some (formatStacktraceInOneLine spare skip s).
Proof.
  unfold formatStacktraceInOneLine.
  destruct (skipLines _ _) as [st|st] eqn:Hskip; [eauto|].
  apply frames_returns. apply length_buf_skipLines in Hskip.
  rewrite (length_buf (mkStack _ _ _ _)) in Hskip. simpl in Hskip. lia.
Qed.

(** The flattener of the specification, [flattenSpec], writes its output
    to storage of its own, and the code is that flattener as long as its
    output slice does not share the array of its input: from a state in which
    [p] has an array of its own, the second loop computes [framesSpec]. *)
Lemma buffer_too_small_unshared cap st :
  shared st = false ->
  buffer_too_small cap st = tooSmallSpec (p st) (buf st).
Proof.
  intros Hs. unfold buffer_too_small, tooSmallSpec, appendP.
  rewrite Hs. simpl. by rewrite <- app_assoc.
Qed.

Lemma appendP_unshared cap xs st :
  shared st = false ->
  appendP cap xs st = mkStack (arr st) (off st) (p st ++ xs) false.
Proof. intros Hs. unfold appendP. by rewrite Hs. Qed.

Lemma IndexByte_lt (x : bstring) c k : IndexByte x c = Some k -> (k < length x)%nat.
Proof.
  revert k. induction x as [|d x IHx]; intros k Hk; simpl in Hk; [done|].
  destruct (Byte.eqb d c); [simplify_eq; simpl; lia|].
  destruct (IndexByte x c) as [k'|] eqn:Hk'; [|done].
  simpl in Hk. simplify_eq. specialize (IHx k' eq_refl). simpl. lia.
Qed.

Lemma buf_unshared a o q : buf (mkStack a o q false) = drop o a.
Proof. reflexivity. Qed.

Lemma framesSpec_step fuel s out :
  s <> [] ->
  framesSpec (S fuel) s out
  = let out := out ++ ["["%byte] in
    match IndexByte s LF with
    | None => tooSmallSpec out s
    | Some i =>
      let out := out ++ take i s ++ [" "%byte] in
      if (length s <? i + 2)%nat then tooSmallSpec out s
      else
        let s := drop (i + 2) s in
        match IndexByte s LF with
        | None => tooSmallSpec out s
        | Some j =>
          let out := out ++ take j s ++ ["]"%byte] in
          let s := drop (j + 1) s in
          framesSpec fuel s (match s with [] => out | _ => out ++ [","%byte] end)
        end
    end.
Proof. destruct s; [done | reflexivity]. Qed.

Lemma frames_unshared cap fuel : forall a o q,
  (length (drop o a) < fuel)%nat ->
  frames cap fuel (mkStack a o q false) = Some (framesSpec fuel (drop o a) q).
Proof.
  induction fuel as [|fuel IH]; intros a o q Hfuel; [lia|].
  destruct (decide (drop o a = [])) as [Hnil | Hne].
  { cbn [frames framesSpec]. rewrite buf_unshared, Hnil. reflexivity. }
  rewrite framesSpec_step by exact Hne. cbn [frames].
  rewrite !appendP_unshared by reflexivity. cbn [arr off p shared].
  rewrite !buf_unshared.
  rewrite (proj2 (Nat.ltb_lt 0 (length (drop o a))))
    by (destruct (drop o a); simpl; [done | lia]).
  destruct (IndexByte (drop o a) LF) as [i|] eqn:Hi;
    [|by rewrite buffer_too_small_unshared].
  rewrite !appendP_unshared by reflexivity. cbn [arr off p shared].
  rewrite !buf_unshared.
  destruct (length (drop o a) <? i + 2)%nat eqn:Hi2.
  { rewrite buffer_too_small_unshared by reflexivity. cbn [p].
    rewrite buf_unshared. by rewrite <- !app_assoc. }
  unfold advance. cbn [arr off p shared]. rewrite !buf_unshared.
  rewrite <- !(drop_drop a (i + 2) o).
  set (s2 := drop (i + 2) (drop o a)) in *.
  destruct (IndexByte s2 LF) as [j|] eqn:Hj.
  2:{ rewrite buffer_too_small_unshared by reflexivity. cbn [p].
      rewrite buf_unshared, <- (drop_drop a (i + 2) o). fold s2.
      by rewrite <- !app_assoc. }
  rewrite !appendP_unshared by reflexivity. cbn [arr off p shared].
  rewrite !buf_unshared, <- !(drop_drop a (i + 2) o). fold s2.
  pose proof (IndexByte_lt _ _ _ Hj) as Hjlt.
  destruct (length s2 <? j + 1)%nat eqn:Hj1; [exfalso; apply Nat.ltb_lt in Hj1; lia|].
  rewrite <- !(drop_drop a (j + 1) (o + (i + 2))), <- !(drop_drop a (i + 2) o).
  fold s2.
  assert (Hlen3 : (length (drop (j + 1) s2) < fuel)%nat).
  { apply Nat.ltb_ge in Hi2. unfold s2. rewrite !length_drop.
    rewrite length_drop in Hfuel, Hi2. lia. }
  assert (Hs3 : drop (o + (i + 2) + (j + 1)) a = drop (j + 1) s2).
  { unfold s2. rewrite !drop_drop. f_equal. lia. }
  destruct (drop (j + 1) s2) as [|b3 rest3] eqn:Hd3.
  - cbn [length Nat.ltb Nat.leb].
    rewrite (IH a (o + (i + 2) + (j + 1))%nat) by (rewrite Hs3; exact Hlen3).
    rewrite Hs3. by rewrite <- !app_assoc.
  - cbn [length Nat.ltb Nat.leb].
    rewrite (IH a (o + (i + 2) + (j + 1))%nat) by (rewrite Hs3; exact Hlen3).
    rewrite Hs3. by rewrite <- !app_assoc.
Qed.

(** The first loop reads and never writes: it is [skipSpec], shared array or
    not. *)
Lemma skipLines_skipSpec n : forall a o q sh,
  match skipLines n (mkStack a o q sh) with
  | inl st => skipSpec n (drop o a) = inl (buf st)
              /\ st = mkStack a (off st) q sh
  | inr st => skipSpec n (drop o a) = inr (buf st)
              /\ st = mkStack a (off st) q sh
  end.
Proof.
  induction n as [|n IH]; intros a o q sh; cbn [skipLines skipSpec].
  - by split.
  - change (buf (mkStack a o q sh)) with (drop o a).
    destruct (IndexByte (drop o a) LF) as [i|] eqn:Hi; [|by split].
    pose proof (IndexByte_lt _ _ _ Hi) as Hlt.
    destruct (length (drop o a) <? i + 1)%nat eqn:Hi1;
      [exfalso; apply Nat.ltb_lt in Hi1; lia|].
    unfold advance. cbn [arr off p shared].
    specialize (IH a (o + (i + 1))%nat q sh).
    rewrite <- (drop_drop a (i + 1) o) in IH. exact IH.
Qed.

Lemma wrapInt_small z : - 2 ^ 63 <= z < 2 ^ 63 -> wrapInt z = z.
Proof. intros Hz. unfold wrapInt. rewrite Z.mod_small; lia. Qed.

(** The code with its output in an array of its own is [flattenSpec]. *)
Lemma unshared_flattener_is_flattenSpec cap skip s :
  0 <= skip < 2 ^ 61 ->
  match skipLines (Z.to_nat (wrapInt (1 + wrapInt (2 * skip)))) (mkStack s 0 [] false) with
  | inl st => Some (buffer_too_small cap st)
  | inr st => frames cap (S (length s)) st
  end = Some (flattenSpec skip s).
Proof.
  intros Hskip. rewrite !wrapInt_small by (rewrite ?wrapInt_small; lia).
  unfold flattenSpec.
  pose proof (skipLines_skipSpec (Z.to_nat (1 + 2 * skip)) s 0 [] false) as Hsk.
  rewrite drop_0 in Hsk.
  destruct (skipLines _ _) as [st|st] eqn:Hrun; destruct Hsk as [-> Hst].
  - rewrite Hst. by rewrite buffer_too_small_unshared.
  - apply length_buf_skipLines in Hrun.
    rewrite (length_buf (mkStack _ _ _ _)) in Hrun. simpl in Hrun.
    rewrite Hst in *. rewrite frames_unshared by (rewrite buf_unshared in Hrun; lia).
    rewrite buf_unshared. f_equal.
    clear Hst. revert Hrun. rewrite buf_unshared.
    generalize (drop (off st) s). intros r Hr.
    (* the fuel of [framesSpec] beyond the length of its input is not used *)
    assert (Hfuel : forall f1 f2 (x out : bstring),
               (length x < f1)%nat -> (length x <= f2)%nat ->
               framesSpec f1 x out = framesSpec f2 x out).
    { induction f1 as [|f1 IHf]; intros f2 x out H1 H2; [lia|].
      destruct x as [|c x]; [destruct f2; reflexivity|].
      destruct f2 as [|f2]; [simpl in H2; lia|].
      rewrite !framesSpec_step by done. cbv zeta.
      destruct (IndexByte (c :: x) LF) as [i|]; [|reflexivity].
      destruct (_ <? _)%nat eqn:Hi; [reflexivity|]. apply Nat.ltb_ge in Hi.
      destruct (IndexByte _ _) as [j|]; [|reflexivity].
      apply IHf; rewrite !length_drop; simpl in *; lia. }
    apply Hfuel; lia.
Qed.

(** ** Complete traces *)

Lemma IndexByte_app (d rest : bstring) c :
  c ∉ d -> IndexByte (d ++ c :: rest) c = Some (length d).
Proof.
  induction d as [|x d IH]; intros Hc; simpl.
  - assert (Byte.eqb c c = true) as -> by (by apply Byte_eqb_eq). reflexivity.
  - apply not_elem_of_cons in Hc as [Hne Hc].
    assert (Byte.eqb x c = false) as -> by (apply Byte_eqb_neq; congruence).
    rewrite (IH Hc). reflexivity.
Qed.

Lemma traceBody_cons f fs :
  traceBody (f :: fs)
  = description f ++ LF :: indent f :: location f ++ LF :: traceBody fs.
Proof.
  unfold traceBody. cbn [map concat]. unfold frameBytes.
  rewrite <- !app_assoc. reflexivity.
Qed.

Lemma traceBody_nil_iff fs : traceBody fs = [] <-> fs = [].
Proof.
  split; [|by intros ->]. destruct fs as [|f fs]; [done|].
  rewrite traceBody_cons. by destruct (description f).
Qed.

Lemma flatAll_cons f fs :
  flatAll (f :: fs)
  = flatOne f ++ match traceBody fs with [] => [] | _ :: _ => ","%byte :: flatAll fs end.
Proof.
  cbn [flatAll]. destruct fs as [|g fs]; [reflexivity|].
  rewrite traceBody_cons. by destruct (description g).
Qed.

(** The flattener of the specification on a complete trace: the frames in
    brackets, joined by commas. *)
Lemma framesSpec_complete fs : forall fuel out,
  Forall frameOK fs -> (length fs <= fuel)%nat ->
  framesSpec fuel (traceBody fs) out = out ++ flatAll fs.
Proof.
  induction fs as [|f fs IH]; intros fuel out Hok Hfuel.
  - destruct fuel; simpl; by rewrite app_nil_r.
  - destruct fuel as [|fuel]; [simpl in Hfuel; lia|].
    apply Forall_cons in Hok as [[Hd Hl] Hok].
    rewrite framesSpec_step by (rewrite traceBody_nil_iff; done).
    cbv zeta. rewrite traceBody_cons.
    rewrite (IndexByte_app _ _ _ Hd).
    rewrite take_app_length.
    destruct (length _ <? _)%nat eqn:Hlen.
    { apply Nat.ltb_lt in Hlen. rewrite length_app in Hlen. simpl in Hlen. lia. }
    replace (drop (length (description f) + 2)
               (description f ++ LF :: indent f :: location f ++ LF :: traceBody fs))
      with (location f ++ LF :: traceBody fs).
    2:{ rewrite drop_app_add'; reflexivity. }
    rewrite (IndexByte_app _ _ _ Hl), take_app_length.
    replace (drop (length (location f) + 1) (location f ++ LF :: traceBody fs))
      with (traceBody fs) by (rewrite drop_app_add'; reflexivity).
    rewrite IH by (simpl in Hfuel; done || lia).
    rewrite flatAll_cons. unfold flatOne.
    destruct (traceBody fs) as [|b rest] eqn:Hbody.
    + apply traceBody_nil_iff in Hbody. subst fs.
      rewrite <- !app_assoc. reflexivity.
    + rewrite <- !app_assoc. reflexivity.
Qed.

Lemma skipSpec_lines ls : forall rest,
  Forall (fun l => LF ∉ l) ls ->
  skipSpec (length ls) (linesBytes ls ++ rest) = inr rest.
Proof.
  induction ls as [|l ls IH]; intros rest Hok; [reflexivity|].
  apply Forall_cons in Hok as [Hl Hok].
  unfold linesBytes. cbn [map concat length skipSpec].
  rewrite <- !app_assoc. cbn [app].
  rewrite (IndexByte_app _ _ _ Hl).
  rewrite drop_app_add' by reflexivity. cbn [drop]. by apply IH.
Qed.

Lemma flattenSpec_complete skip ls fs :
  0 <= skip -> length ls = Z.to_nat (1 + 2 * skip) ->
  Forall (fun l => LF ∉ l) ls -> Forall frameOK fs ->
  flattenSpec skip (linesBytes ls ++ traceBody fs) = flatAll fs.
Proof.
  intros Hskip Hlen Hls Hfs. unfold flattenSpec.
  rewrite <- Hlen, skipSpec_lines by done.
  rewrite framesSpec_complete; [reflexivity | done |].
  rewrite length_app.
  assert (Hbody : (length fs <= length (traceBody fs))%nat).
  { clear. induction fs as [|f fs IH]; [simpl; lia|].
    rewrite traceBody_cons. rewrite length_app. cbn [length].
    rewrite length_app. cbn [length]. lia. }
  lia.
Qed.

(** ** The code on complete traces *)

Lemma drop_list_inserts (l xs : bstring) i n :
  (i + length xs <= n)%nat -> drop n (list_inserts i xs l) = drop n l.
Proof.
  intros Hn. apply list_eq. intros j. rewrite !lookup_drop.
  apply list_lookup_inserts_ge. lia.
Qed.

Lemma buf_advance n st : buf (advance n st) = drop n (buf st).
Proof. unfold buf, advance. simpl. by rewrite drop_drop. Qed.

(** An [append] to [p] leaves the unread bytes from the [k]-th on as they
    are when it ends before them. *)
Lemma appendP_spec cap xs st k :
  (shared st = true -> (length (p st) + length xs <= off st + k)%nat) ->
  p (appendP cap xs st) = p st ++ xs
  /\ off (appendP cap xs st) = off st
  /\ drop k (buf (appendP cap xs st)) = drop k (buf st)
  /\ (shared (appendP cap xs st) = true -> shared st = true).
Proof.
  intros Hroom. unfold appendP.
  destruct (shared st) eqn:Hs; cbn [andb].
  - destruct (_ <=? _)%nat; cbn [p off shared]; split_and!; try done.
    unfold buf. cbn [arr off]. rewrite !drop_drop.
    apply drop_list_inserts. by apply Hroom.
  - split_and!; done.
Qed.

(** From the head of the second loop, on the frames [fs] still unread, with
    the output at least [length fs] bytes behind the input as long as the two
    share an array: the loop writes the frames as the specification has
    them. *)
Lemma frames_complete cap fs : forall fuel st,
  buf st = traceBody fs -> Forall frameOK fs -> (length fs < fuel)%nat ->
  (shared st = true -> (length (p st) + length fs <= off st)%nat) ->
  frames cap fuel st = Some (p st ++ flatAll fs).
Proof.
  induction fs as [|f fs IH]; intros fuel st Hbuf Hok Hfuel Hroom.
  - destruct fuel as [|fuel]; [lia|]. cbn [frames]. rewrite Hbuf. simpl.
    by rewrite app_nil_r.
  - destruct fuel as [|fuel]; [lia|].
    apply Forall_cons in Hok as [[Hd Hl] Hok].
    rewrite traceBody_cons in Hbuf. cbn [length] in Hroom.
    set (d := description f) in *. set (l := location f) in *.
    cbn [frames].
    assert (Hne : (0 <? length (buf st))%nat = true).
    { rewrite Hbuf, length_app. simpl. apply Nat.ltb_lt. lia. }
    rewrite Hne.
    (* p = append(p, '[') *)
    destruct (appendP_spec cap ["["%byte] st 0) as (Hp1 & Ho1 & Hb1 & Hs1).
    { intros Hs. specialize (Hroom Hs). simpl. lia. }
    rewrite !drop_0 in Hb1. set (st1 := appendP cap ["["%byte] st) in *.
    rewrite Hb1, Hbuf, (IndexByte_app _ _ _ Hd), take_app_length.
    (* p = append(p, buf[:i]...); p = append(p, ' ') *)
    destruct (appendP_spec cap d st1 (length d + 2)) as (Hp2 & Ho2 & Hb2 & Hs2).
    { intros Hs. specialize (Hroom (Hs1 Hs)). rewrite Hp1, Ho1, length_app. simpl. lia. }
    set (st2 := appendP cap d st1) in *.
    destruct (appendP_spec cap [" "%byte] st2 (length d + 2)) as (Hp3 & Ho3 & Hb3 & Hs3).
    { intros Hs. specialize (Hroom (Hs1 (Hs2 Hs))).
      rewrite Hp2, Hp1, Ho2, Ho1, !length_app. simpl. lia. }
    set (st3 := appendP cap [" "%byte] st2) in *.
    assert (Hlen3 : length (buf st3) = length (buf st)).
    { unfold st3, st2, st1. by rewrite !length_buf_appendP. }
    rewrite Hlen3, Hbuf.
    destruct (length _ <? _)%nat eqn:Hlen.
    { apply Nat.ltb_lt in Hlen. rewrite length_app in Hlen. simpl in Hlen. lia. }
    (* buf = buf[i+2:] *)
    assert (Hb4 : buf (advance (length d + 2) st3) = l ++ LF :: traceBody fs).
    { rewrite buf_advance, Hb3, Hb2, Hb1, Hbuf.
      rewrite drop_app_add' by reflexivity. reflexivity. }
    set (st4 := advance (length d + 2) st3) in *.
    rewrite Hb4, (IndexByte_app _ _ _ Hl), take_app_length.
    (* p = append(p, buf[:i]...); p = append(p, ']') *)
    destruct (appendP_spec cap l st4 (length l + 1)) as (Hp5 & Ho5 & Hb5 & Hs5).
    { intros Hs. specialize (Hroom (Hs1 (Hs2 (Hs3 Hs)))).
      unfold st4 at 1 2. cbn [advance p off].
      rewrite Hp3, Hp2, Hp1, Ho3, Ho2, Ho1, !length_app. simpl. lia. }
    set (st5 := appendP cap l st4) in *.
    destruct (appendP_spec cap ["]"%byte] st5 (length l + 1)) as (Hp6 & Ho6 & Hb6 & Hs6).
    { intros Hs. specialize (Hroom (Hs1 (Hs2 (Hs3 (Hs5 Hs))))).
      rewrite Hp5, Ho5. unfold st4 at 1 2. cbn [advance p off].
      rewrite Hp3, Hp2, Hp1, Ho3, Ho2, Ho1, !length_app. simpl. lia. }
    set (st6 := appendP cap ["]"%byte] st5) in *.
    assert (Hlen6 : length (buf st6) = length (buf st4)).
    { unfold st6, st5. by rewrite !length_buf_appendP. }
    rewrite Hlen6, Hb4.
    clear Hlen.
    destruct (length (l ++ LF :: traceBody fs) <? length l + 1)%nat eqn:Hlen'.
    { apply Nat.ltb_lt in Hlen'. rewrite length_app in Hlen'. simpl in Hlen'. lia. }
    (* buf = buf[i+1:] *)
    assert (Hb7 : buf (advance (length l + 1) st6) = traceBody fs).
    { rewrite buf_advance, Hb6, Hb5, Hb4.
      rewrite drop_app_add' by reflexivity. reflexivity. }
    set (st7 := advance (length l + 1) st6) in *.
    assert (Hp7 : p st7 = p st ++ flatOne f).
    { unfold st7. cbn [advance p]. rewrite Hp6, Hp5. unfold st4 at 1. cbn [advance p].
      rewrite Hp3, Hp2, Hp1. unfold flatOne. fold d l. by rewrite <- !app_assoc. }
    assert (Ho7 : off st7 = (off st + (length d + 2) + (length l + 1))%nat).
    { unfold st7. cbn [advance off]. rewrite Ho6, Ho5. unfold st4. cbn [advance off].
      by rewrite Ho3, Ho2, Ho1. }
    assert (Hs7 : shared st7 = true -> shared st = true).
    { unfold st7. cbn [advance shared]. intros Hs.
      apply Hs6, Hs5 in Hs. apply Hs1, Hs2, Hs3. exact Hs. }
    assert (Hlf : length (flatOne f) = (length d + length l + 3)%nat).
    { unfold flatOne. fold d l. repeat (rewrite ?length_app; cbn [length]). lia. }
    rewrite flatAll_cons.
    destruct fs as [|g fs].
    + rewrite Hb7. cbn [traceBody map concat length Nat.ltb Nat.leb].
      rewrite (IH fuel st7); [| exact Hb7 | done | simpl in *; lia |].
      * rewrite Hp7. cbn [flatAll]. by rewrite <- !app_assoc.
      * intros Hs. specialize (Hroom (Hs7 Hs)).
        rewrite Hp7, Ho7, length_app, Hlf. simpl. lia.
    + assert (Hne7 : (0 <? length (buf st7))%nat = true).
      { rewrite Hb7, traceBody_cons, length_app. simpl. apply Nat.ltb_lt. lia. }
      rewrite Hne7.
      (* p = append(p, ',') *)
      destruct (appendP_spec cap [","%byte] st7 0) as (Hp8 & Ho8 & Hb8 & Hs8).
      { intros Hs. specialize (Hroom (Hs7 Hs)).
        rewrite Hp7, Ho7, length_app, Hlf. simpl in *. lia. }
      rewrite !drop_0 in Hb8. set (st8 := appendP cap [","%byte] st7) in *.
      rewrite (IH fuel st8); [| by rewrite Hb8 | done | simpl in *; lia |].
      * rewrite Hp8, Hp7. rewrite traceBody_cons.
        destruct (description g ++ _) eqn:Hg; [by destruct (description g)|].
        by rewrite <- !app_assoc.
      * intros Hs. specialize (Hroom (Hs7 (Hs8 Hs))).
        rewrite Hp8, Ho8, Hp7, Ho7, !length_app, Hlf. simpl in *. lia.
Qed.

(** On a complete trace with no more frames than there are bytes before the
    first frame, the code returns what the specification says: the frames in
    brackets, joined by commas. *)
Lemma formatStacktraceInOneLine_complete spare skip ls fs :
  0 <= skip < 2 ^ 61 -> length ls = Z.to_nat (1 + 2 * skip) ->
  Forall (fun l => LF ∉ l) ls -> Forall frameOK fs ->
  (length fs <= length (linesBytes ls))%nat ->
  formatStacktraceInOneLine spare skip (linesBytes ls ++ traceBody fs)
  = Some (flatAll fs)
  /\ flattenSpec skip (linesBytes ls ++ traceBody fs) = flatAll fs.
Proof.
  intros Hskip Hlen Hls Hfs Hroom.
  split; [|apply flattenSpec_complete; (done || lia)].
  unfold formatStacktraceInOneLine.
  rewrite !wrapInt_small by (rewrite ?wrapInt_small; lia).
  set (s := linesBytes ls ++ traceBody fs).
  pose proof (skipLines_skipSpec (Z.to_nat (1 + 2 * skip)) s 0 [] true) as Hsk.
  rewrite drop_0 in Hsk.
  destruct (skipLines _ _) as [st|st]; destruct Hsk as [Hbuf Hst];
    unfold s in Hbuf; rewrite <- Hlen, skipSpec_lines in Hbuf by done; [done|].
  injection Hbuf as Hbuf.
  rewrite (frames_complete _ fs); [by rewrite Hst | done | done | |].
  - unfold s. rewrite length_app.
    assert (Hbody : (length fs <= length (traceBody fs))%nat).
    { clear. induction fs as [|f fs IH]; [simpl; lia|].
      rewrite traceBody_cons. rewrite length_app. cbn [length].
      rewrite length_app. cbn [length]. lia. }
    lia.
  - intros _.
    assert (Harr : arr st = s) by (rewrite Hst; reflexivity).
    assert (Hp : p st = []) by (rewrite Hst; reflexivity).
    assert (Hl : length (buf st) = length (traceBody fs)) by (by rewrite <- Hbuf).
    rewrite length_buf, Harr in Hl. unfold s in Hl. rewrite length_app in Hl.
    rewrite Hp. simpl. lia.
Qed.

(** C8 fails on the code.  [p] starts as [buf[:0]], so the output is
    written over the array the input is read from, and every frame but the
    last writes one byte more than it reads: once as many frames are written
    as bytes were skipped at the start, the bracket that opens a frame
    overwrites the first unread byte.  On the trace of two frames after an
    empty first line the code returns [[a b],[[ d]] where the specification
    gives [[a b],[c d]]; on the trace of a goroutine 25 calls deep, whose
    first line has 23 bytes, the last two frames come out damaged, while a
    trace two calls deep is flattened as specified
    ([formatStacktraceInOneLine_complete] has the general case).  This holds
    whatever the capacity of the array. *)
Theorem formatStacktraceInOneLine_overwrites_unread_input (spare : nat) :
  formatStacktraceInOneLine spare 0 tinyTrace = Some (B "[a b],[[ d]")
  /\ flattenSpec 0 tinyTrace = B "[a b],[c d]"
  /\ formatStacktraceInOneLine spare 0 (deepTrace 25)
     = Some (flatFrames 23
               ++ B ",[[ain.f(0x1) /a.go:7 +0x1d],[,[in.f(0x1)  a.go:7 +0x1d]")
  /\ flattenSpec 0 (deepTrace 25) = flatFrames 25
  /\ formatStacktraceInOneLine spare 0 (deepTrace 2) = Some (flatFrames 2).
Proof.
  split_and!.
  - vm_compute. reflexivity.
  - vm_compute. reflexivity.
  - destruct spare; vm_compute; reflexivity.
  - vm_compute. reflexivity.
  - vm_compute. reflexivity.
Qed.

(** ** The tests of the package, on the model *)

(** [TestLTSVEncoderFields]: a field on an empty encoder and after foo:bar. *)
Example fields_of_the_tests :
  bytes (AddString (B "k") (B "v") ltsvPool_New) = B "k:v"
  /\ bytes (AddString (B "k") [] ltsvPool_New) = B "k:"
  /\ bytes (AddBool (B "k") true ltsvPool_New) = B "k:true"
  /\ bytes (AddBool (B "k") false ltsvPool_New) = B "k:false"
  /\ bytes (AddInt (B "k") 42 ltsvPool_New) = B "k:42"
  /\ bytes (AddInt64 (B "k") 9223372036854775807 ltsvPool_New)
     = B "k:9223372036854775807"
  /\ bytes (AddUint64 (B "k") 18446744073709551615 ltsvPool_New)
     = B "k:18446744073709551615"
  /\ bytes (AddUintptr (B "k") 0xdeadbeef ltsvPool_New) = B "k:0xdeadbeef"
  /\ bytes (AddInt (B "k") 42 afterFooBar) = B "foo:bar" ++ [TAB] ++ B "k:42"
  /\ bytes (fst (AddMarshaler (B "k") (loggable true) ltsvPool_New))
     = B "k:" ++ [LBRACE; QUOTE] ++ B "loggable" ++ [QUOTE; COLON; QUOTE]
         ++ B "yes" ++ [QUOTE; RBRACE]
  /\ snd (AddMarshaler (B "k") (loggable true) ltsvPool_New) = None
  /\ bytes (fst (AddMarshaler (B "k") (loggable false) afterFooBar))
     = B "foo:bar" ++ [TAB] ++ B "k:" ++ [LBRACE; RBRACE].
Proof. split_and!; reflexivity. Qed.

(** [TestLTSVWriteEntryLevels] and [TestLTSVTimeOptions], with the clock of
    [demoHost]. *)
Example levels_of_the_tests :
  let e := LTSVNoTime ltsvPool_New in
  let line code := Some [B "level:" ++ code ++ [TAB] ++ B "msg:Fake message." ++ [LF]] in
  lineOf e (B "Fake message.") DebugLevel = line (B "D")
  /\ lineOf e (B "Fake message.") InfoLevel = line (B "I")
  /\ lineOf e (B "Fake message.") WarnLevel = line (B "W")
  /\ lineOf e (B "Fake message.") ErrorLevel = line (B "E")
  /\ lineOf e (B "Fake message.") PanicLevel = line (B "P")
  /\ lineOf e (B "Fake message.") FatalLevel = line (B "F")
  /\ lineOf e (B "Fake message.") 42 = line (B "42")
  /\ lineOf (AddString (B "foo") (B "bar") (LTSVTimeFormat (B "T") ltsvPool_New))
       (B "Something happened.") InfoLevel
     = Some [B "time:T" ++ [TAB] ++ B "level:I" ++ [TAB]
               ++ B "msg:Something happened." ++ [TAB] ++ B "foo:bar" ++ [LF]].
Proof. cbv zeta. split_and!; vm_compute; reflexivity. Qed.

(** [TestLTSVWriteEntryFailure]: a nil sink, a failing sink and a short one. *)
Example failures_of_the_tests :
  fst <$> WriteEntry (H := demoHost) 1%positive None (B "hello") InfoLevel tt 0
            (demoWorld ltsvPool_New)
  = Some (Some errNilSink, None)
  /\ (fst ∘ fst) <$> WriteEntry (H := demoHost) 1%positive (Some failSink) (B "hello")
                      InfoLevel tt 0 (demoWorld ltsvPool_New)
     = Some (Some (errForeign (B "failed")))
  /\ (fst ∘ fst) <$> WriteEntry (H := demoHost) 1%positive (Some shortSink) (B "hello")
                      InfoLevel tt 0 (demoWorld ltsvPool_New)
     = Some (Some (errIncompleteWrite 17 18)).
Proof. split_and!; vm_compute; reflexivity. Qed.

(** The escapers at work: a control character, a three-byte rune, a byte
    that is not UTF-8, a quote and a newline. *)
Example escapers_at_work :
  let s := [x01; xe3; x81; x82; xff; QUOTE; LF] in
  jsonEscape s
  = [BACKSLASH] ++ B "u0001" ++ [xe3; x81; x82; BACKSLASH] ++ B "ufffd"
      ++ [BACKSLASH; QUOTE; BACKSLASH] ++ B "n"
  /\ jsonUnquote (jsonEscape s) = Some [x01; xe3; x81; x82; xef; xbf; xbd; QUOTE; LF]
  /\ Replace defaultReplacer s = [x01; xe3; x81; x82; xff; QUOTE; BACKSLASH] ++ B "n".
Proof. cbv zeta. split_and!; reflexivity. Qed.

(** The flattener on traces with a first line of the usual length: two
    frames come out as the specification says, and so do 23. *)
Example flattener_at_work (spare : nat) :
  formatStacktraceInOneLine spare 0
    (B "goroutine 1 [running]:" ++ [LF] ++ B "main.f()" ++ [LF; TAB]
       ++ B "/a.go:1 +0x1" ++ [LF] ++ B "main.main()" ++ [LF; TAB]
       ++ B "/a.go:9 +0x2" ++ [LF])
  = Some (B "[main.f() /a.go:1 +0x1],[main.main() /a.go:9 +0x2]")
  /\ formatStacktraceInOneLine spare 0 (deepTrace 23) = Some (flatFrames 23)
  /\ formatStacktraceInOneLine spare 0 (B "truncated")
     = Some (B "truncated...").
Proof.
  split_and!; try (vm_compute; reflexivity).
  destruct spare as [|[|[|]]]; vm_compute; reflexivity.
Qed.

(** ** Sequences of additions *)

Lemma Field_induction (P : Field -> Prop) :
  (forall key val, P (FString key val)) ->
  (forall key val, P (FBool key val)) ->
  (forall key val, P (FInt64 key val)) ->
  (forall key val, P (FUint64 key val)) ->
  (forall key val, P (FUintptr key val)) ->
  (forall key fields err, Forall P fields -> P (FObject key fields err)) ->
  forall f, P f.
Proof.
  intros HS HB HI HU HP HO. fix IH 1.
  intros [key val|key val|key val|key val|key val|key fields err];
    [apply HS | apply HB | apply HI | apply HU | apply HP | ].
  apply HO. induction fields as [|g fields IHfields]; constructor.
  - apply IH.
  - exact IHfields.
Qed.

Lemma last_byteAt (b : list byte) :
  b <> [] -> last b = Some (byteAt b (Z.to_nat (Z.of_nat (length b) - 1))).
Proof.
  intros Hb. unfold byteAt. rewrite last_lookup, nth_lookup.
  replace (Z.to_nat (Z.of_nat (length b) - 1)) with (pred (length b)) by lia.
  destruct (b !! pred (length b)) eqn:E; [reflexivity|].
  exfalso.
  apply lookup_ge_None in E. destruct b; [congruence | cbn in E; lia].
Qed.

Lemma separator_nested (b : list byte) :
  (if (0 <=? Z.of_nat (length b) - 1)
      && negb (Byte.eqb (byteAt b (Z.to_nat (Z.of_nat (length b) - 1))) LBRACE)
   then [COMMA] else []) = separator true b.
Proof.
  unfold separator. destruct (decide (b = [])) as [->|Hb]; [reflexivity|].
  rewrite (last_byteAt b Hb).
  replace (0 <=? Z.of_nat (length b) - 1) with true.
  - cbn [andb]. destruct (Byte.eqb _ LBRACE); reflexivity.
  - symmetry. apply Z.leb_le. destruct b; [congruence | cbn [length]; lia].
Qed.

Lemma bytes_addKey_nested key f :
  0 < nestedLevel f ->
  bytes (addKey key f) = bytes f ++ separator true (bytes f) ++ keyText true key.
Proof.
  intros Hn. unfold addKey. apply Z.ltb_lt in Hn. rewrite Hn.
  rewrite <- separator_nested. unfold keyText.
  destruct ((0 <=? Z.of_nat (length (bytes f)) - 1) && _);
    rewrite bytes_append, bytes_safeAddJSONString, ?bytes_append;
    rewrite <- ?app_assoc; reflexivity.
Qed.

Lemma bytes_addKey key f :
  replacer f = defaultReplacer ->
  let nested := 0 <? nestedLevel f in
  bytes (addKey key f) = bytes f ++ separator nested (bytes f) ++ keyText nested key.
Proof.
  intros Hr nested. subst nested. destruct (0 <? nestedLevel f) eqn:Hn.
  - apply bytes_addKey_nested. lia.
  - unfold addKey. rewrite Hn. unfold separator, keyText.
    destruct (bytes f) as [|b0 b] eqn:Eb; cbn [length Nat.ltb Nat.leb];
      unfold safeAddString; rewrite !bytes_append, ?replacer_append, Hr, Replace_default, ?Eb;
      rewrite <- ?app_assoc; reflexivity.
Qed.

(** ** The characters of numbers and of escaped strings *)

Lemma string_of_uint_digits d :
  Forall (fun b => isDigit b = true) (B (NilEmpty.string_of_uint d)).
Proof.
  induction d; cbn [NilEmpty.string_of_uint B list_byte_of_string];
    constructor; solve [reflexivity | exact IHd].
Qed.

Lemma FormatInt10_shape v :
  exists ds, ds <> [] /\ Forall (fun b => isDigit b = true) ds
             /\ FormatInt10 v = (if v <? 0 then ["-"%byte] else []) ++ ds.
Proof.
  unfold FormatInt10. destruct v as [|q|q]; cbn [Z.to_int NilZero.string_of_int Z.ltb Z.compare].
  - exists (B "0"). split; [discriminate|]. split; [|reflexivity].
    repeat constructor.
  - exists (B (NilEmpty.string_of_uint (Pos.to_uint q))).
    pose proof (DecimalPos.Unsigned.to_uint_nonnil q) as Hq.
    split; [|split].
    + destruct (Pos.to_uint q); [congruence|..]; discriminate.
    + apply string_of_uint_digits.
    + unfold NilZero.string_of_uint. destruct (Pos.to_uint q); [congruence|..]; reflexivity.
  - exists (B (NilEmpty.string_of_uint (Pos.to_uint q))).
    pose proof (DecimalPos.Unsigned.to_uint_nonnil q) as Hq.
    split; [|split].
    + destruct (Pos.to_uint q); [congruence|..]; discriminate.
    + apply string_of_uint_digits.
    + unfold NilZero.string_of_uint. destruct (Pos.to_uint q); [congruence|..]; reflexivity.
Qed.

Lemma hex_table (z : Z) :
  0 <= z < 16 ->
  isHexDigit (byteAt _hex (Z.to_nat z)) = true
  /\ hexVal (byteAt _hex (Z.to_nat z)) = Some z.
Proof.
  intros Hz.
  assert (Hc : z = 0 \/ z = 1 \/ z = 2 \/ z = 3 \/ z = 4 \/ z = 5 \/ z = 6 \/ z = 7
               \/ z = 8 \/ z = 9 \/ z = 10 \/ z = 11 \/ z = 12 \/ z = 13 \/ z = 14
               \/ z = 15) by lia.
  repeat (destruct Hc as [->|Hc]; [split; reflexivity|]). subst. split; reflexivity.
Qed.

Lemma hexDigits_shape fuel : forall v acc,
  exists ds, ds <> [] /\ Forall (fun b => isHexDigit b = true) ds
             /\ hexDigits (S fuel) v acc = ds ++ acc.
Proof.
  induction fuel as [|fuel IH]; intros v acc.
  - exists [byteAt _hex (Z.to_nat (v mod 16))]. split; [discriminate|].
    split; [|cbn [hexDigits]; destruct (v / 16 =? 0); reflexivity].
    constructor; [|constructor]. apply hex_table. apply Z.mod_pos_bound. lia.
  - change (hexDigits (S (S fuel)) v acc)
      with (if v / 16 =? 0 then byteAt _hex (Z.to_nat (v mod 16)) :: acc
            else hexDigits (S fuel) (v / 16) (byteAt _hex (Z.to_nat (v mod 16)) :: acc)).
    destruct (v / 16 =? 0).
    + exists [byteAt _hex (Z.to_nat (v mod 16))]. split; [discriminate|].
      split; [|reflexivity].
      constructor; [|constructor]. apply hex_table. apply Z.mod_pos_bound. lia.
    + destruct (IH (v / 16) (byteAt _hex (Z.to_nat (v mod 16)) :: acc))
        as (ds & Hne & Hds & ->).
      exists (ds ++ [byteAt _hex (Z.to_nat (v mod 16))]). split; [|split].
      * destruct ds; discriminate.
      * apply Forall_app. split; [exact Hds|].
        constructor; [|constructor]. apply hex_table. apply Z.mod_pos_bound. lia.
      * rewrite <- app_assoc. reflexivity.
Qed.

(** A property of every chunk is a property of the escaped string. *)
Lemma jsonEscape_Forall (P : byte -> Prop) :
  (forall s, s <> [] -> Forall P (fst (jsonChunk s))) ->
  forall s, Forall P (jsonEscape s).
Proof.
  intros Hchunk s.
  induction s as [s IH] using (induction_ltof1 _ (@length byte)).
  unfold ltof in IH. destruct (decide (s = [])) as [->|Hs].
  - rewrite jsonEscape_nil. constructor.
  - rewrite (jsonEscape_step s Hs). apply Forall_app. split; [by apply Hchunk|].
    apply IH. pose proof (jsonChunk_size s Hs).
    rewrite length_drop. destruct s; [done | cbn [length] in *; lia].
Qed.

Lemma forallb_Forall {A} (P : A -> bool) (l : list A) :
  forallb P l = true -> Forall (fun x => P x = true) l.
Proof.
  induction l as [|x l IH]; cbn [forallb]; intros Hl; constructor;
    apply andb_prop in Hl as [? ?]; auto.
Qed.

Lemma asciiChunk_printable b :
  (u8 b <? utf8.RuneSelf) = true ->
  Forall (fun c => (0x20 <=? u8 c) && (u8 c <? utf8.RuneSelf) = true) (asciiChunk b).
Proof.
  intros Hb. apply forallb_Forall.
  destruct b; first [discriminate Hb | reflexivity].
Qed.

(** The bytes of a rune that decodes from a first byte outside ASCII. *)
Lemma DecodeRuneInString_high b0 rest c size :
  utf8.DecodeRuneInString (b0 :: rest) = (c, size) ->
  ((c =? utf8.RuneError) && (size =? 1)%nat) = false ->
  (u8 b0 <? utf8.RuneSelf) = false ->
  Forall (fun b => (utf8.RuneSelf <=? u8 b) = true) (take size (b0 :: rest)).
Proof.
  intros Hd Hv Hb.
  assert (Hb0 : (utf8.RuneSelf <=? u8 b0) = true).
  { apply Z.leb_le. apply Z.ltb_ge in Hb. exact Hb. }
  unfold utf8.DecodeRuneInString in Hd.
  first_byte_cases b0 Hd.
  all: destruct rest as [|b1 [|b2 [|b3 rest]]]; cbn in Hd.
  all: repeat case_match; simplify_eq; try done.
  all: cbn [firstn take].
  all: repeat match goal with
              | H : _ || _ = false |- _ => apply orb_false_elim in H as [? ?]
              end.
  all: repeat constructor; unfold utf8.RuneSelf, utf8.locb in *; try lia.
  all: repeat match goal with
              | H : context [utf8.acceptRanges ?k] |- _ =>
                let v := eval vm_compute in (utf8.acceptRanges k) in
                change (utf8.acceptRanges k) with v in H; cbn [fst snd] in H
              end; lia.
Qed.

Lemma jsonChunk_printable s :
  s <> [] -> Forall (fun c => (0x20 <=? u8 c) = true) (fst (jsonChunk s)).
Proof.
  intros Hs. destruct s as [|b rest]; [done|]. unfold jsonChunk.
  destruct (u8 b <? utf8.RuneSelf) eqn:Hb.
  - cbn [fst]. eapply Forall_impl; [apply asciiChunk_printable, Hb|].
    intros c Hc. cbn beta in Hc. apply andb_prop in Hc as [Hc _]. exact Hc.
  - destruct (utf8.DecodeRuneInString (b :: rest)) as [c size] eqn:Hd.
    destruct ((c =? utf8.RuneError) && (size =? 1)%nat) eqn:Hv; cbn [fst].
    + repeat constructor.
    + eapply Forall_impl; [apply (DecodeRuneInString_high _ _ _ _ Hd Hv Hb)|].
      intros x Hx. cbn beta in Hx. unfold utf8.RuneSelf in Hx. lia.
Qed.

Lemma jsonEscape_printable s : Forall (fun c => (0x20 <=? u8 c) = true) (jsonEscape s).
Proof. apply jsonEscape_Forall, jsonChunk_printable. Qed.

Lemma validLoop_fuel s : forall f1 f2,
  (length s <= f1)%nat -> (length s <= f2)%nat -> validLoop f1 s = validLoop f2 s.
Proof.
  induction s as [s IH] using (induction_ltof1 _ (@length byte)).
  unfold ltof in IH. intros f1 f2 H1 H2.
  destruct s as [|b rest]; [destruct f1, f2; reflexivity|].
  destruct f1 as [|f1]; [cbn [length] in H1; lia|].
  destruct f2 as [|f2]; [cbn [length] in H2; lia|].
  cbn [validLoop].
  destruct (utf8.DecodeRuneInString (b :: rest)) as [c size] eqn:Hd.
  destruct ((c =? utf8.RuneError) && (size =? 1)%nat); [reflexivity|].
  pose proof (DecodeRuneInString_size _ _ _ Hd ltac:(done)) as Hsz.
  apply IH; rewrite length_drop; cbn [length] in *; lia.
Qed.

Lemma ValidString_rune s t c size :
  utf8.DecodeRuneInString s = (c, size) ->
  ((c =? utf8.RuneError) && (size =? 1)%nat) = false ->
  s <> [] ->
  ValidString (take size s ++ t) = ValidString t.
Proof.
  intros Hd Hv Hs.
  pose proof (DecodeRuneInString_size _ _ _ Hd Hs) as Hsz.
  pose proof (DecodeRuneInString_prefix s t c size Hd Hv Hs) as Hp.
  unfold ValidString.
  assert (Hl : length (take size s ++ t) = S (pred size + length t)).
  { rewrite length_app, length_take. lia. }
  rewrite Hl. destruct (take size s ++ t) as [|x u] eqn:Eu; [discriminate Hl|].
  cbn [validLoop]. rewrite Hp, Hv. rewrite <- Eu.
  rewrite drop_app_length' by (rewrite length_take; lia).
  apply validLoop_fuel; lia.
Qed.

Lemma ValidString_ascii bs : forall t,
  Forall (fun c => (u8 c <? utf8.RuneSelf) = true) bs ->
  ValidString (bs ++ t) = ValidString t.
Proof.
  induction bs as [|b bs IH]; intros t Hbs; [reflexivity|].
  apply Forall_cons in Hbs as [Hb Hbs].
  destruct (DecodeRuneInString_ascii b (bs ++ t) Hb) as [Hd Hne].
  rewrite <- (IH t Hbs).
  apply (ValidString_rune (b :: bs ++ t) (bs ++ t) (u8 b) 1 Hd); [|done].
  rewrite Hne. reflexivity.
Qed.

Lemma ValidString_jsonChunk s t :
  s <> [] -> ValidString (fst (jsonChunk s) ++ t) = ValidString t.
Proof.
  intros Hs. destruct s as [|b rest]; [done|]. unfold jsonChunk.
  destruct (u8 b <? utf8.RuneSelf) eqn:Hb.
  - cbn [fst]. apply ValidString_ascii.
    eapply Forall_impl; [apply asciiChunk_printable, Hb|].
    intros c Hc. cbn beta in Hc. apply andb_prop in Hc as [_ Hc]. exact Hc.
  - destruct (utf8.DecodeRuneInString (b :: rest)) as [c size] eqn:Hd.
    destruct ((c =? utf8.RuneError) && (size =? 1)%nat) eqn:Hv; cbn [fst].
    + apply ValidString_ascii. repeat constructor.
    + apply (ValidString_rune _ _ _ _ Hd Hv). done.
Qed.

Lemma ValidString_jsonEscape s : ValidString (jsonEscape s) = true.
Proof.
  induction s as [s IH] using (induction_ltof1 _ (@length byte)).
  unfold ltof in IH. destruct (decide (s = [])) as [->|Hs]; [reflexivity|].
  rewrite (jsonEscape_step s Hs), (ValidString_jsonChunk s _ Hs).
  apply IH. pose proof (jsonChunk_size s Hs).
  rewrite length_drop. destruct s; [done | cbn [length] in *; lia].
Qed.

(** ** The text a sequence of additions leaves in the buffer *)

Lemma joinBy_cons_cons sep (a b : bstring) l :
  joinBy sep (a :: b :: l) = a ++ sep :: joinBy sep (b :: l).
Proof. reflexivity. Qed.

Lemma last_Forall {A} (P : A -> Prop) (l : list A) :
  l <> [] -> Forall P l -> exists c, last l = Some c /\ P c.
Proof.
  intros Hl HP. destruct (last l) as [c|] eqn:E.
  - exists c. split; [reflexivity|].
    apply last_Some in E as [l' ->]. apply Forall_app in HP as [_ HP].
    by apply Forall_cons in HP as [? _].
  - apply last_None in E. done.
Qed.

Lemma last_app_nonempty {A} (l1 l2 : list A) : l2 <> [] -> last (l1 ++ l2) = last l2.
Proof.
  intros Hl. rewrite last_app. destruct (last l2) eqn:E; [reflexivity|].
  apply last_None in E. done.
Qed.

(** The text of a nested field does not end with an opening brace. *)
Lemma valueText_nested_last f :
  exists c, last (valueText true f) = Some c /\ c <> LBRACE.
Proof.
  destruct f as [key val|key val|key val|key val|key val|key fields err];
    cbn [valueText].
  - exists QUOTE. split; [|discriminate]. rewrite app_assoc. apply last_snoc.
  - destruct val; [exists "e"%byte | exists "e"%byte]; split;
      solve [reflexivity | discriminate].
  - destruct (FormatInt10_shape val) as (ds & Hne & Hds & ->).
    rewrite (last_app_nonempty _ ds Hne).
    destruct (last_Forall _ ds Hne Hds) as (c & Hc & Hd).
    exists c. split; [exact Hc|]. intros ->. discriminate Hd.
  - destruct (FormatInt10_shape val) as (ds & Hne & Hds & ->).
    rewrite (last_app_nonempty _ ds Hne).
    destruct (last_Forall _ ds Hne Hds) as (c & Hc & Hd).
    exists c. split; [exact Hc|]. intros ->. discriminate Hd.
  - destruct (hexDigits_shape 15 val []) as (ds & Hne & Hds & ->).
    rewrite app_nil_r, (last_app_nonempty _ ds Hne).
    destruct (last_Forall _ ds Hne Hds) as (c & Hc & Hd).
    exists c. split; [exact Hc|]. intros ->. discriminate Hd.
  - exists RBRACE. split; [|discriminate]. rewrite app_assoc. apply last_snoc.
Qed.

Lemma separator_after nested (b : bstring) f :
  separator nested (b ++ fieldText nested f) = [separatorByte nested].
Proof.
  destruct nested; unfold separator, separatorByte, fieldText.
  - destruct (valueText_nested_last f) as (c & Hc & Hne).
    assert (Hv : valueText true f <> []) by (intros E; rewrite E in Hc; discriminate).
    rewrite app_assoc, (last_app_nonempty _ _ Hv), Hc.
    apply Byte_eqb_neq in Hne. rewrite Hne. reflexivity.
  - unfold keyText. destruct (b ++ _) eqn:E; [|reflexivity].
    apply app_eq_nil in E as [_ E]. apply app_eq_nil in E as [E _].
    apply app_eq_nil in E as [_ E]. discriminate.
Qed.

Lemma addFields_cons g fields enc :
  addFields (g :: fields) enc = addFields fields (addField g enc).
Proof. reflexivity. Qed.

(** What one addition appends, [nested] being the mode of the encoder. *)
Lemma addFields_text fields :
  Forall (fun g => forall e, replacer e = defaultReplacer -> 0 <= nestedLevel e ->
            bytes (addField g e)
            = bytes e ++ separator (0 <? nestedLevel e) (bytes e)
                ++ fieldText (0 <? nestedLevel e) g
            /\ nestedLevel (addField g e) = nestedLevel e
            /\ replacer (addField g e) = defaultReplacer) fields ->
  forall e, replacer e = defaultReplacer -> 0 <= nestedLevel e ->
    bytes (addFields fields e)
    = bytes e ++ match fields with
                 | [] => []
                 | _ :: _ =>
                   separator (0 <? nestedLevel e) (bytes e)
                     ++ joinBy (separatorByte (0 <? nestedLevel e))
                               (map (fieldText (0 <? nestedLevel e)) fields)
                 end
    /\ nestedLevel (addFields fields e) = nestedLevel e
    /\ replacer (addFields fields e) = defaultReplacer.
Proof.
  induction fields as [|g fields IH]; intros Hall e Hr Hn.
  - cbn [addFields fold_left]. rewrite app_nil_r. done.
  - apply Forall_cons in Hall as [Hg Hall].
    destruct (Hg e Hr Hn) as (Hb & Hl & Hr').
    rewrite addFields_cons.
    assert (Hn' : 0 <= nestedLevel (addField g e)) by lia.
    destruct (IH Hall (addField g e) Hr' Hn') as (Hb2 & Hl2 & Hr2).
    rewrite Hl in Hb2, Hl2. split; [|split; [exact Hl2 | exact Hr2]].
    rewrite Hb2. destruct fields as [|h fields].
    + rewrite app_nil_r, Hb. cbn [map joinBy flat_map]. rewrite app_nil_r. reflexivity.
    + rewrite Hb. rewrite (app_assoc (bytes e)), separator_after.
      cbn [map]. rewrite joinBy_cons_cons. rewrite <- !app_assoc. reflexivity.
Qed.

Lemma separator_opened (b : bstring) : separator true (b ++ [LBRACE]) = [].
Proof. unfold separator. rewrite last_snoc. reflexivity. Qed.

Ltac encoder_fields :=
  repeat progress
    (rewrite ?bytes_append, ?bytes_safeAddJSONString, ?nestedLevel_append,
       ?nestedLevel_safeAddJSONString, ?nestedLevel_addKey, ?replacer_append,
       ?replacer_safeAddJSONString, ?replacer_addKey).

Lemma addField_text f : forall e,
  replacer e = defaultReplacer -> 0 <= nestedLevel e ->
  bytes (addField f e)
  = bytes e ++ separator (0 <? nestedLevel e) (bytes e) ++ fieldText (0 <? nestedLevel e) f
  /\ nestedLevel (addField f e) = nestedLevel e
  /\ replacer (addField f e) = defaultReplacer.
Proof.
  induction f as [key val|key val|key val|key val|key val|key fields err IH]
    using Field_induction; intros e Hr Hn; unfold fieldText; cbn [addField fieldName].
  - unfold AddString. rewrite nestedLevel_addKey.
    pose proof (bytes_addKey key e Hr) as Hk. cbv zeta in Hk.
    destruct (0 <? nestedLevel e) eqn:Hd; cbn [valueText].
    + encoder_fields. rewrite Hk, <- !app_assoc. done.
    + unfold safeAddString. encoder_fields. rewrite Hr, Replace_default, Hk.
      rewrite <- !app_assoc. done.
  - unfold AddBool. encoder_fields. rewrite (bytes_addKey key e Hr). cbn [valueText].
    rewrite <- !app_assoc. done.
  - unfold AddInt64. encoder_fields. rewrite (bytes_addKey key e Hr). cbn [valueText].
    rewrite <- !app_assoc. done.
  - unfold AddUint64. encoder_fields. rewrite (bytes_addKey key e Hr). cbn [valueText].
    rewrite <- !app_assoc. done.
  - unfold AddUintptr. encoder_fields. rewrite (bytes_addKey key e Hr). cbn [valueText].
    rewrite <- !app_assoc. done.
  - rewrite AddMarshaler_steps. cbn [fst].
    set (opened := append [LBRACE]
                     (set_nestedLevel (addKey key e) (nestedLevel (addKey key e) + 1))).
    assert (Hro : replacer opened = defaultReplacer).
    { unfold opened. rewrite replacer_append. cbn [set_nestedLevel replacer].
      rewrite replacer_addKey. exact Hr. }
    assert (Hno : nestedLevel opened = nestedLevel e + 1).
    { unfold opened. rewrite nestedLevel_append. cbn [set_nestedLevel nestedLevel].
      rewrite nestedLevel_addKey. reflexivity. }
    assert (Hbo : bytes opened
                  = (bytes e ++ separator (0 <? nestedLevel e) (bytes e)
                       ++ keyText (0 <? nestedLevel e) key) ++ [LBRACE]).
    { unfold opened. rewrite bytes_append. cbn [set_nestedLevel bytes].
      rewrite (bytes_addKey key e Hr). reflexivity. }
    destruct (addFields_text fields IH opened Hro ltac:(lia)) as (Hb & Hl & Hr').
    fold (addFields fields opened).
    assert (Hd : (0 <? nestedLevel opened) = true) by (apply Z.ltb_lt; lia).
    rewrite Hd in Hb.
    cbn [set_nestedLevel bytes nestedLevel replacer].
    rewrite bytes_append, nestedLevel_append, replacer_append, Hb, Hl, Hno, Hr'.
    split; [|split; [lia | reflexivity]].
    cbn [valueText]. fold (fieldText true).
    rewrite Hbo at 1. destruct fields as [|g fields].
    + cbn [map joinBy]. rewrite <- !app_assoc. reflexivity.
    + rewrite Hbo, separator_opened. rewrite <- !app_assoc. reflexivity.
Qed.

(** ** Reserved bytes *)

Lemma printable_not_reserved c : (0x20 <=? u8 c) = true -> reserved c = false.
Proof. destruct c; first [discriminate | reflexivity]. Qed.

Lemma digit_printable c : isDigit c = true -> (0x20 <=? u8 c) = true.
Proof. unfold isDigit. intros H. apply andb_prop in H as [H _]. lia. Qed.

Lemma hexDigit_printable c : isHexDigit c = true -> (0x20 <=? u8 c) = true.
Proof.
  unfold isHexDigit, isDigit. intros H.
  apply orb_prop in H as [H|H]; apply andb_prop in H as [H _]; lia.
Qed.

Lemma simpleEscapeByte_not_reserved b :
  forallb (fun c => negb (reserved c)) (simpleEscapeByte b) = true.
Proof. destruct b; reflexivity. Qed.

Lemma simpleEscape_not_reserved s : Forall (fun c => reserved c = false) (simpleEscape s).
Proof.
  unfold simpleEscape. apply Forall_flat_map, Forall_forall. intros b _.
  pose proof (forallb_Forall _ _ (simpleEscapeByte_not_reserved b)) as H.
  eapply Forall_impl; [exact H|]. intros c Hc. cbn beta in Hc.
  by apply negb_true_iff in Hc.
Qed.

Lemma printable_Forall_not_reserved (s : bstring) :
  Forall (fun c => (0x20 <=? u8 c) = true) s -> Forall (fun c => reserved c = false) s.
Proof. intros H. eapply Forall_impl; [exact H|]. apply printable_not_reserved. Qed.

Lemma keyText_not_reserved nested key :
  Forall (fun c => reserved c = false) (keyText nested key).
Proof.
  destruct nested; unfold keyText.
  - apply printable_Forall_not_reserved. repeat (apply Forall_app; split).
    + repeat constructor.
    + apply jsonEscape_printable.
    + repeat constructor.
  - apply Forall_app. split; [apply simpleEscape_not_reserved | repeat constructor].
Qed.

Lemma FormatInt10_printable v : Forall (fun c => (0x20 <=? u8 c) = true) (FormatInt10 v).
Proof.
  destruct (FormatInt10_shape v) as (ds & _ & Hds & ->).
  apply Forall_app. split; [destruct (v <? 0); repeat constructor|].
  eapply Forall_impl; [exact Hds|]. apply digit_printable.
Qed.

Lemma hexDigits_printable v :
  Forall (fun c => (0x20 <=? u8 c) = true) (hexDigits 16 v []).
Proof.
  destruct (hexDigits_shape 15 v []) as (ds & _ & Hds & ->). rewrite app_nil_r.
  eapply Forall_impl; [exact Hds|]. apply hexDigit_printable.
Qed.

Lemma joinBy_Forall (P : byte -> Prop) sep parts :
  P sep -> Forall (Forall P) parts -> Forall P (joinBy sep parts).
Proof.
  intros Hsep Hparts. destruct parts as [|a parts]; [constructor|].
  apply Forall_cons in Hparts as [Ha Hparts]. cbn [joinBy].
  apply Forall_app. split; [exact Ha|].
  apply Forall_flat_map. eapply Forall_impl; [exact Hparts|].
  intros x Hx. cbn beta. by constructor.
Qed.

(** Inside a nested object every byte written is printable. *)
Lemma fieldText_nested_printable f :
  Forall (fun c => (0x20 <=? u8 c) = true) (fieldText true f).
Proof.
  induction f as [key val|key val|key val|key val|key val|key fields err IH]
    using Field_induction; unfold fieldText; cbn [fieldName valueText keyText];
    repeat (apply Forall_app; split);
    try solve [repeat constructor | apply jsonEscape_printable
              | apply FormatInt10_printable | apply hexDigits_printable].
  - destruct val; repeat constructor.
  - apply joinBy_Forall; [reflexivity|]. apply Forall_map. exact IH.
Qed.

Lemma fieldText_not_reserved nested f :
  Forall (fun c => reserved c = false) (fieldText nested f).
Proof.
  destruct nested.
  - apply printable_Forall_not_reserved, fieldText_nested_printable.
  - unfold fieldText. apply Forall_app. split; [apply keyText_not_reserved|].
    destruct f as [key val|key val|key val|key val|key val|key fields err];
      cbn [valueText].
    + apply simpleEscape_not_reserved.
    + destruct val; repeat constructor.
    + apply printable_Forall_not_reserved, FormatInt10_printable.
    + apply printable_Forall_not_reserved, FormatInt10_printable.
    + apply printable_Forall_not_reserved, Forall_app.
      split; [repeat constructor | apply hexDigits_printable].
    + apply printable_Forall_not_reserved.
      pose proof (fieldText_nested_printable (FObject key fields err)) as H.
      unfold fieldText in H. apply Forall_app in H as [_ H]. exact H.
Qed.

(** ** Cutting the buffer at tabs *)

Lemma splitOn_app_sep sep (s1 s2 : bstring) :
  splitOn sep (s1 ++ sep :: s2) = splitOn sep s1 ++ splitOn sep s2.
Proof.
  unfold splitOn. induction s1 as [|b s1 IH]; cbn [app cut].
  - rewrite (proj2 (Byte_eqb_eq sep sep) eq_refl).
    destruct (cut sep s2) as [part parts]. reflexivity.
  - destruct (cut sep (s1 ++ sep :: s2)) as [p ps].
    destruct (cut sep s1) as [p1 ps1]. cbn [fst snd] in IH.
    injection IH as -> ->.
    destruct (Byte.eqb b sep); reflexivity.
Qed.

Lemma splitOn_whole sep (s : bstring) :
  Forall (fun c => Byte.eqb c sep = false) s -> splitOn sep s = [s].
Proof.
  unfold splitOn. induction 1 as [|b s Hb _ IH]; [reflexivity|].
  cbn [cut]. destruct (cut sep s) as [p ps]. cbn [fst snd] in IH.
  injection IH as -> ->. rewrite Hb. reflexivity.
Qed.

Lemma splitOn_joinBy sep (a : bstring) (parts : list bstring) :
  Forall (Forall (fun c => Byte.eqb c sep = false)) (a :: parts) ->
  splitOn sep (joinBy sep (a :: parts)) = a :: parts.
Proof.
  revert a. induction parts as [|b parts IH]; intros a Hall.
  - cbn [joinBy flat_map]. rewrite app_nil_r. apply splitOn_whole.
    by apply Forall_cons in Hall as [? _].
  - apply Forall_cons in Hall as [Ha Hall].
    rewrite joinBy_cons_cons, splitOn_app_sep, (splitOn_whole _ _ Ha), (IH b Hall).
    reflexivity.
Qed.

Lemma countByte_zero c (s : bstring) :
  Forall (fun b => Byte.eqb b c = false) s -> countByte c s = 0.
Proof.
  induction 1 as [|b s Hb _ IH]; [reflexivity|].
  rewrite countByte_cons, Hb, IH. reflexivity.
Qed.

Lemma not_reserved_cases c :
  reserved c = false ->
  Byte.eqb c TAB = false /\ Byte.eqb c LF = false /\ Byte.eqb c CR = false.
Proof.
  unfold reserved. intros H. apply orb_false_elim in H as [H H3].
  apply orb_false_elim in H as [H1 H2]. done.
Qed.

Lemma fieldText_free nested f :
  Forall (fun c => Byte.eqb c TAB = false) (fieldText nested f)
  /\ Forall (fun c => Byte.eqb c LF = false) (fieldText nested f)
  /\ Forall (fun c => Byte.eqb c CR = false) (fieldText nested f).
Proof.
  pose proof (fieldText_not_reserved nested f) as H.
  split; [|split]; (eapply Forall_impl; [exact H|]); intros c Hc;
    apply not_reserved_cases in Hc; tauto.
Qed.

Lemma countByte_joinBy_fields c nested fields :
  Byte.eqb (separatorByte nested) c = false -> reserved c = true ->
  countByte c (joinBy (separatorByte nested) (map (fieldText nested) fields)) = 0.
Proof.
  intros Hsep Hc. apply countByte_zero. apply joinBy_Forall; [exact Hsep|].
  apply Forall_map, Forall_forall. intros f _. cbn beta.
  eapply Forall_impl; [apply (fieldText_not_reserved nested f)|].
  intros b Hb. cbn beta in Hb. destruct (Byte.eqb b c) eqn:E; [|reflexivity].
  apply Byte_eqb_eq in E. subst. congruence.
Qed.

(** ** Sequences of additions: the text in the buffer *)

(** X1.  On an encoder at nesting depth 0 with the replacer of
    [ltsvPool.New], a sequence of additions leaves in the buffer what was
    there before, if anything, and one text per addition, joined by single
    tabs: label, colon and value, the value of a string escaped in simple
    mode and the value of an object a brace-enclosed list of JSON members.
    The nesting depth is 0 again afterwards. *)
Theorem added_fields_are_joined_by_tabs fields e :
  nestedLevel e = 0 -> replacer e = defaultReplacer ->
  bytes (addFields fields e)
  = joinBy TAB (match bytes e with [] => [] | _ :: _ => [bytes e] end
                  ++ map (fieldText false) fields)
  /\ nestedLevel (addFields fields e) = 0
  /\ replacer (addFields fields e) = defaultReplacer.
Proof.
  intros Hn Hr.
  assert (Hall : Forall (fun g => forall e, replacer e = defaultReplacer ->
                    0 <= nestedLevel e ->
                    bytes (addField g e)
                    = bytes e ++ separator (0 <? nestedLevel e) (bytes e)
                        ++ fieldText (0 <? nestedLevel e) g
                    /\ nestedLevel (addField g e) = nestedLevel e
                    /\ replacer (addField g e) = defaultReplacer) fields).
  { apply Forall_forall. intros g _. apply addField_text. }
  destruct (addFields_text fields Hall e Hr ltac:(lia)) as (Hb & Hl & Hr').
  rewrite Hn in Hb, Hl. change (0 <? 0) with false in Hb.
  split; [|split; [exact Hl | exact Hr']].
  rewrite Hb. unfold separator, separatorByte.
  destruct fields as [|g fields]; destruct (bytes e) as [|b0 b].
  - reflexivity.
  - cbn [joinBy flat_map map app]. rewrite !app_nil_r. reflexivity.
  - reflexivity.
  - cbn [map]. change ([b0 :: b] ++ ?l) with ((b0 :: b) :: l).
    rewrite joinBy_cons_cons. reflexivity.
Qed.

Lemma added_fields_are_joined_by_tabs_witness :
  nestedLevel ltsvPool_New = 0 /\ replacer ltsvPool_New = defaultReplacer
  /\ bytes (addFields janeFields ltsvPool_New)
     = joinBy TAB (map (fieldText false) janeFields)
  /\ joinBy TAB (map (fieldText false) janeFields)
     = B "user:jane@test.com" ++ [TAB] ++ B "visits:42" ++ [TAB] ++ B "auth:{"
         ++ [QUOTE] ++ B "token" ++ [QUOTE] ++ B ":" ++ [QUOTE] ++ B "---" ++ [QUOTE]
         ++ B "," ++ [QUOTE] ++ B "roles" ++ [QUOTE] ++ B ":{}}".
Proof.
  split; [reflexivity|]. split; [reflexivity|]. split; [|reflexivity].
  apply (added_fields_are_joined_by_tabs janeFields ltsvPool_New); reflexivity.
Defined.

(** X2.  [AddMarshaler] with an object that makes a sequence of additions
    writes the separator and the key of the mode it is called in, an opening
    brace, the additions as JSON members joined by commas with no comma
    after the brace, and a closing brace; it returns the error of
    [MarshalLog], with which the object is closed all the same, and the
    nesting depth is the one before the call. *)
Theorem AddMarshaler_writes_an_object key fields err e :
  replacer e = defaultReplacer -> 0 <= nestedLevel e ->
  let nested := 0 <? nestedLevel e in
  let r := AddMarshaler key (marshalFields fields err) e in
  bytes (fst r)
  = bytes e ++ separator nested (bytes e) ++ keyText nested key ++ [LBRACE]
      ++ joinBy COMMA (map (fieldText true) fields) ++ [RBRACE]
  /\ snd r = err
  /\ nestedLevel (fst r) = nestedLevel e.
Proof.
  intros Hr Hn nested r.
  destruct (addField_text (FObject key fields err) e Hr Hn) as (Hb & Hl & _).
  change (addField (FObject key fields err) e) with (fst r) in Hb, Hl.
  split; [|split; [|exact Hl]].
  - rewrite Hb. unfold fieldText. cbn [fieldName valueText].
    rewrite <- ?app_assoc. reflexivity.
  - subst r. rewrite AddMarshaler_steps. reflexivity.
Qed.

Lemma AddMarshaler_writes_an_object_witness :
  replacer afterFooBar = defaultReplacer /\ 0 <= nestedLevel afterFooBar
  /\ bytes (fst (AddMarshaler (B "k") (marshalFields [FBool (B "a") true; FInt64 (B "b") (-7)]
                                 (Some errNilSink)) afterFooBar))
     = B "foo:bar" ++ [TAB] ++ B "k:{" ++ [QUOTE] ++ B "a" ++ [QUOTE] ++ B ":true,"
         ++ [QUOTE] ++ B "b" ++ [QUOTE] ++ B ":-7}"
  /\ snd (AddMarshaler (B "k") (marshalFields [FBool (B "a") true; FInt64 (B "b") (-7)]
                                  (Some errNilSink)) afterFooBar)
     = Some errNilSink.
Proof.
  split; [reflexivity|]. split; [vm_compute; discriminate|].
  pose proof (AddMarshaler_writes_an_object (B "k")
                [FBool (B "a") true; FInt64 (B "b") (-7)] (Some errNilSink) afterFooBar
                eq_refl ltac:(vm_compute; discriminate)) as H.
  cbv zeta in H. destruct H as (Hb & He & _). split; [|exact He].
  rewrite Hb. reflexivity.
Defined.

(** X3.  After a sequence of at least one addition at nesting depth 0,
    cutting the buffer at its tabs gives the parts it had before followed by
    one part per addition, the text of that addition: no key and no value
    brings a tab of its own, at any depth of nesting.  The additions bring no
    newline and no carriage return either. *)
Theorem added_fields_split_at_tabs fields e :
  nestedLevel e = 0 -> replacer e = defaultReplacer -> fields <> [] ->
  splitOn TAB (bytes (addFields fields e))
  = match bytes e with [] => [] | _ :: _ => splitOn TAB (bytes e) end
      ++ map (fieldText false) fields
  /\ countByte LF (bytes (addFields fields e)) = countByte LF (bytes e)
  /\ countByte CR (bytes (addFields fields e)) = countByte CR (bytes e).
Proof.
  intros Hn Hr Hf.
  assert (Hall : Forall (fun g => forall e, replacer e = defaultReplacer ->
                    0 <= nestedLevel e ->
                    bytes (addField g e)
                    = bytes e ++ separator (0 <? nestedLevel e) (bytes e)
                        ++ fieldText (0 <? nestedLevel e) g
                    /\ nestedLevel (addField g e) = nestedLevel e
                    /\ replacer (addField g e) = defaultReplacer) fields).
  { apply Forall_forall. intros g _. apply addField_text. }
  destruct (addFields_text fields Hall e Hr ltac:(lia)) as (Hb & _ & _).
  rewrite Hn in Hb. change (0 <? 0) with false in Hb.
  destruct fields as [|g fields]; [done|]. rewrite Hb.
  assert (Hparts : Forall (Forall (fun c => Byte.eqb c TAB = false))
                     (map (fieldText false) (g :: fields))).
  { apply Forall_map, Forall_forall. intros f _. apply fieldText_free. }
  split; [|split].
  - unfold separator, separatorByte. destruct (bytes e) as [|b0 b].
    + cbn [app]. cbn [map] in *. apply splitOn_joinBy. exact Hparts.
    + cbn [map] in *. change ([TAB] ++ ?x) with (TAB :: x).
      rewrite splitOn_app_sep, splitOn_joinBy by exact Hparts. reflexivity.
  - rewrite !countByte_app, (countByte_joinBy_fields LF false) by reflexivity.
    unfold separator. destruct (bytes e); cbn; lia.
  - rewrite !countByte_app, (countByte_joinBy_fields CR false) by reflexivity.
    unfold separator. destruct (bytes e); cbn; lia.
Qed.

Lemma added_fields_split_at_tabs_witness :
  nestedLevel afterFooBar = 0 /\ replacer afterFooBar = defaultReplacer
  /\ janeFields <> []
  /\ splitOn TAB (bytes (addFields janeFields afterFooBar))
     = B "foo:bar" :: map (fieldText false) janeFields.
Proof.
  split; [reflexivity|]. split; [reflexivity|]. split; [discriminate|].
  apply (added_fields_split_at_tabs janeFields afterFooBar); [reflexivity..|discriminate].
Defined.

(** ** The line of an entry is one line *)

Lemma countByte_nonneg c s : 0 <= countByte c s.
Proof. induction s as [|b s IH]; cbn [countByte]; [lia | destruct (Byte.eqb b c); lia]. Qed.

Lemma countByte_zero_notin c s : countByte c s = 0 -> c ∉ s.
Proof.
  induction s as [|b s IH]; [intros _; apply not_elem_of_nil|].
  rewrite countByte_cons. pose proof (countByte_nonneg c s).
  destruct (Byte.eqb b c) eqn:E; [lia|]. intros H0.
  apply not_elem_of_cons. split; [|apply IH; lia].
  apply Byte_eqb_neq in E. congruence.
Qed.

Lemma countByte_printable c (s : bstring) :
  reserved c = true -> Forall (fun b => (0x20 <=? u8 b) = true) s -> countByte c s = 0.
Proof.
  intros Hc Hs. apply countByte_zero. eapply Forall_impl; [exact Hs|].
  intros b Hb. cbn beta in Hb. apply printable_not_reserved in Hb.
  destruct (Byte.eqb b c) eqn:E; [|reflexivity].
  apply Byte_eqb_eq in E. subst. congruence.
Qed.

Lemma countByte_simpleEscape c s : reserved c = true -> countByte c (simpleEscape s) = 0.
Proof.
  intros Hc. apply countByte_zero.
  eapply Forall_impl; [apply simpleEscape_not_reserved|].
  intros b Hb. cbn beta in Hb.
  destruct (Byte.eqb b c) eqn:E; [|reflexivity].
  apply Byte_eqb_eq in E. subst. congruence.
Qed.

Section OneLine.
Context `{Host}.

Lemma levelCode_printable lvl : Forall (fun b => (0x20 <=? u8 b) = true) (levelCode lvl).
Proof.
  unfold levelCode. repeat case_decide; try (repeat constructor).
  apply FormatInt10_printable.
Qed.

Lemma entryLine_body e msg lvl t :
  LF ∉ bytes e -> LF ∉ Format t (timeFmt e) ->
  exists body, entryLine e msg lvl t = body ++ [LF] /\ LF ∉ body.
Proof.
  intros Hb Ht.
  exists (timeField e t ++ levelField e lvl ++ [TAB] ++ messageField e msg
            ++ callerFields e).
  split; [unfold entryLine; rewrite <- !app_assoc; reflexivity|].
  apply countByte_zero_notin.
  unfold timeField, levelField, messageField, callerFields.
  rewrite !countByte_app, !countByte_simpleEscape by reflexivity.
  rewrite (countByte_printable LF (levelCode lvl)) by (reflexivity || apply levelCode_printable).
  apply countByte_notin in Hb, Ht.
  destruct (timeFmt e) eqn:Ef; destruct (bytes e) eqn:Eb;
    rewrite ?countByte_app, ?countByte_cons, ?countByte_simpleEscape by reflexivity;
    cbn [countByte] in *; rewrite ?Ht, ?Hb; cbn; try lia.
  all: rewrite ?countByte_cons in Hb; cbn in Hb; lia.
Qed.

End OneLine.

(** ** One entry, one line *)

Section OneLineEntry.
Context `{Host}.

(** X4.  When the buffer of the source encoder holds no newline, as after
    any sequence of additions, and the formatted time holds none, the bytes
    [WriteEntry] hands to the sink are one line: the newline at the end is
    the only one, whatever the message and the labels are. *)
Theorem WriteEntry_writes_one_line enc e sk msg lvl t pick w :
  heap w !! enc = Some e -> enc ∉ pool w -> poolReady w ->
  LF ∉ bytes e -> LF ∉ Format t (timeFmt e) ->
  exists body err w',
    WriteEntry enc (Some sk) msg lvl t pick w
    = Some ((err, Some (mkSink (calls sk ++ [body ++ [LF]]) (respond sk))), w')
    /\ LF ∉ body.
Proof.
  intros He Hout Hready Hb Ht.
  destruct (WriteEntry_hands_over_entryLine enc e sk msg lvl t pick w He Hout Hready)
    as (err & w' & Hrun & _).
  destruct (entryLine_body e msg lvl t Hb Ht) as (body & Hline & Hbody).
  exists body, err, w'. rewrite <- Hline. split; [exact Hrun | exact Hbody].
Qed.

End OneLineEntry.

Lemma WriteEntry_writes_one_line_witness :
  let e := addFields janeFields ltsvPool_New in
  let msg := B "two" ++ [LF] ++ B "lines" in
  heap (demoWorld e) !! 1%positive = Some e
  /\ (1%positive ∉ pool (demoWorld e))
  /\ poolReady (demoWorld e)
  /\ (LF ∉ bytes e)
  /\ (LF ∉ @Format demoHost tt (timeFmt e))
  /\ exists body err w',
      WriteEntry (H := demoHost) 1%positive (Some okSink) msg InfoLevel tt 0 (demoWorld e)
      = Some ((err, Some (mkSink [body ++ [LF]] (respond okSink))), w')
      /\ (LF ∉ body).
Proof.
  intros e msg.
  assert (Hb : LF ∉ bytes e) by (apply countByte_zero_notin; reflexivity).
  assert (Ht : LF ∉ @Format demoHost tt (timeFmt e))
    by (apply countByte_zero_notin; reflexivity).
  split; [apply demoWorld_source|]. split; [apply demoWorld_checked_out|].
  split; [apply demoWorld_ready|]. split; [exact Hb|]. split; [exact Ht|].
  exact (WriteEntry_writes_one_line (H := demoHost) 1%positive e okSink msg InfoLevel tt 0
           (demoWorld e) (demoWorld_source e) (demoWorld_checked_out e)
           (demoWorld_ready e) Hb Ht).
Defined.

(** ** What JSON-mode escaping writes *)

Lemma jsonEscape_plain s :
  Forall (fun c => 0x20 <= u8 c < 0x80 /\ c <> QUOTE /\ c <> BACKSLASH) s ->
  jsonEscape s = s.
Proof.
  induction 1 as [|b s (Hb & Hq & Hs) _ IH]; [reflexivity|].
  rewrite jsonEscape_step by done. unfold jsonChunk.
  replace (u8 b <? utf8.RuneSelf) with true by (unfold utf8.RuneSelf; lia).
  cbn [fst snd drop]. unfold asciiChunk.
  replace (0x20 <=? u8 b) with true by lia.
  apply Byte_eqb_neq in Hq, Hs. rewrite Hq, Hs. cbn [andb negb app].
  rewrite drop_0, IH. reflexivity.
Qed.

(** X5.  [safeAddJSONString] appends, for any bytes at all, a text that is
    valid UTF-8 and holds no control character (no byte below 0x20); a
    string of ASCII characters from 0x20 on without quote and backslash is
    appended as it is. *)
Theorem safeAddJSONString_appends_clean_text s enc :
  bytes (safeAddJSONString s enc) = bytes enc ++ jsonEscape s
  /\ ValidString (jsonEscape s) = true
  /\ Forall (fun c => 0x20 <= u8 c) (jsonEscape s)
  /\ (Forall (fun c => 0x20 <= u8 c < 0x80 /\ c <> QUOTE /\ c <> BACKSLASH) s ->
      jsonEscape s = s).
Proof.
  split; [apply bytes_safeAddJSONString|].
  split; [apply ValidString_jsonEscape|]. split; [|apply jsonEscape_plain].
  eapply Forall_impl; [apply jsonEscape_printable|]. intros c Hc. cbn beta in Hc. lia.
Qed.

(** ** What simple-mode escaping leaves ambiguous *)

(** X6.  The replacer of [ltsvPool.New] has no pair for the backslash: a
    string with a tab and the string with backslash and t in its place are
    different strings and [safeAddString] appends the same bytes for both;
    likewise for newline and n, carriage return and r. *)
Theorem safeAddString_is_not_injective pre post e :
  replacer e = defaultReplacer ->
  forall c l, (c, l) ∈ [(TAB, "t"%byte); (LF, "n"%byte); (CR, "r"%byte)] ->
    pre ++ [c] ++ post <> pre ++ [BACKSLASH; l] ++ post
    /\ bytes (safeAddString (pre ++ [c] ++ post) e)
       = bytes (safeAddString (pre ++ [BACKSLASH; l] ++ post) e).
Proof.
  intros Hr c l Hcl. split.
  - intros Heq. apply app_inv_head in Heq. injection Heq as Heq _.
    repeat (apply elem_of_cons in Hcl as [Hcl|Hcl]; [by simplify_eq|]).
    by apply elem_of_nil in Hcl.
  - unfold safeAddString. rewrite !bytes_append, Hr, !Replace_default.
    rewrite !simpleEscape_app. f_equal. f_equal. f_equal.
    repeat (apply elem_of_cons in Hcl as [Hcl|Hcl]; [by simplify_eq|]).
    by apply elem_of_nil in Hcl.
Qed.

Lemma safeAddString_is_not_injective_witness :
  replacer ltsvPool_New = defaultReplacer
  /\ B "a" ++ [TAB] ++ B "b" <> B "a" ++ [BACKSLASH; "t"%byte] ++ B "b"
  /\ bytes (safeAddString (B "a" ++ [TAB] ++ B "b") ltsvPool_New)
     = bytes (safeAddString (B "a" ++ [BACKSLASH; "t"%byte] ++ B "b") ltsvPool_New).
Proof.
  split; [reflexivity|].
  apply (safeAddString_is_not_injective (B "a") (B "b") ltsvPool_New eq_refl TAB "t"%byte).
  apply elem_of_cons. left. reflexivity.
Defined.

(** X7.  A colon in a key is written as it is at nesting depth 0: the key
    [k1:k2] with the value [v] and the key [k1] with the value [k2:v] leave
    the same bytes in the buffer. *)
Theorem colon_in_a_key_is_not_escaped k1 k2 v e :
  nestedLevel e = 0 -> replacer e = defaultReplacer ->
  bytes (AddString (k1 ++ [COLON] ++ k2) v e)
  = bytes (AddString k1 (k2 ++ [COLON] ++ v) e).
Proof.
  intros Hn Hr.
  destruct (addField_text (FString (k1 ++ [COLON] ++ k2) v) e Hr ltac:(lia)) as [H1 _].
  destruct (addField_text (FString k1 (k2 ++ [COLON] ++ v)) e Hr ltac:(lia)) as [H2 _].
  cbn [addField] in H1, H2. rewrite H1, H2, Hn. change (0 <? 0) with false.
  unfold fieldText, keyText. cbn [fieldName valueText].
  rewrite !simpleEscape_app. change (simpleEscape [COLON]) with [COLON].
  rewrite <- !app_assoc. reflexivity.
Qed.

Lemma colon_in_a_key_is_not_escaped_witness :
  nestedLevel ltsvPool_New = 0 /\ replacer ltsvPool_New = defaultReplacer
  /\ bytes (AddString (B "a" ++ [COLON] ++ B "b") (B "c") ltsvPool_New)
     = bytes (AddString (B "a") (B "b" ++ [COLON] ++ B "c") ltsvPool_New).
Proof.
  split; [reflexivity|]. split; [reflexivity|].
  apply (colon_in_a_key_is_not_escaped (B "a") (B "b") (B "c") ltsvPool_New); reflexivity.
Defined.

(** ** [Clone] and [NewLTSVEncoder] on the heap *)

Lemma ltsvPool_Get_checked_out pick w l w1 :
  poolLive w -> NoDup (pool w) -> ltsvPool_Get pick w = Some (l, w1) ->
  (l ∉ pool w1) /\ NoDup (pool w1).
Proof.
  intros Hlive Hnd. unfold ltsvPool_Get.
  destruct (pool w !! pick) as [l'|] eqn:Hpick; intros [= <- <-]; cbn [pool].
  - split.
    + intros Hin. apply list_elem_of_lookup in Hin as [j Hj].
      destruct (decide (j < pick)%nat) as [Hlt|Hge].
      * rewrite list_lookup_delete_lt in Hj by exact Hlt.
        pose proof (NoDup_lookup _ _ _ _ Hnd Hj Hpick). lia.
      * rewrite list_lookup_delete_ge in Hj by lia.
        pose proof (NoDup_lookup _ _ _ _ Hnd Hj Hpick). lia.
    + eapply sublist_NoDup; [exact Hnd | apply sublist_delete].
  - split; [|exact Hnd]. intros Hin. destruct (Hlive _ Hin) as [x Hx].
    assert (Hfresh : heap w !! fresh (dom (heap w)) = None).
    { apply not_elem_of_dom. apply is_fresh. }
    congruence.
Qed.

Lemma Clone_run enc pick e w clone f w1 :
  ltsvPool_Get pick w = Some (clone, w1) ->
  heap w1 !! enc = Some e -> heap w1 !! clone = Some f -> clone <> enc ->
  Clone enc pick w = Some (clone, poke clone e w1).
Proof.
  intros Hget He Hf Hne. unfold Clone.
  rewrite (bind_run _ _ _ _ _ Hget).
  rewrite (bind_run _ _ _ _ _ (call_run _ _ _ _ Hf)).
  assert (Hen : forall x w', heap (poke clone x w') !! enc = heap w' !! enc)
    by (intros; by apply heap_poke_ne).
  repeat (erewrite bind_run; [|apply load_run; rewrite Hen; exact He];
          rewrite (bind_run _ _ _ _ _ (call_run _ _ _ _ (heap_poke_eq _ _ _)));
          rewrite poke_poke).
  unfold ret. destruct e, f. reflexivity.
Qed.

Lemma fold_options os : forall g,
  fold_left (fun e opt => opt e) (map optionOf os) g
  = mkEncoder (bytes g) (lastSet timeLabelOf os (timeLabel g))
              (lastSet timeFmtOf os (timeFmt g))
              (lastSet levelLabelOf os (levelLabel g))
              (lastSet messageLabelOf os (messageLabel g))
              (nestedLevel g) (replacer g).
Proof.
  unfold lastSet. induction os as [|o os IH]; intros g.
  - destruct g. reflexivity.
  - cbn [map fold_left]. rewrite IH. destruct o; reflexivity.
Qed.

Lemma NewLTSVEncoder_run options pick w enc f w1 :
  ltsvPool_Get pick w = Some (enc, w1) -> heap w1 !! enc = Some f ->
  NewLTSVEncoder options pick w
  = Some (enc, poke enc (fold_left (fun e opt => opt e) options
                           (LTSVTimeFormat RFC3339 (truncate f))) w1).
Proof.
  intros Hget Hf. unfold NewLTSVEncoder.
  rewrite (bind_run _ _ _ _ _ Hget).
  rewrite (bind_run _ _ _ _ _ (call_run _ _ _ _ Hf)).
  rewrite (bind_run _ _ _ _ _ (call_run _ _ _ _ (heap_poke_eq _ _ _))), poke_poke.
  rewrite (bind_run _ _ _ _ _ (call_run _ _ _ _ (heap_poke_eq _ _ _))), poke_poke.
  reflexivity.
Qed.

(** ** [WriteEntry] and the encoders that are checked out *)

Lemma poolReady_poke l f w : l ∉ pool w -> poolReady w -> poolReady (poke l f w).
Proof.
  intros Hout Hready l' Hl'. rewrite pool_poke in Hl'.
  assert (l <> l') by (intros ->; contradiction).
  rewrite heap_poke_ne by done. by apply Hready.
Qed.

Section Frame.
Context `{Host}.

(** [WriteEntry] writes to the encoder it takes from the pool and to no
    encoder that is checked out. *)
Lemma WriteEntry_frame enc e sk msg lvl t pick w :
  heap w !! enc = Some e -> enc ∉ pool w -> poolReady w ->
  exists w',
    WriteEntry enc (Some sk) msg lvl t pick w
    = Some ((writeResult (respond sk (calls sk) (entryLine e msg lvl t))
                         (Z.of_nat (length (entryLine e msg lvl t))),
             Some (mkSink (calls sk ++ [entryLine e msg lvl t]) (respond sk))), w')
    /\ poolReady w'
    /\ (forall l x, heap w !! l = Some x -> l ∉ pool w ->
          heap w' !! l = Some x /\ l ∉ pool w').
Proof.
  intros He Hout Hready.
  destruct (ltsvPool_Get_run pick w (poolReady_live w Hready))
    as (final & f & w1 & Hget & Hf & Hframe & Hfresh & Hpool & Horigin).
  assert (Hne : final <> enc).
  { intros <-. by apply (Hfresh final). }
  assert (Hfr : nestedLevel f = 0 /\ replacer f = defaultReplacer).
  { destruct Horigin as [[Hin Hf'] | ->]; [|by split].
    destruct (Hready final Hin) as (f' & Hf'' & ? & ?). by simplify_eq. }
  destruct Hfr as [Hn Hr].
  pose proof (WriteEntry_run enc sk msg lvl t pick e w final f w1 Hget
                ltac:(rewrite Hframe by done; exact He) Hf Hne) as Hrun.
  cbv zeta in Hrun. rewrite (bytes_composed e msg lvl t f Hn Hr) in Hrun.
  eexists. split; [exact Hrun|]. split.
  - intros l Hl. cbn [pool heap] in Hl |- *. apply elem_of_cons in Hl as [-> | Hl].
    + exists (composed e msg lvl t f). rewrite lookup_insert_eq.
      by rewrite nestedLevel_composed, replacer_composed.
    + destruct (decide (l = final)) as [-> | Hlf].
      * exists (composed e msg lvl t f). rewrite lookup_insert_eq.
        by rewrite nestedLevel_composed, replacer_composed.
      * rewrite lookup_insert_ne by done. rewrite Hframe by done.
        apply Hready, Hpool, Hl.
  - intros l x Hl Hlout. cbn [pool heap].
    assert (Hlf : l <> final) by (apply Hfresh; [eauto | exact Hlout]).
    split.
    + rewrite lookup_insert_ne by done. rewrite Hframe by done. exact Hl.
    + intros Hin. apply elem_of_cons in Hin as [-> | Hin]; [done|].
      apply Hlout, Hpool, Hin.
Qed.

End Frame.

(** [Clone] from an encoder that is checked out. *)
Lemma Clone_checked_out enc e pick w :
  heap w !! enc = Some e -> enc ∉ pool w -> poolLive w -> NoDup (pool w) ->
  exists clone w',
    Clone enc pick w = Some (clone, w')
    /\ clone <> enc
    /\ heap w' !! clone = Some e
    /\ heap w' !! enc = Some e
    /\ (forall l, l <> clone -> heap w' !! l = heap w !! l)
    /\ (clone ∉ pool w') /\ (enc ∉ pool w') /\ poolLive w' /\ NoDup (pool w')
    /\ (poolReady w -> poolReady w').
Proof.
  intros He Hout Hlive Hnd.
  destruct (ltsvPool_Get_run pick w Hlive)
    as (clone & f & w1 & Hget & Hf & Hframe & Hfresh & Hpool & Horigin).
  destruct (ltsvPool_Get_checked_out pick w clone w1 Hlive Hnd Hget) as [Hco Hnd1].
  assert (Hne : clone <> enc).
  { intros <-. by apply (Hfresh clone). }
  assert (He1 : heap w1 !! enc = Some e) by (rewrite Hframe by done; exact He).
  exists clone, (poke clone e w1).
  split; [exact (Clone_run enc pick e w clone f w1 Hget He1 Hf Hne)|].
  split; [exact Hne|]. split; [apply heap_poke_eq|].
  split; [rewrite heap_poke_ne by done; exact He1|].
  split; [intros l Hl; rewrite heap_poke_ne by done; by apply Hframe|].
  split; [exact Hco|]. split; [intros Hin; apply Hout, Hpool, Hin|].
  split; [|split; [exact Hnd1|]].
  - intros l Hl. rewrite pool_poke in Hl.
    assert (l <> clone) by (intros ->; contradiction).
    rewrite heap_poke_ne, Hframe by done. apply Hlive, Hpool, Hl.
  - intros Hready l Hl. rewrite pool_poke in Hl.
    assert (l <> clone) by (intros ->; contradiction).
    rewrite heap_poke_ne, Hframe by done. apply Hready, Hpool, Hl.
Qed.

(** ** The objects of [cmd/example] *)

Lemma User_MarshalLog_fields u kv :
  User_MarshalLog u kv = marshalFields (userFields u) None kv.
Proof.
  unfold User_MarshalLog, marshalFields, userFields, addFields.
  cbn [fold_left addField]. cbv zeta. unfold AddInt.
  rewrite !AddMarshaler_steps. reflexivity.
Qed.

(** ** [Clone], [NewLTSVEncoder] and [Free] *)

(** X8.  [Clone] of an encoder that is allocated and checked out of the
    pool, the pool holding allocated encoders and none of them twice,
    returns another encoder with the same buffer contents, labels, time
    layout, nesting depth and replacer; the source and every other encoder
    are as before and the clone is checked out of the pool.  A method called
    on the clone afterwards leaves the source as it was, and the other way
    round. *)
Theorem Clone_copies_the_encoder enc e pick w :
  heap w !! enc = Some e -> enc ∉ pool w -> poolLive w -> NoDup (pool w) ->
  exists clone w',
    Clone enc pick w = Some (clone, w')
    /\ clone <> enc
    /\ heap w' !! clone = Some e
    /\ heap w' !! enc = Some e
    /\ (forall l, l <> clone -> heap w' !! l = heap w !! l)
    /\ (clone ∉ pool w') /\ (enc ∉ pool w') /\ poolLive w' /\ NoDup (pool w')
    /\ (poolReady w -> poolReady w')
    /\ (forall m, exists w'', call clone m w' = Some (tt, w'')
          /\ heap w'' !! clone = Some (m e) /\ heap w'' !! enc = Some e)
    /\ (forall m, exists w'', call enc m w' = Some (tt, w'')
          /\ heap w'' !! enc = Some (m e) /\ heap w'' !! clone = Some e).
Proof.
  intros He Hout Hlive Hnd.
  destruct (Clone_checked_out enc e pick w He Hout Hlive Hnd)
    as (clone & w' & Hrun & Hne & Hc & Hs & Hframe & Hco & Hso & Hlive' & Hnd' & Hready).
  exists clone, w'. split_and!; try done.
  - intros m. eexists. split; [apply call_run, Hc|].
    split; [apply heap_poke_eq|]. rewrite heap_poke_ne by done. exact Hs.
  - intros m. eexists. split; [apply call_run, Hs|].
    split; [apply heap_poke_eq|]. rewrite heap_poke_ne by done. exact Hc.
Qed.

Lemma Clone_copies_the_encoder_witness :
  heap (demoWorld aliceEncoder) !! 1%positive = Some aliceEncoder
  /\ (1%positive ∉ pool (demoWorld aliceEncoder))
  /\ poolLive (demoWorld aliceEncoder)
  /\ NoDup (pool (demoWorld aliceEncoder))
  /\ exists clone w',
      Clone 1%positive 0 (demoWorld aliceEncoder) = Some (clone, w')
      /\ clone <> 1%positive
      /\ heap w' !! clone = Some aliceEncoder
      /\ heap w' !! 1%positive = Some aliceEncoder.
Proof.
  assert (Hnd : NoDup (pool (demoWorld aliceEncoder))) by apply NoDup_singleton.
  split; [apply demoWorld_source|]. split; [apply demoWorld_checked_out|].
  split; [apply poolReady_live, demoWorld_ready|]. split; [exact Hnd|].
  destruct (Clone_copies_the_encoder 1%positive aliceEncoder 0 (demoWorld aliceEncoder)
              (demoWorld_source _) (demoWorld_checked_out _)
              (poolReady_live _ (demoWorld_ready _)) Hnd)
    as (clone & w' & Hrun & Hne & Hc & Hs & _).
  exists clone, w'. done.
Defined.

(** X9.  [NewLTSVEncoder] returns an encoder with an empty buffer.  Its time
    layout is the one of the last option that sets the layout, RFC3339 when
    there is none; each label is the one of the last option that sets that
    label, and when there is none it is the label of the encoder the pool
    handed out: the default only if that encoder is new or carried the
    default.  Nesting depth and replacer are those of the encoder handed
    out; the encoder is taken from the pool and no other encoder changes. *)
Theorem NewLTSVEncoder_configures_the_encoder os pick w :
  poolLive w ->
  exists enc f w',
    NewLTSVEncoder (map optionOf os) pick w = Some (enc, w')
    /\ (pool w !! pick = Some enc /\ heap w !! enc = Some f
        \/ pool w !! pick = None /\ heap w !! enc = None /\ f = ltsvPool_New)
    /\ heap w' !! enc
       = Some (mkEncoder [] (lastSet timeLabelOf os (timeLabel f))
                         (lastSet timeFmtOf os RFC3339)
                         (lastSet levelLabelOf os (levelLabel f))
                         (lastSet messageLabelOf os (messageLabel f))
                         (nestedLevel f) (replacer f))
    /\ (forall l, l <> enc -> heap w' !! l = heap w !! l)
    /\ pool w' = delete pick (pool w).
Proof.
  intros Hlive.
  destruct (pool w !! pick) as [l|] eqn:Hpick.
  - assert (Hin : l ∈ pool w) by (apply list_elem_of_lookup; eauto).
    destruct (Hlive l Hin) as [f Hf].
    assert (Hget : ltsvPool_Get pick w
                   = Some (l, mkWorld (heap w) (delete pick (pool w))))
      by (unfold ltsvPool_Get; rewrite Hpick; reflexivity).
    exists l, f. eexists. split; [apply (NewLTSVEncoder_run _ _ _ _ f _ Hget Hf)|].
    split; [left; done|]. split; [|split].
    + rewrite heap_poke_eq, fold_options. reflexivity.
    + intros l' Hl'. rewrite heap_poke_ne by done. reflexivity.
    + reflexivity.
  - set (l := fresh (dom (heap w))).
    assert (Hfresh : heap w !! l = None) by (apply not_elem_of_dom, is_fresh).
    assert (Hget : ltsvPool_Get pick w
                   = Some (l, mkWorld (<[l := ltsvPool_New]> (heap w)) (pool w)))
      by (unfold ltsvPool_Get; rewrite Hpick; reflexivity).
    exists l, ltsvPool_New. eexists.
    split; [apply (NewLTSVEncoder_run _ _ _ _ ltsvPool_New _ Hget); apply lookup_insert_eq|].
    split; [right; done|]. split; [|split].
    + rewrite heap_poke_eq, fold_options. reflexivity.
    + intros l' Hl'. rewrite heap_poke_ne by done. cbn [heap].
      by apply lookup_insert_ne.
    + cbn [pool poke]. apply lookup_ge_None in Hpick.
      rewrite delete_take_drop, take_ge, drop_ge, app_nil_r by lia. reflexivity.
Qed.

Lemma NewLTSVEncoder_configures_the_encoder_witness :
  poolLive (demoWorld aliceEncoder)
  /\ exists w',
      NewLTSVEncoder (map optionOf [OLevelLabel (B "lv"); ONoTime; OLevelLabel (B "L")]) 0
        (demoWorld aliceEncoder) = Some (2%positive, w')
      /\ heap w' !! 2%positive
         = Some (mkEncoder [] (B "time") [] (B "L") (B "msg") 0 defaultReplacer)
      /\ pool w' = [].
Proof.
  split; [apply poolReady_live, demoWorld_ready|].
  destruct (NewLTSVEncoder_configures_the_encoder
              [OLevelLabel (B "lv"); ONoTime; OLevelLabel (B "L")] 0
              (demoWorld aliceEncoder) (poolReady_live _ (demoWorld_ready _)))
    as (enc & f & w' & Hrun & [[Hp Hf]|[Hp _]] & Hh & _ & Hpool); [|discriminate Hp].
  injection Hp as <-.
  change (Some usedEncoder = Some f) in Hf. injection Hf as <-.
  exists w'. split; [exact Hrun|]. split; [exact Hh | exact Hpool].
Defined.

(** X10.  An encoder that is freed and handed out again by [NewLTSVEncoder]
    without options starts with an empty buffer and the layout RFC3339, and
    with the labels, the nesting depth and the replacer it had when it was
    freed: labels set by options for its previous use are not reset. *)
Theorem recycled_encoder_keeps_its_labels options pick w :
  poolLive w ->
  exists a g w1 w2 w3,
    NewLTSVEncoder options pick w = Some (a, w1)
    /\ heap w1 !! a = Some g
    /\ Free a w1 = Some (tt, w2)
    /\ NewLTSVEncoder [] 0 w2 = Some (a, w3)
    /\ heap w3 !! a
       = Some (mkEncoder [] (timeLabel g) RFC3339 (levelLabel g) (messageLabel g)
                         (nestedLevel g) (replacer g)).
Proof.
  intros Hlive.
  destruct (ltsvPool_Get_run pick w Hlive)
    as (a & f & w0 & Hget & Hf & _).
  pose proof (NewLTSVEncoder_run options pick w a f w0 Hget Hf) as Hrun.
  set (g := fold_left (fun e opt => opt e) options (LTSVTimeFormat RFC3339 (truncate f)))
    in Hrun.
  exists a, g, (poke a g w0), (mkWorld (heap (poke a g w0)) (a :: pool (poke a g w0))).
  eexists. split; [exact Hrun|]. split; [apply heap_poke_eq|]. split; [reflexivity|].
  assert (Hget2 : ltsvPool_Get 0 (mkWorld (heap (poke a g w0)) (a :: pool (poke a g w0)))
                  = Some (a, mkWorld (heap (poke a g w0)) (pool (poke a g w0))))
    by reflexivity.
  split.
  - apply (NewLTSVEncoder_run [] 0 _ a g _ Hget2). cbn [heap]. apply heap_poke_eq.
  - rewrite heap_poke_eq. reflexivity.
Qed.

Lemma recycled_encoder_keeps_its_labels_witness :
  poolLive (demoWorld aliceEncoder)
  /\ exists a w1 w2 w3,
      NewLTSVEncoder [LTSVLevelLabel (B "lv")] 1 (demoWorld aliceEncoder) = Some (a, w1)
      /\ Free a w1 = Some (tt, w2)
      /\ NewLTSVEncoder [] 0 w2 = Some (a, w3)
      /\ levelLabel <$> heap w3 !! a = Some (B "lv").
Proof.
  split; [apply poolReady_live, demoWorld_ready|].
  destruct (recycled_encoder_keeps_its_labels [LTSVLevelLabel (B "lv")] 1
              (demoWorld aliceEncoder) (poolReady_live _ (demoWorld_ready _)))
    as (a & g & w1 & w2 & w3 & Hrun & Hg & Hfree & Hrun2 & Hh).
  exists a, w1, w2, w3. split; [exact Hrun|]. split; [exact Hfree|].
  split; [exact Hrun2|]. rewrite Hh. cbn [fmap option_fmap option_map levelLabel].
  vm_compute in Hrun. injection Hrun as <- <-.
  vm_compute in Hg. injection Hg as <-. reflexivity.
Defined.

(** ** A child logger *)

Section ChildLogger.
Context `{Host}.

(** X11.  [WriteEntry] with a sink leaves every encoder that is checked out
    of the pool, the source or any other, with its contents and checked
    out; the pooled encoders are again as [ltsvPool.New] and a completed
    [AddMarshaler] leave them. *)
Theorem WriteEntry_keeps_checked_out_encoders enc e sk msg lvl t pick w :
  heap w !! enc = Some e -> enc ∉ pool w -> poolReady w ->
  exists r w',
    WriteEntry enc (Some sk) msg lvl t pick w = Some (r, w')
    /\ poolReady w'
    /\ (forall l x, heap w !! l = Some x -> l ∉ pool w ->
          heap w' !! l = Some x /\ l ∉ pool w').
Proof.
  intros He Hout Hready.
  destruct (WriteEntry_frame enc e sk msg lvl t pick w He Hout Hready)
    as (w' & Hrun & Hready' & Hframe).
  eexists _, w'. split; [exact Hrun|]. split; [exact Hready' | exact Hframe].
Qed.

(** X12.  A clone to which a sequence of additions is made, as to the
    encoder of a child logger, writes entries that carry the source's buffer
    with those additions; the source, written from afterwards, still writes
    entries with its own buffer only. *)
Theorem cloned_encoder_writes_its_own_fields enc e fields sk msg1 lvl1 t1 msg2 lvl2 t2
    pick1 pick2 pick3 w :
  heap w !! enc = Some e -> enc ∉ pool w -> poolReady w -> NoDup (pool w) ->
  exists clone w1 w2 err2 w3 err3 w4,
    Clone enc pick1 w = Some (clone, w1)
    /\ call clone (addFields fields) w1 = Some (tt, w2)
    /\ WriteEntry clone (Some sk) msg1 lvl1 t1 pick2 w2
       = Some ((err2, Some (mkSink (calls sk ++ [entryLine (addFields fields e) msg1 lvl1 t1])
                                   (respond sk))), w3)
    /\ WriteEntry enc (Some sk) msg2 lvl2 t2 pick3 w3
       = Some ((err3, Some (mkSink (calls sk ++ [entryLine e msg2 lvl2 t2])
                                   (respond sk))), w4).
Proof.
  intros He Hout Hready Hnd.
  destruct (Clone_checked_out enc e pick1 w He Hout (poolReady_live w Hready) Hnd)
    as (clone & w1 & Hrun & Hne & Hc & Hs & _ & Hco & Hso & _ & _ & Hready1).
  specialize (Hready1 Hready).
  set (w2 := poke clone (addFields fields e) w1).
  assert (Hc2 : heap w2 !! clone = Some (addFields fields e)) by apply heap_poke_eq.
  assert (Hs2 : heap w2 !! enc = Some e) by (unfold w2; rewrite heap_poke_ne by done; exact Hs).
  assert (Hready2 : poolReady w2) by (by apply poolReady_poke).
  destruct (WriteEntry_frame clone (addFields fields e) sk msg1 lvl1 t1 pick2 w2
              Hc2 Hco Hready2) as (w3 & Hrun2 & Hready3 & Hframe).
  destruct (Hframe enc e Hs2 Hso) as [Hs3 Hso3].
  destruct (WriteEntry_frame enc e sk msg2 lvl2 t2 pick3 w3 Hs3 Hso3 Hready3)
    as (w4 & Hrun3 & _).
  exists clone, w1, w2. eexists _, w3. eexists _, w4.
  split; [exact Hrun|]. split; [apply call_run, Hc|].
  split; [exact Hrun2 | exact Hrun3].
Qed.

End ChildLogger.

Lemma WriteEntry_keeps_checked_out_encoders_witness :
  heap (demoWorld aliceEncoder) !! 1%positive = Some aliceEncoder
  /\ (1%positive ∉ pool (demoWorld aliceEncoder))
  /\ poolReady (demoWorld aliceEncoder)
  /\ exists r w',
      WriteEntry (H := demoHost) 1%positive (Some okSink) (B "hello") InfoLevel tt 0
        (demoWorld aliceEncoder) = Some (r, w')
      /\ poolReady w'
      /\ heap w' !! 1%positive = Some aliceEncoder.
Proof.
  split; [apply demoWorld_source|]. split; [apply demoWorld_checked_out|].
  split; [apply demoWorld_ready|].
  destruct (WriteEntry_keeps_checked_out_encoders (H := demoHost) 1%positive aliceEncoder
              okSink (B "hello") InfoLevel tt 0 (demoWorld aliceEncoder)
              (demoWorld_source _) (demoWorld_checked_out _) (demoWorld_ready _))
    as (r & w' & Hrun & Hready & Hframe).
  exists r, w'. split; [exact Hrun|]. split; [exact Hready|].
  apply (Hframe 1%positive aliceEncoder (demoWorld_source _) (demoWorld_checked_out _)).
Defined.

Lemma cloned_encoder_writes_its_own_fields_witness :
  heap (demoWorld aliceEncoder) !! 1%positive = Some aliceEncoder
  /\ (1%positive ∉ pool (demoWorld aliceEncoder))
  /\ poolReady (demoWorld aliceEncoder)
  /\ NoDup (pool (demoWorld aliceEncoder))
  /\ exists clone w1 w2 err2 w3 err3 w4,
      Clone 1%positive 0 (demoWorld aliceEncoder) = Some (clone, w1)
      /\ call clone (addFields [FInt64 (B "visits") 42]) w1 = Some (tt, w2)
      /\ WriteEntry (H := demoHost) clone (Some okSink) (B "Oh no!") ErrorLevel tt 0 w2
         = Some ((err2, Some (mkSink [B "level:E" ++ [TAB] ++ B "msg:Oh no!" ++ [TAB]
                                        ++ B "user:alice" ++ [TAB] ++ B "visits:42"
                                        ++ [LF]]
                                     (respond okSink))), w3)
      /\ WriteEntry (H := demoHost) 1%positive (Some okSink) (B "Yes!") InfoLevel tt 0 w3
         = Some ((err3, Some (mkSink [B "level:I" ++ [TAB] ++ B "msg:Yes!" ++ [TAB]
                                        ++ B "user:alice" ++ [LF]]
                                     (respond okSink))), w4).
Proof.
  assert (Hnd : NoDup (pool (demoWorld aliceEncoder))) by apply NoDup_singleton.
  split; [apply demoWorld_source|]. split; [apply demoWorld_checked_out|].
  split; [apply demoWorld_ready|]. split; [exact Hnd|].
  exact (cloned_encoder_writes_its_own_fields (H := demoHost) 1%positive aliceEncoder
           [FInt64 (B "visits") 42] okSink (B "Oh no!") ErrorLevel tt (B "Yes!") InfoLevel tt
           0 0 0 (demoWorld aliceEncoder)
           (demoWorld_source _) (demoWorld_checked_out _) (demoWorld_ready _) Hnd).
Defined.

(** ** The objects of [cmd/example] *)

(** X13.  Logged under the key user at nesting depth 0, a [User] of
    [cmd/example] is written as an object with its name as a JSON string,
    its age, and the object of its [Auth], which holds the expiry time and,
    in place of the token, three dashes: the token itself is not written.
    No error is returned and the nesting depth is 0 again. *)
Theorem User_MarshalLog_writes_the_user u e :
  nestedLevel e = 0 -> replacer e = defaultReplacer ->
  let r := AddMarshaler (B "user") (User_MarshalLog u) e in
  bytes (fst r)
  = bytes e ++ match bytes e with [] => [] | _ :: _ => [TAB] end
      ++ B "user:{" ++ [QUOTE] ++ B "name" ++ [QUOTE] ++ B ":"
      ++ [QUOTE] ++ jsonEscape (Name u) ++ [QUOTE]
      ++ B "," ++ [QUOTE] ++ B "age" ++ [QUOTE] ++ B ":" ++ FormatInt10 (Age u)
      ++ B "," ++ [QUOTE] ++ B "auth" ++ [QUOTE] ++ B ":{"
      ++ [QUOTE] ++ B "expires_at" ++ [QUOTE] ++ B ":"
      ++ FormatInt10 (ExpiresAt (UserAuth u))
      ++ B "," ++ [QUOTE] ++ B "token" ++ [QUOTE] ++ B ":" ++ [QUOTE] ++ B "---" ++ [QUOTE]
      ++ B "}}"
  /\ snd r = None
  /\ nestedLevel (fst r) = 0.
Proof.
  intros Hn Hr r.
  assert (Hsame : r = AddMarshaler (B "user") (marshalFields (userFields u) None) e).
  { subst r. rewrite !AddMarshaler_steps. cbv zeta.
    rewrite User_MarshalLog_fields. reflexivity. }
  destruct (addField_text (FObject (B "user") (userFields u) None) e Hr ltac:(lia))
    as (Hb & Hl & _).
  change (addField (FObject (B "user") (userFields u) None) e)
    with (fst (AddMarshaler (B "user") (marshalFields (userFields u) None) e)) in Hb, Hl.
  rewrite <- Hsame in Hb, Hl. split; [|split; [|lia]].
  - rewrite Hb, Hn. change (0 <? 0) with false. unfold separator.
    f_equal. f_equal. unfold fieldText, userFields.
    cbn [fieldName valueText map joinBy flat_map]. unfold fieldText, keyText.
    cbn [fieldName valueText map joinBy flat_map].
    change (jsonEscape (B "name")) with (B "name").
    change (jsonEscape (B "age")) with (B "age").
    change (jsonEscape (B "auth")) with (B "auth").
    change (jsonEscape (B "expires_at")) with (B "expires_at").
    change (jsonEscape (B "token")) with (B "token").
    change (jsonEscape (B "---")) with (B "---").
    change (simpleEscape (B "user")) with (B "user").
    repeat (progress (rewrite <- ?app_assoc; cbn [app])). reflexivity.
  - rewrite Hsame, AddMarshaler_steps. reflexivity.
Qed.

Lemma User_MarshalLog_writes_the_user_witness :
  nestedLevel ltsvPool_New = 0 /\ replacer ltsvPool_New = defaultReplacer
  /\ bytes (fst (AddMarshaler (B "user") (User_MarshalLog jane) ltsvPool_New))
     = B "user:{" ++ [QUOTE] ++ B "name" ++ [QUOTE] ++ B ":"
         ++ [QUOTE] ++ B "Jane Doe" ++ [QUOTE]
         ++ B "," ++ [QUOTE] ++ B "age" ++ [QUOTE] ++ B ":42"
         ++ B "," ++ [QUOTE] ++ B "auth" ++ [QUOTE] ++ B ":{"
         ++ [QUOTE] ++ B "expires_at" ++ [QUOTE] ++ B ":100"
         ++ B "," ++ [QUOTE] ++ B "token" ++ [QUOTE] ++ B ":" ++ [QUOTE] ++ B "---" ++ [QUOTE]
         ++ B "}}".
Proof.
  split; [reflexivity|]. split; [reflexivity|].
  destruct (User_MarshalLog_writes_the_user jane ltsvPool_New eq_refl eq_refl) as [Hb _].
  rewrite Hb. reflexivity.
Defined.

(** ** The count a sink reports *)

Section Counts.
Context `{Host}.

(** X14.  When the sink returns no error and a count that is not the length
    of the line, greater counts and negative ones included, [WriteEntry]
    returns the incomplete-write error with that count and the length. *)
Theorem WriteEntry_rejects_any_other_count enc e sk msg lvl t pick w n :
  heap w !! enc = Some e -> enc ∉ pool w -> poolReady w ->
  respond sk (calls sk) (entryLine e msg lvl t) = (n, None) ->
  n <> Z.of_nat (length (entryLine e msg lvl t)) ->
  exists w',
    WriteEntry enc (Some sk) msg lvl t pick w
    = Some ((Some (errIncompleteWrite n (Z.of_nat (length (entryLine e msg lvl t)))),
             Some (mkSink (calls sk ++ [entryLine e msg lvl t]) (respond sk))), w').
Proof.
  intros He Hout Hready Hanswer Hn.
  destruct (WriteEntry_frame enc e sk msg lvl t pick w He Hout Hready)
    as (w' & Hrun & _).
  exists w'. rewrite Hrun, Hanswer. unfold writeResult. cbn [fst snd].
  apply Z.eqb_neq in Hn. rewrite Hn. reflexivity.
Qed.

End Counts.

Lemma WriteEntry_rejects_any_other_count_witness :
  let line := B "level:I" ++ [TAB] ++ B "msg:hello" ++ [TAB] ++ B "user:alice" ++ [LF] in
  heap (demoWorld aliceEncoder) !! 1%positive = Some aliceEncoder
  /\ (1%positive ∉ pool (demoWorld aliceEncoder))
  /\ poolReady (demoWorld aliceEncoder)
  /\ respond longSink (calls longSink) line = (30, None)
  /\ 30 <> Z.of_nat (length line)
  /\ exists w',
      WriteEntry (H := demoHost) 1%positive (Some longSink) (B "hello") InfoLevel tt 0
        (demoWorld aliceEncoder)
      = Some ((Some (errIncompleteWrite 30 29), Some (mkSink [line] (respond longSink))), w').
Proof.
  intros line.
  split; [apply demoWorld_source|]. split; [apply demoWorld_checked_out|].
  split; [apply demoWorld_ready|]. split; [reflexivity|]. split; [vm_compute; discriminate|].
  exact (WriteEntry_rejects_any_other_count (H := demoHost) 1%positive aliceEncoder longSink
           (B "hello") InfoLevel tt 0 (demoWorld aliceEncoder) 30
           (demoWorld_source _) (demoWorld_checked_out _) (demoWorld_ready _)
           eq_refl ltac:(vm_compute; discriminate)).
Defined.

(** ** JSON-mode escaping can be undone *)

(** X15.  Unlike simple-mode escaping, JSON-mode escaping keeps valid UTF-8
    strings apart: two such strings for which [safeAddJSONString] appends
    the same bytes are the same string. *)
Theorem safeAddJSONString_is_injective s1 s2 enc :
  ValidString s1 = true -> ValidString s2 = true ->
  bytes (safeAddJSONString s1 enc) = bytes (safeAddJSONString s2 enc) ->
  s1 = s2.
Proof.
  intros H1 H2 Heq. rewrite !bytes_safeAddJSONString in Heq.
  apply app_inv_head in Heq.
  pose proof (jsonUnquote_jsonEscape s1) as U1.
  pose proof (jsonUnquote_jsonEscape s2) as U2.
  rewrite Heq, U2 in U1. injection U1 as U1.
  unfold replaceInvalid in U1.
  rewrite !replaceInvalidLoop_valid in U1 by assumption. congruence.
Qed.

Lemma safeAddJSONString_is_injective_witness :
  ValidString (B "a") = true
  /\ bytes (safeAddJSONString (B "a") ltsvPool_New)
     = bytes (safeAddJSONString (B "a") ltsvPool_New)
  /\ B "a" = B "a".
Proof.
  split; [reflexivity|]. split; [reflexivity|].
  exact (safeAddJSONString_is_injective (B "a") (B "a") ltsvPool_New eq_refl eq_refl eq_refl).
Defined.

(** ** [WriteEntry] on an encoder that was freed *)

Lemma labels_addKey key f :
  timeLabel (addKey key f) = timeLabel f /\ timeFmt (addKey key f) = timeFmt f
  /\ levelLabel (addKey key f) = levelLabel f
  /\ messageLabel (addKey key f) = messageLabel f.
Proof.
  unfold addKey. destruct (0 <? nestedLevel f).
  - destruct (_ && _); done.
  - destruct (0 <? length (bytes f))%nat; done.
Qed.

Section Freed.
Context `{Host}.

Lemma labels_addTimeV e t f :
  levelLabel (addTimeV e t f) = levelLabel f
  /\ messageLabel (addTimeV e t f) = messageLabel f.
Proof.
  unfold addTimeV. destruct (length (timeFmt e) =? 0)%nat; [done|].
  cbn [set_bytes levelLabel messageLabel].
  destruct (labels_addKey (timeLabel e) f) as (_ & _ & -> & ->). done.
Qed.

Lemma messageLabel_addLevelV e lvl f : messageLabel (addLevelV e lvl f) = messageLabel f.
Proof.
  unfold addLevelV, append. cbn [set_bytes messageLabel].
  by destruct (labels_addKey (levelLabel e) f) as (_ & _ & _ & ->).
Qed.

(** [addTime] when the source is the encoder written to. *)
Lemma addTime_self enc t f w :
  heap w !! enc = Some f ->
  addTime enc enc t w = Some (tt, poke enc (addTimeV f t f) w).
Proof.
  intros Hf. unfold addTime, addTimeV.
  rewrite (bind_run _ _ _ _ _ (load_run _ _ _ Hf)).
  destruct (length (timeFmt f) =? 0)%nat.
  - unfold ret, poke. rewrite insert_id by done. by destruct w.
  - rewrite (bind_run _ _ _ _ _ (load_run _ _ _ Hf)).
    rewrite (bind_run _ _ _ _ _ (call_run _ _ _ _ Hf)).
    rewrite (bind_run _ _ _ _ _ (load_run _ _ _ (heap_poke_eq _ _ _))).
    rewrite (call_run _ _ _ _ (heap_poke_eq _ _ _)), poke_poke.
    destruct (labels_addKey (timeLabel f) f) as (_ & -> & _). reflexivity.
Qed.

(** The entry's own fields, composed in an encoder that is its own source. *)
Lemma bytes_composed_self e msg lvl t :
  nestedLevel e = 0 -> replacer e = defaultReplacer ->
  let c1 := addTimeV (truncate e) t (truncate e) in
  let c2 := addLevelV c1 lvl c1 in
  bytes (addMessageV c2 msg c2)
  = timeField e t ++ levelField e lvl ++ [TAB] ++ messageField e msg.
Proof.
  intros Hn Hr c1 c2.
  assert (Hc : bytes (append [LF]
                        (addMessageV (truncate e) msg
                           (addLevelV (truncate e) lvl
                              (addTimeV (truncate e) t (truncate e)))))
               = timeField e t ++ levelField e lvl ++ [TAB] ++ messageField e msg
                   ++ [] ++ [LF])
    by exact (bytes_composed (truncate e) msg lvl t e Hn Hr).
  assert (Hsame : addMessageV c2 msg c2
                  = addMessageV (truncate e) msg
                      (addLevelV (truncate e) lvl
                         (addTimeV (truncate e) t (truncate e)))).
  { subst c2 c1. unfold addMessageV at 1. rewrite messageLabel_addLevelV.
    destruct (labels_addTimeV (truncate e) t (truncate e)) as [Hl Hm].
    rewrite Hm. unfold addLevelV at 1 2. rewrite Hl. reflexivity. }
  rewrite Hsame. rewrite bytes_append in Hc.
  rewrite !app_assoc in Hc. apply app_inv_tail in Hc.
  rewrite app_nil_r in Hc. rewrite Hc, <- !app_assoc. reflexivity.
Qed.

(** X16.  [WriteEntry] on an encoder that was freed, when the pool hands
    that very encoder out as the scratch encoder of the call: the fields the
    encoder held are lost, and the line written is the entry's own fields
    twice, each followed by a tab, and the newline; the encoder is left
    holding that line. *)
Theorem WriteEntry_on_a_freed_encoder enc e sk msg lvl t pick w :
  heap w !! enc = Some e -> pool w !! pick = Some enc ->
  nestedLevel e = 0 -> replacer e = defaultReplacer ->
  let own := timeField e t ++ levelField e lvl ++ [TAB] ++ messageField e msg in
  let line := own ++ [TAB] ++ own ++ [TAB; LF] in
  exists err w',
    WriteEntry enc (Some sk) msg lvl t pick w
    = Some ((err, Some (mkSink (calls sk ++ [line]) (respond sk))), w')
    /\ bytes <$> heap w' !! enc = Some line.
Proof.
  intros He Hpick Hn Hr own line.
  set (w0 := mkWorld (heap w) (delete pick (pool w))).
  assert (Hget : ltsvPool_Get pick w = Some (enc, w0))
    by (unfold ltsvPool_Get; rewrite Hpick; reflexivity).
  set (c1 := addTimeV (truncate e) t (truncate e)).
  set (c2 := addLevelV c1 lvl c1).
  set (c3 := addMessageV c2 msg c2).
  assert (Hc3 : bytes c3 = own) by (apply bytes_composed_self; assumption).
  assert (Hlen : (0 <? length (bytes c3))%nat = true).
  { apply Nat.ltb_lt. rewrite Hc3. unfold own, levelField.
    rewrite !length_app. cbn [length]. lia. }
  set (c6 := append [LF] (append (bytes (append [TAB] c3)) (append [TAB] c3))).
  assert (Hline : bytes c6 = line).
  { unfold c6. rewrite !bytes_append, Hc3. unfold line.
    rewrite <- !app_assoc. reflexivity. }
  assert (Hrun : WriteEntry enc (Some sk) msg lvl t pick w
                 = Some ((writeResult (respond sk (calls sk) (bytes c6))
                                      (Z.of_nat (length (bytes c6))),
                          Some (mkSink (calls sk ++ [bytes c6]) (respond sk))),
                         mkWorld (<[enc := c6]> (heap w0)) (enc :: pool w0))).
  { unfold WriteEntry.
    rewrite (bind_run _ _ _ _ _ Hget).
    rewrite (bind_run _ _ _ _ _ (call_run _ _ _ _ (He : heap w0 !! enc = Some e))).
    rewrite (bind_run _ _ _ _ _ (addTime_self _ _ _ _ (heap_poke_eq _ _ _))), poke_poke.
    rewrite (bind_run _ _ _ _ _
               (addLevel_run _ _ _ _ _ _ (heap_poke_eq _ _ _) (heap_poke_eq _ _ _))),
      poke_poke.
    rewrite (bind_run _ _ _ _ _
               (addMessage_run _ _ _ _ _ _ (heap_poke_eq _ _ _) (heap_poke_eq _ _ _))),
      poke_poke.
    fold c1 c2 c3.
    rewrite (bind_run _ _ _ _ _ (load_run _ _ _ (heap_poke_eq _ _ _))), Hlen.
    assert (Hfields :
      (call enc (append [TAB]);;; do e0 <- load enc; call enc (append (bytes e0)))%go
        (poke enc c3 w0)
      = Some (tt, poke enc (append (bytes (append [TAB] c3)) (append [TAB] c3)) w0)).
    { rewrite (bind_run _ _ _ _ _ (call_run _ _ _ _ (heap_poke_eq _ _ _))), poke_poke.
      rewrite (bind_run _ _ _ _ _ (load_run _ _ _ (heap_poke_eq _ _ _))).
      rewrite (call_run _ _ _ _ (heap_poke_eq _ _ _)), poke_poke. reflexivity. }
    rewrite (bind_run _ _ _ _ _ Hfields).
    rewrite (bind_run _ _ _ _ _ (call_run _ _ _ _ (heap_poke_eq _ _ _))), poke_poke.
    fold c6.
    rewrite (bind_run _ _ _ _ _ (load_run _ _ _ (heap_poke_eq _ _ _))).
    unfold sink_Write, writeResult.
    destruct (respond sk (calls sk) (bytes c6)) as [n [err|]]; cbn [fst snd].
    - reflexivity.
    - destruct (n =? Z.of_nat (length (bytes c6))); reflexivity. }
  rewrite Hline in Hrun. eexists _, _. split; [exact Hrun|].
  cbn [heap]. rewrite lookup_insert_eq. cbn [fmap option_fmap option_map]. by f_equal.
Qed.

End Freed.

Lemma WriteEntry_on_a_freed_encoder_witness :
  let w := mkWorld (heap (demoWorld aliceEncoder)) [1%positive] in
  heap w !! 1%positive = Some aliceEncoder
  /\ pool w !! 0%nat = Some 1%positive
  /\ nestedLevel aliceEncoder = 0 /\ replacer aliceEncoder = defaultReplacer
  /\ exists err w',
      WriteEntry (H := demoHost) 1%positive (Some okSink) (B "hello") InfoLevel tt 0 w
      = Some ((err, Some (mkSink [B "level:I" ++ [TAB] ++ B "msg:hello" ++ [TAB]
                                    ++ B "level:I" ++ [TAB] ++ B "msg:hello" ++ [TAB; LF]]
                                 (respond okSink))), w').
Proof.
  intros w. split; [reflexivity|]. split; [reflexivity|]. split; [reflexivity|].
  split; [reflexivity|].
  destruct (WriteEntry_on_a_freed_encoder (H := demoHost) 1%positive aliceEncoder okSink
              (B "hello") InfoLevel tt 0 w eq_refl eq_refl eq_refl eq_refl)
    as (err & w' & Hrun & _).
  exists err, w'. exact Hrun.
Defined.

(** ** Numerals *)

Lemma parseFrom_app digit base l1 : forall acc l2,
  parseFrom digit base acc (l1 ++ l2)
  = match parseFrom digit base acc l1 with
    | Some x => parseFrom digit base x l2
    | None => None
    end.
Proof.
  induction l1 as [|b l1 IH]; intros acc l2; [reflexivity|].
  cbn [app parseFrom]. destruct (digit b); [apply IH | reflexivity].
Qed.

Lemma hex_table_zero z :
  0 <= z < 16 -> byteAt _hex (Z.to_nat z) = "0"%byte -> z = 0.
Proof.
  intros Hz Hb. destruct (hex_table z Hz) as [_ Hv]. rewrite Hb in Hv.
  vm_compute in Hv. congruence.
Qed.

(** The digits [hexDigits] puts before [acc]. *)
Lemma hexDigits_value fuel : forall v acc,
  0 <= v < 16 ^ Z.of_nat (S fuel) ->
  exists ds,
    hexDigits (S fuel) v acc = ds ++ acc
    /\ (forall a, parseFrom hexVal 16 a ds = Some (a * 16 ^ Z.of_nat (length ds) + v))
    /\ (1 <= length ds <= S fuel)%nat
    /\ Forall (fun b => isHexDigit b = true) ds
    /\ (v <> 0 -> head ds <> Some "0"%byte).
Proof.
  induction fuel as [|fuel IH]; intros v acc Hv.
  - exists [byteAt _hex (Z.to_nat (v mod 16))].
    assert (Hq : v / 16 = 0) by (apply Z.div_small; cbn in Hv; lia).
    assert (Hm : v mod 16 = v) by (apply Z.mod_small; cbn in Hv; lia).
    cbn [hexDigits]. rewrite Hq, Hm. change (0 =? 0) with true.
    destruct (hex_table v ltac:(cbn in Hv; lia)) as [Hd Hval].
    split; [reflexivity|]. split; [|split; [cbn [length]; lia|split]].
    + intros a. cbn [parseFrom length]. rewrite Hval. f_equal. lia.
    + repeat constructor. exact Hd.
    + intros Hne Hh. cbn [head] in Hh. injection Hh as Hh.
      apply hex_table_zero in Hh; [done | cbn in Hv; lia].
  - change (hexDigits (S (S fuel)) v acc)
      with (if v / 16 =? 0 then byteAt _hex (Z.to_nat (v mod 16)) :: acc
            else hexDigits (S fuel) (v / 16) (byteAt _hex (Z.to_nat (v mod 16)) :: acc)).
    assert (Hm : 0 <= v mod 16 < 16) by (apply Z.mod_pos_bound; lia).
    destruct (hex_table _ Hm) as [Hd Hval].
    destruct (v / 16 =? 0) eqn:Hq.
    + apply Z.eqb_eq in Hq.
      assert (Hv' : v mod 16 = v) by (pose proof (Z.div_mod v 16); lia).
      exists [byteAt _hex (Z.to_nat (v mod 16))].
      split; [reflexivity|]. split; [|split; [cbn [length]; lia|split]].
      * intros a. cbn [parseFrom length]. rewrite Hval. f_equal. lia.
      * repeat constructor. exact Hd.
      * intros Hne Hh. cbn [head] in Hh. injection Hh as Hh.
        apply hex_table_zero in Hh; [lia | exact Hm].
    + apply Z.eqb_neq in Hq.
      assert (Hv' : 0 <= v / 16 < 16 ^ Z.of_nat (S fuel)).
      { split; [apply Z.div_pos; lia|]. apply Z.div_lt_upper_bound; [lia|].
        replace (16 * 16 ^ Z.of_nat (S fuel)) with (16 ^ Z.of_nat (S (S fuel)));
          [lia|].
        rewrite (Nat2Z.inj_succ (S fuel)), Z.pow_succ_r by lia. reflexivity. }
      destruct (IH (v / 16) (byteAt _hex (Z.to_nat (v mod 16)) :: acc) Hv')
        as (ds & -> & Hparse & Hlen & Hds & Hhead).
      exists (ds ++ [byteAt _hex (Z.to_nat (v mod 16))]).
      split; [rewrite <- app_assoc; reflexivity|].
      split; [|split; [rewrite length_app; cbn [length]; lia|split]].
      * intros a. rewrite parseFrom_app, Hparse. cbn [parseFrom]. rewrite Hval.
        f_equal. rewrite length_app. cbn [length].
        replace (Z.of_nat (length ds + 1)) with (Z.succ (Z.of_nat (length ds))) by lia.
        rewrite Z.pow_succ_r by lia. pose proof (Z.div_mod v 16). lia.
      * apply Forall_app. split; [exact Hds | repeat constructor; exact Hd].
      * intros _. destruct ds as [|d ds]; [cbn [length] in Hlen; lia|].
        cbn [app head]. apply (Hhead Hq).
Qed.

Lemma B_String c s : B (String c s) = Ascii.byte_of_ascii c :: B s.
Proof. reflexivity. Qed.

Lemma digitVal_digits d acc :
  parseFrom digitVal 10 (Z.pos acc) (B (NilEmpty.string_of_uint d))
  = Some (Z.pos (Pos.of_uint_acc d acc)).
Proof.
  revert acc. induction d; intros acc;
    cbn [NilEmpty.string_of_uint Pos.of_uint_acc]; [reflexivity|..];
    rewrite B_String; cbn [parseFrom];
    match goal with
    | |- context [digitVal ?b] =>
      let v := eval vm_compute in (digitVal b) in change (digitVal b) with v
    end; cbv iota; rewrite <- IHd; f_equal; lia.
Qed.

Lemma digitVal_uint d :
  parseFrom digitVal 10 0 (B (NilEmpty.string_of_uint d)) = Some (Z.of_N (Pos.of_uint d)).
Proof.
  induction d;
    cbn [NilEmpty.string_of_uint Pos.of_uint]; [reflexivity|..];
    rewrite B_String; cbn [parseFrom];
    match goal with
    | |- context [digitVal ?b] =>
      let v := eval vm_compute in (digitVal b) in change (digitVal b) with v
    end; cbv iota; [exact IHd|..];
    cbn [Z.of_N]; rewrite <- digitVal_digits; f_equal.
Qed.

Lemma to_uint_head p : forall u, Pos.to_uint p <> Decimal.D0 u.
Proof.
  intros u Hu.
  pose proof (DecimalPos.Unsigned.to_of (Pos.to_uint p)) as Hn.
  rewrite DecimalPos.Unsigned.of_to in Hn. cbn [N.to_uint] in Hn.
  rewrite Hu in Hn at 1. unfold Decimal.unorm in Hn.
  destruct (Decimal.nzhead (Pos.to_uint p)) eqn:E; try discriminate Hn.
  - injection Hn as ->. by apply (DecimalPos.Unsigned.to_uint_nonzero p).
  - by apply DecimalFacts.nzhead_nonzero in E.
Qed.

(** The decimal text of a positive number: digits that read back as the
    number, the first of them not a zero. *)
Lemma decimal_of_positive p :
  exists d ds,
    B (NilZero.string_of_uint (Pos.to_uint p)) = d :: ds
    /\ isDigit d = true /\ d <> "0"%byte
    /\ Forall (fun b => isDigit b = true) ds
    /\ parseFrom digitVal 10 0 (d :: ds) = Some (Z.pos p).
Proof.
  pose proof (to_uint_head p) as Hhead.
  pose proof (DecimalPos.Unsigned.to_uint_nonnil p) as Hnil.
  pose proof (digitVal_uint (Pos.to_uint p)) as Hparse.
  rewrite DecimalPos.Unsigned.of_to in Hparse. cbn [Z.of_N] in Hparse.
  pose proof (string_of_uint_digits (Pos.to_uint p)) as Hds.
  assert (Hs : NilZero.string_of_uint (Pos.to_uint p)
               = NilEmpty.string_of_uint (Pos.to_uint p))
    by (unfold NilZero.string_of_uint; destruct (Pos.to_uint p); [congruence|..];
        reflexivity).
  rewrite Hs.
  destruct (Pos.to_uint p) as [|u|u|u|u|u|u|u|u|u|u]; [congruence|by destruct (Hhead u)|..];
    cbn [NilEmpty.string_of_uint] in *; rewrite B_String in *;
    apply Forall_cons in Hds as [Hd Hds];
    eexists _, _; (split; [reflexivity|]); split_and!;
      solve [exact Hd | discriminate | exact Hds | exact Hparse].
Qed.

(** ** The numerals of integers and pointers *)

(** X17.  For a pointer value of 64 bits, [AddUintptr] appends, after the
    key, the characters 0x and a hexadecimal numeral of one to sixteen
    lowercase digits that reads back as the value; the numeral has no
    leading zero unless the value is 0. *)
Theorem AddUintptr_writes_the_hexadecimal_numeral key val e :
  0 <= val < 2 ^ 64 ->
  let out := hexDigits 16 val [] in
  bytes (AddUintptr key val e) = bytes (addKey key e) ++ B "0x" ++ out
  /\ parseHex out = Some val
  /\ (1 <= length out <= 16)%nat
  /\ (val <> 0 -> head out <> Some "0"%byte).
Proof.
  intros Hval out.
  destruct (hexDigits_value 15 val [] ltac:(change (16 ^ Z.of_nat 16) with (2 ^ 64); lia))
    as (ds & Hds & Hparse & Hlen & Hhex & Hhead).
  rewrite app_nil_r in Hds. subst out. rewrite Hds.
  split; [|split; [|split; [exact Hlen | exact Hhead]]].
  - unfold AddUintptr. rewrite !bytes_append, Hds, <- app_assoc. reflexivity.
  - unfold parseHex. destruct ds as [|d ds]; [cbn [length] in Hlen; lia|].
    replace (forallb isHexDigit (d :: ds)) with true.
    + rewrite Hparse. f_equal; lia.
    + symmetry. apply forallb_forall. intros x Hx.
      rewrite List.Forall_forall in Hhex. apply Hhex, Hx.
Qed.

Lemma AddUintptr_writes_the_hexadecimal_numeral_witness :
  0 <= 3054 < 2 ^ 64
  /\ bytes (AddUintptr (B "p") 3054 ltsvPool_New) = B "p:0xbee"
  /\ parseHex (B "bee") = Some 3054.
Proof.
  split; [lia|].
  destruct (AddUintptr_writes_the_hexadecimal_numeral (B "p") 3054 ltsvPool_New
              ltac:(lia)) as (Hb & Hp & _).
  split; [exact Hb | exact Hp].
Defined.

(** X18.  [AddInt64] and [AddUint64] append, after the key, the decimal
    numeral of the value: an optional minus sign, present exactly for a
    negative value, and one or more digits without a leading zero unless the
    value is 0; read back, the numeral is the value. *)
Theorem AddInt64_writes_the_decimal_numeral key val e :
  bytes (AddInt64 key val e) = bytes (addKey key e) ++ FormatInt10 val
  /\ bytes (AddUint64 key val e) = bytes (addKey key e) ++ FormatInt10 val
  /\ parseDecimal (FormatInt10 val) = Some val
  /\ exists d ds,
      FormatInt10 val = (if val <? 0 then ["-"%byte] else []) ++ d :: ds
      /\ isDigit d = true /\ Forall (fun b => isDigit b = true) ds
      /\ (val <> 0 -> d <> "0"%byte).
Proof.
  split; [reflexivity|]. split; [reflexivity|].
  unfold FormatInt10. destruct val as [|q|q];
    cbn [Z.to_int NilZero.string_of_int Z.ltb Z.compare].
  - split; [reflexivity|]. exists "0"%byte, []. split; [reflexivity|].
    split; [reflexivity|]. split; [constructor | done].
  - destruct (decimal_of_positive q) as (d & ds & Hs & Hd & Hz & Hds & Hparse).
    rewrite Hs. split.
    + unfold parseDecimal. destruct d; first [discriminate Hd | exact Hparse].
    + exists d, ds. done.
  - destruct (decimal_of_positive q) as (d & ds & Hs & Hd & Hz & Hds & Hparse).
    rewrite B_String, Hs. split.
    + unfold parseDecimal. cbv iota. rewrite Hparse. reflexivity.
    + exists d, ds. done.
Qed.

(** ** The flattener on complete and on short traces *)

Lemma IndexByte_None (x : bstring) c : c ∉ x -> IndexByte x c = None.
Proof.
  induction x as [|b x IH]; intros Hc; [reflexivity|].
  apply not_elem_of_cons in Hc as [Hb Hx]. cbn [IndexByte].
  assert (Hbc : Byte.eqb b c = false) by (apply Byte_eqb_neq; congruence).
  rewrite Hbc, (IH Hx). reflexivity.
Qed.

Lemma skipSpec_short ls : forall n rest,
  Forall (fun l => LF ∉ l) ls -> LF ∉ rest -> (length ls < n)%nat ->
  skipSpec n (linesBytes ls ++ rest) = inl rest.
Proof.
  induction ls as [|l ls IH]; intros n rest Hok Hrest Hn;
    (destruct n as [|n]; [cbn [length] in Hn; lia|]).
  - cbn [linesBytes map concat app skipSpec]. by rewrite (IndexByte_None _ _ Hrest).
  - apply Forall_cons in Hok as [Hl Hok].
    unfold linesBytes. cbn [map concat length skipSpec].
    rewrite <- !app_assoc. cbn [app].
    rewrite (IndexByte_app _ _ _ Hl).
    rewrite drop_app_add' by reflexivity. cbn [drop].
    apply IH; [done | done | cbn [length] in Hn; lia].
Qed.

Lemma p_appendP cap xs st : p (appendP cap xs st) = p st ++ xs.
Proof. unfold appendP. destruct (shared st && _); reflexivity. Qed.

Lemma buffer_too_small_text cap st :
  buffer_too_small cap st = p st ++ buf st ++ B "...".
Proof.
  unfold buffer_too_small. rewrite !p_appendP, <- app_assoc. reflexivity.
Qed.

Lemma flatAll_one_line fs : Forall frameOK fs -> LF ∉ flatAll fs.
Proof.
  induction 1 as [|f fs [Hd Hl] _ IH]; [apply not_elem_of_nil|].
  cbn [flatAll]. unfold flatOne.
  rewrite !not_elem_of_app, !not_elem_of_cons.
  split_and!; try done; try apply not_elem_of_nil.
  destruct fs; [apply not_elem_of_nil|].
  apply not_elem_of_cons. split; [done | exact IH].
Qed.

(** X19.  On a complete trace, that is 1+2*skip whole lines and then frames
    of a description line and a location line each, with no more frames
    than there are bytes in the skipped lines, [formatStacktraceInOneLine]
    returns the frames as [description location] in brackets, the first byte
    of the location line dropped, joined by commas: one line without a
    newline, whatever the spare capacity of the buffer. *)
Theorem flattener_joins_the_frames spare skip ls fs :
  0 <= skip < 2 ^ 61 -> length ls = Z.to_nat (1 + 2 * skip) ->
  Forall (fun l => LF ∉ l) ls -> Forall frameOK fs ->
  (length fs <= length (linesBytes ls))%nat ->
  formatStacktraceInOneLine spare skip (linesBytes ls ++ traceBody fs)
  = Some (flatAll fs)
  /\ (LF ∉ flatAll fs).
Proof.
  intros Hskip Hlen Hls Hfs Hroom. split; [|by apply flatAll_one_line].
  by apply formatStacktraceInOneLine_complete.
Qed.

Lemma flattener_joins_the_frames_witness :
  let ls := [B "goroutine 1 [running]:"] in
  let fs := [mkFrame (B "main.f(0x1)") TAB (B "/a.go:7 +0x1d");
             mkFrame (B "main.main()") TAB (B "/a.go:3 +0x2a")] in
  0 <= 0 < 2 ^ 61 /\ length ls = Z.to_nat (1 + 2 * 0)
  /\ Forall (fun l => LF ∉ l) ls /\ Forall frameOK fs
  /\ (length fs <= length (linesBytes ls))%nat
  /\ formatStacktraceInOneLine 0 0 (linesBytes ls ++ traceBody fs)
     = Some (B "[main.f(0x1) /a.go:7 +0x1d],[main.main() /a.go:3 +0x2a]").
Proof.
  intros ls fs.
  assert (Hls : Forall (fun l => LF ∉ l) ls).
  { repeat constructor. apply countByte_zero_notin. reflexivity. }
  assert (Hfs : Forall frameOK fs).
  { repeat constructor; apply countByte_zero_notin; reflexivity. }
  assert (Hroom : (length fs <= length (linesBytes ls))%nat) by (vm_compute; lia).
  split; [lia|]. split; [reflexivity|]. split; [exact Hls|]. split; [exact Hfs|].
  split; [exact Hroom|].
  exact (proj1 (flattener_joins_the_frames 0 0 ls fs ltac:(lia) eq_refl Hls Hfs Hroom)).
Defined.

(** X20.  A trace that ends before the 1+2*skip lines to be skipped are
    read, the empty trace among them, comes back as the text after its last
    complete line followed by three dots. *)
Theorem flattener_marks_a_short_trace spare skip ls rest :
  0 <= skip < 2 ^ 61 -> (length ls < Z.to_nat (1 + 2 * skip))%nat ->
  Forall (fun l => LF ∉ l) ls -> LF ∉ rest ->
  formatStacktraceInOneLine spare skip (linesBytes ls ++ rest)
  = Some (rest ++ B "...").
Proof.
  intros Hskip Hlen Hls Hrest. unfold formatStacktraceInOneLine.
  rewrite !wrapInt_small by (rewrite ?wrapInt_small; lia).
  set (s := linesBytes ls ++ rest).
  pose proof (skipLines_skipSpec (Z.to_nat (1 + 2 * skip)) s 0 [] true) as Hsk.
  rewrite drop_0 in Hsk. unfold s in Hsk at 2 4.
  rewrite (skipSpec_short ls _ rest Hls Hrest Hlen) in Hsk.
  destruct (skipLines _ _) as [st|st]; destruct Hsk as [Hbuf Hst]; [|discriminate Hbuf].
  injection Hbuf as Hbuf. rewrite buffer_too_small_text, <- Hbuf, Hst. reflexivity.
Qed.

Lemma flattener_marks_a_short_trace_witness :
  0 <= 1 < 2 ^ 61
  /\ (length [B "goroutine 1 [running]:"] < Z.to_nat (1 + 2 * 1))%nat
  /\ Forall (fun l => LF ∉ l) [B "goroutine 1 [running]:"]
  /\ (LF ∉ B "main.f(")
  /\ formatStacktraceInOneLine 0 1 (B "goroutine 1 [running]:" ++ [LF] ++ B "main.f(")
     = Some (B "main.f(...").
Proof.
  assert (Hls : Forall (fun l => LF ∉ l) [B "goroutine 1 [running]:"]).
  { repeat constructor. apply countByte_zero_notin. reflexivity. }
  assert (Hrest : LF ∉ B "main.f(") by (apply countByte_zero_notin; reflexivity).
  split; [lia|]. split; [vm_compute; lia|]. split; [exact Hls|]. split; [exact Hrest|].
  exact (flattener_marks_a_short_trace 0 1 [B "goroutine 1 [running]:"] (B "main.f(")
           ltac:(lia) ltac:(vm_compute; lia) Hls Hrest).
Defined.
